(** * A shallow embedding of z3's PDD Groebner saturation core
    (src/math/grobner/pdd_solver.cpp)

    The solver owns heap-allocated equations that are referenced, by
    pointer, from three queues, from the watch lists and from the conflict
    slot.  The embedding keeps that sharing: equations live in a store
    ([heap]) and every container holds addresses.  The polynomial algebra
    (pdd_manager), the dependency manager and the pre-pass simplifier are
    outside this file of the source and are taken as an interface. *)

From stdpp Require Import gmap list strings.
From Stdlib Require Import ZArith Lia.


(** ** The algebra the solver consumes *)

(** [reduce] and [try_spoly] build new diagrams and may raise
    [pdd_manager::mem_out]; that outcome is [None].  [pdd_rank] is not an
    operation of the source: it is the well-founded reduction order that
    bounds the do-while of [simplify_using], used as its fuel. *)
Class PddManager := {
  pdd : Type;
  pdd_eq_dec :: EqDecision pdd;
  pdd_zero : pdd;
  is_val : pdd → bool;
  is_zero : pdd → bool;
  var : pdd → nat;
  hi : pdd → pdd;
  tree_size : pdd → nat;
  degree : pdd → nat;
  reduce : pdd → pdd → option pdd;
  try_spoly : pdd → pdd → option (option pdd);
  different_leading_term : pdd → pdd → bool;
  pdd_lt : pdd → pdd → bool;
  get_level2var : list nat;
  is_too_complex : pdd → bool;
  pdd_rank : pdd → nat;
  pdd_wf : pdd → Prop;
  dep : Type;
  dep_null : dep;
  mk_join : dep → dep → dep;
}.

(** The contract of the algebra that the invariants of the saturation loop
    rest on. *)
Class PddLaws (PM : PddManager) : Prop := {
  reduce_wf : ∀ p q r, pdd_wf p → pdd_wf q → reduce p q = Some r → pdd_wf r;
  spoly_wf : ∀ p q r, pdd_wf p → pdd_wf q → try_spoly p q = Some (Some r) → pdd_wf r;
  var_bound : ∀ p, pdd_wf p → is_val p = false → var p < length get_level2var;
  reduce_level : ∀ p q r i j, reduce p q = Some r → is_val p = false → is_val r = false →
      get_level2var !! i = Some (var r) → get_level2var !! j = Some (var p) → i ≤ j;
  reduce_rank : ∀ p q r, reduce p q = Some r → r ≠ p → pdd_rank r < pdd_rank p;
  level2var_nodup : NoDup get_level2var;
  level2var_bound : ∀ v, v ∈ get_level2var → v < length get_level2var;
}.

(** ** Data model *)

Inductive eq_state := solved | to_simplify | processed.

Global Instance eq_state_eq_dec : EqDecision eq_state.
Proof. solve_decision. Defined.

Abbreviation ptr := nat (only parsing).

(** Unsigned 32-bit counters wrap around. *)
Definition wrap32 (z : Z) : Z := (z mod 2 ^ 32)%Z.

(** ** Outcomes: normal return, the algebra's mem_out in flight, or the
    fuel of a loop model used up. *)
Inductive res (A : Type) := Val (a : A) | MemOut | Timeout.
Arguments Val {A} a.
Arguments MemOut {A}.
Arguments Timeout {A}.

Section Solver.
Context {PM : PddManager}.

Record equation := mk_equation {
  m_state : eq_state;
  m_idx : nat;
  m_poly : pdd;
  m_dep : dep;
}.

Definition set_state (st : eq_state) (x : equation) : equation :=
  mk_equation st (m_idx x) (m_poly x) (m_dep x).
Definition set_index (i : nat) (x : equation) : equation :=
  mk_equation (m_state x) i (m_poly x) (m_dep x).
Definition set_poly (p : pdd) (x : equation) : equation :=
  mk_equation (m_state x) (m_idx x) p (m_dep x).
Definition set_dep (d : dep) (x : equation) : equation :=
  mk_equation (m_state x) (m_idx x) (m_poly x) d.

Record stats := mk_stats {
  m_simplified : Z;
  m_max_expr_size : nat;
  m_max_expr_degree : nat;
  m_superposed : Z;
  m_compute_steps : Z;
}.

Record config := mk_config {
  m_eqs_threshold : Z;
  m_max_steps : Z;
}.

(** [heap]/[next_ptr] stand for alloc/dealloc; [m_limit] is the cancel flag
    read by [canceled()]. *)
Record solver := mk_solver {
  heap : gmap nat equation;
  next_ptr : nat;
  m_limit : bool;
  m_stats : stats;
  m_config : config;
  m_solved : list ptr;
  m_processed : list ptr;
  m_to_simplify : list ptr;
  m_conflict : option ptr;
  m_too_complex : bool;
  m_levelp1 : nat;
  m_level2var : list nat;
  m_var2level : list nat;
  m_watch : list (list ptr);
}.

Definition set_heap h s :=
  mk_solver h (next_ptr s) (m_limit s) (m_stats s) (m_config s) (m_solved s)
    (m_processed s) (m_to_simplify s) (m_conflict s) (m_too_complex s)
    (m_levelp1 s) (m_level2var s) (m_var2level s) (m_watch s).
Definition set_next_ptr n s :=
  mk_solver (heap s) n (m_limit s) (m_stats s) (m_config s) (m_solved s)
    (m_processed s) (m_to_simplify s) (m_conflict s) (m_too_complex s)
    (m_levelp1 s) (m_level2var s) (m_var2level s) (m_watch s).
Definition set_stats st s :=
  mk_solver (heap s) (next_ptr s) (m_limit s) st (m_config s) (m_solved s)
    (m_processed s) (m_to_simplify s) (m_conflict s) (m_too_complex s)
    (m_levelp1 s) (m_level2var s) (m_var2level s) (m_watch s).
Definition set_solved q s :=
  mk_solver (heap s) (next_ptr s) (m_limit s) (m_stats s) (m_config s) q
    (m_processed s) (m_to_simplify s) (m_conflict s) (m_too_complex s)
    (m_levelp1 s) (m_level2var s) (m_var2level s) (m_watch s).
Definition set_processed q s :=
  mk_solver (heap s) (next_ptr s) (m_limit s) (m_stats s) (m_config s) (m_solved s)
    q (m_to_simplify s) (m_conflict s) (m_too_complex s)
    (m_levelp1 s) (m_level2var s) (m_var2level s) (m_watch s).
Definition set_to_simplify q s :=
  mk_solver (heap s) (next_ptr s) (m_limit s) (m_stats s) (m_config s) (m_solved s)
    (m_processed s) q (m_conflict s) (m_too_complex s)
    (m_levelp1 s) (m_level2var s) (m_var2level s) (m_watch s).
Definition set_conflict_ptr c s :=
  mk_solver (heap s) (next_ptr s) (m_limit s) (m_stats s) (m_config s) (m_solved s)
    (m_processed s) (m_to_simplify s) c (m_too_complex s)
    (m_levelp1 s) (m_level2var s) (m_var2level s) (m_watch s).
Definition set_too_complex b s :=
  mk_solver (heap s) (next_ptr s) (m_limit s) (m_stats s) (m_config s) (m_solved s)
    (m_processed s) (m_to_simplify s) (m_conflict s) b
    (m_levelp1 s) (m_level2var s) (m_var2level s) (m_watch s).
Definition set_levelp1 n s :=
  mk_solver (heap s) (next_ptr s) (m_limit s) (m_stats s) (m_config s) (m_solved s)
    (m_processed s) (m_to_simplify s) (m_conflict s) (m_too_complex s)
    n (m_level2var s) (m_var2level s) (m_watch s).
Definition set_level2var l s :=
  mk_solver (heap s) (next_ptr s) (m_limit s) (m_stats s) (m_config s) (m_solved s)
    (m_processed s) (m_to_simplify s) (m_conflict s) (m_too_complex s)
    (m_levelp1 s) l (m_var2level s) (m_watch s).
Definition set_var2level l s :=
  mk_solver (heap s) (next_ptr s) (m_limit s) (m_stats s) (m_config s) (m_solved s)
    (m_processed s) (m_to_simplify s) (m_conflict s) (m_too_complex s)
    (m_levelp1 s) (m_level2var s) l (m_watch s).
Definition set_watch w s :=
  mk_solver (heap s) (next_ptr s) (m_limit s) (m_stats s) (m_config s) (m_solved s)
    (m_processed s) (m_to_simplify s) (m_conflict s) (m_too_complex s)
    (m_levelp1 s) (m_level2var s) (m_var2level s) w.

(** Dereferencing.  Reading through a pointer to a retired equation is
    undefined in the source; the embedding reads a fixed blank equation
    there, and the queue invariant below rules the case out. *)
Definition blank : equation := mk_equation to_simplify 0 pdd_zero dep_null.
Definition deref (s : solver) (e : ptr) : equation := default blank (heap s !! e).
Definition poly (s : solver) (e : ptr) : pdd := m_poly (deref s e).
Definition upd (e : ptr) (f : equation → equation) (s : solver) : solver :=
  set_heap (alter f e (heap s)) s.

(** alloc(equation, p, dep): a fresh address; addresses are never reused. *)
Definition alloc (p : pdd) (d : dep) (s : solver) : ptr * solver :=
  (next_ptr s,
   set_next_ptr (S (next_ptr s))
     (set_heap (<[next_ptr s := mk_equation to_simplify 0 p d]> (heap s)) s)).

(** Modelled from the spec: [retire(eq)] deallocates (its body is in the
    header, which is not part of the sources at hand). *)
Definition retire (e : ptr) (s : solver) : solver :=
  set_heap (delete e (heap s)) s.

(** ** The solver's computations: state passing with outcomes *)
Definition M (A : Type) : Type := solver → res A * solver.

Definition ret {A} (a : A) : M A := fun s => (Val a, s).
Definition bind {A B} (m : M A) (f : A → M B) : M B := fun s =>
  match m s with
  | (Val a, s') => f a s'
  | (MemOut, s') => (MemOut, s')
  | (Timeout, s') => (Timeout, s')
  end.
Definition get : M solver := fun s => (Val s, s).
Definition modify (f : solver → solver) : M unit := fun s => (Val tt, f s).
Definition timeout {A} : M A := fun s => (Timeout, s).
(** A call to a function of the solver that cannot throw. *)
Definition call {A} (f : solver → A * solver) : M A := fun s =>
  let '(a, s') := f s in (Val a, s').
(** A call into the algebra that may throw. *)
Definition alg {A} (o : option A) : M A := fun s =>
  match o with Some a => (Val a, s) | None => (MemOut, s) end.

End Solver.

#[local] Notation "'let*' x ':=' m 'in' k" := (bind m (fun x => k))
  (at level 10, x name, m at level 100, k at level 200, only parsing).
#[local] Notation "'let*' ' pat ':=' m 'in' k" :=
  (bind m (fun x => match x with pat => k end))
  (at level 10, pat pattern, m at level 100, k at level 200, only parsing).
#[local] Notation "'run' m 'in' k" := (bind m (fun _ => k))
  (at level 10, m at level 100, k at level 200, only parsing).

(** ** The operations of pdd_solver.cpp *)

Section Operations.
Context {PM : PddManager}.

(** The pre-pass simplifier (pdd_simplifier.cpp) is a separate component. *)
Variable simplifier : solver → solver.

(** *** Queues *)

(** [get_queue], by state rather than by equation. *)
Definition queue (st : eq_state) (s : solver) : list ptr :=
  match st with
  | processed => m_processed s
  | to_simplify => m_to_simplify s
  | solved => m_solved s
  end.

Definition set_queue (st : eq_state) (v : list ptr) (s : solver) : solver :=
  match st with
  | processed => set_processed v s
  | to_simplify => set_to_simplify v s
  | solved => set_solved v s
  end.

Definition get_queue (s : solver) (e : ptr) : list ptr :=
  queue (m_state (deref s e)) s.

(** Swap-with-last removal.  The source computes [v.size() - 1] on a
    non-empty vector; it is only called on an equation that is in [v]. *)
Definition pop_equation (e : ptr) (s : solver) : solver :=
  let st := m_state (deref s e) in
  let v := queue st s in
  let idx := m_idx (deref s e) in
  let s1 :=
    if decide (idx ≠ length v - 1) then
      let eq2 := v !!! (length v - 1) in
      set_queue st (<[idx := eq2]> v) (upd eq2 (set_index idx) s)
    else s in
  set_queue st (take (length (queue st s1) - 1) (queue st s1)) s1.

Definition push_equation (st : eq_state) (e : ptr) (s : solver) : solver :=
  let s1 := upd e (set_state st) s in
  let v := queue st s1 in
  let s2 := upd e (set_index (length v)) s1 in
  set_queue st (v ++ [e]) s2.

Definition del_equation (e : ptr) (s : solver) : solver :=
  retire e (pop_equation e s).

(** *** Header helpers *)

(** Modelled from the spec: an equation is trivial when its polynomial is
    zero (the inline [is_trivial] of the header). *)
Definition is_trivial (s : solver) (e : ptr) : bool := is_zero (poly s e).

(** Modelled from the spec: a conflict is a constant non-zero polynomial
    (the inline [is_conflict] of the header). *)
Definition is_conflict (s : solver) (e : ptr) : bool :=
  is_val (poly s e) && negb (is_trivial s e).

(** Modelled from the spec: the conflict is recorded and the equation goes
    to the solved queue (the inline [set_conflict] of the header; the
    source's own comment at its call site says "pushed to solved"). *)
Definition set_conflict (e : ptr) (s : solver) : solver :=
  push_equation solved e (set_conflict_ptr (Some e) s).

(** Modelled from the spec: [check_conflict] tests [is_conflict] and, when
    it holds, calls [set_conflict]. *)
Definition check_conflict (e : ptr) (s : solver) : bool * solver :=
  if is_conflict s e then (true, set_conflict e s) else (false, s).

(** Modelled from the spec: [is_simpler] is the algebra's order on the two
    polynomials. *)
Definition is_simpler (s : solver) (e1 e2 : ptr) : bool :=
  pdd_lt (poly s e1) (poly s e2).

Definition canceled (s : solver) : bool := m_limit s.

(** The vector sizes are element counts of vectors held in memory; their
    sum is taken without wrap-around. *)
Definition done (s : solver) : bool :=
  (m_eqs_threshold (m_config s) <=?
     Z.of_nat (length (m_to_simplify s)) + Z.of_nat (length (m_processed s)))%Z
  || canceled s
  || (m_max_steps (m_config s) <? m_compute_steps (m_stats s))%Z
  || bool_decide (m_conflict s ≠ None).

Definition update_stats_max_degree_and_size (e : ptr) (s : solver) : solver :=
  let st := m_stats s in
  set_stats
    (mk_stats (m_simplified st)
       (m_max_expr_size st `max` tree_size (poly s e))
       (m_max_expr_degree st `max` degree (poly s e))
       (m_superposed st) (m_compute_steps st)) s.

Definition inc_simplified (s : solver) : solver :=
  let st := m_stats s in
  set_stats (mk_stats (wrap32 (m_simplified st + 1)) (m_max_expr_size st)
               (m_max_expr_degree st) (m_superposed st) (m_compute_steps st)) s.
Definition inc_superposed (s : solver) : solver :=
  let st := m_stats s in
  set_stats (mk_stats (m_simplified st) (m_max_expr_size st)
               (m_max_expr_degree st) (wrap32 (m_superposed st + 1))
               (m_compute_steps st)) s.
Definition inc_compute_steps (s : solver) : solver :=
  let st := m_stats s in
  set_stats (mk_stats (m_simplified st) (m_max_expr_size st)
               (m_max_expr_degree st) (m_superposed st)
               (wrap32 (m_compute_steps st + 1))) s.

(** *** Watch lists *)

Definition watch_of (s : solver) (v : nat) : list ptr := m_watch s !!! v.
Definition set_watch_of (v : nat) (w : list ptr) (s : solver) : solver :=
  set_watch (<[v := w]> (m_watch s)) s.

Definition add_to_watch (e : ptr) (s : solver) : solver :=
  let p := poly s e in
  if is_val p then s
  else set_watch_of (var p) (watch_of s (var p) ++ [e]) s.

(** vector::erase(elem): the first occurrence is removed, order kept. *)
Fixpoint erase (e : ptr) (l : list ptr) : list ptr :=
  match l with
  | [] => []
  | x :: l' => if decide (x = e) then l' else x :: erase e l'
  end.

(** m_levelp1 = std::max(m_var2level[v]+1, m_levelp1) *)
Definition raise_level (v : nat) (s : solver) : solver :=
  set_levelp1 (((m_var2level s !!! v) + 1) `max` m_levelp1 s) s.

(** *** add *)

Definition add (p : pdd) (d : dep) (s : solver) : solver :=
  if is_zero p then s
  else
    let '(e, s1) := alloc p d s in
    let '(c, s2) := check_conflict e s1 in
    if c then s2
    else
      let s3 := push_equation to_simplify e s2 in
      let s4 :=
        if bool_decide (m_watch s3 ≠ [])
        then add_to_watch e (raise_level (var p) s3)
        else s3 in
      update_stats_max_degree_and_size e s4.

(** *** The reducer *)

(** [changed_leading_term] is passed by reference: [clt] is its value on
    entry and the second component of the result its value on exit. *)
Definition try_simplify_using (dst src : ptr) (clt : bool) : M (bool * bool) :=
  if decide (src = dst) then ret (false, clt)
  else
    run modify inc_simplified in
    let* s := get in
    let t := poly s src in
    let* r := alg (reduce (poly s dst) t) in
    if decide (r = poly s dst) then ret (false, clt)
    else if is_too_complex r then
      run modify (set_too_complex true) in ret (false, clt)
    else
      let clt' :=
        bool_decide (m_state (deref s dst) = processed)
        && different_leading_term r (poly s dst) in
      run modify (upd dst (set_poly r)) in
      run modify (upd dst (set_dep (mk_join (m_dep (deref s dst))
                                            (m_dep (deref s src))))) in
      run modify (update_stats_max_degree_and_size dst) in
      ret (true, clt').

(** The three-argument [simplify_using], which does not consult the
    complexity heuristic. *)
Definition simplify_using_force (dst src : ptr) (clt : bool) : M bool :=
  if decide (src = dst) then ret clt
  else
    run modify inc_simplified in
    let* s := get in
    let t := poly s src in
    let* r := alg (reduce (poly s dst) t) in
    let clt' :=
      bool_decide (m_state (deref s dst) = processed)
      && different_leading_term r (poly s dst) in
    if decide (r = poly s dst) then ret clt'
    else
      run modify (upd dst (set_poly r)) in
      run modify (upd dst (set_dep (mk_join (m_dep (deref s dst))
                                            (m_dep (deref s src))))) in
      run modify (update_stats_max_degree_and_size dst) in
      ret clt'.

(** *** simplify_using(eq, eqs): an equation against a queue *)

(** One pass of the for loop; [simplified] is the flag of the enclosing
    do-while and the result its value when the pass ends or breaks. *)
Fixpoint simplify_using_pass (e : ptr) (eqs : list ptr) (simplified : bool)
  : M bool :=
  match eqs with
  | [] => ret simplified
  | p :: eqs' =>
      let* '(b, _) := try_simplify_using e p false in
      let simplified' := if b then true else simplified in
      let* s := get in
      if canceled s || is_val (poly s e) then ret simplified'
      else simplify_using_pass e eqs' simplified'
  end.

Fixpoint simplify_using_loop (fuel : nat) (e : ptr) (eqs : list ptr) : M unit :=
  match fuel with
  | 0 => timeout
  | S fuel' =>
      let* simplified := simplify_using_pass e eqs false in
      let* s := get in
      if simplified && negb (is_val (poly s e))
      then simplify_using_loop fuel' e eqs
      else ret tt
  end.

(** Every pass that repeats has strictly lowered the rank of [e]. *)
Definition simplify_using (e : ptr) (eqs : list ptr) : M unit :=
  let* s := get in
  simplify_using_loop (S (pdd_rank (poly s e))) e eqs.

(** *** simplify_using(set, eq): the processed queue against an equation *)

(** scoped_update::nextj at positions [i], [j] *)
Definition nextj (i j : nat) (s : solver) : solver :=
  let s1 := set_processed (<[j := m_processed s !!! i]> (m_processed s)) s in
  upd (m_processed s1 !!! i) (set_index j) s1.

(** ~scoped_update with [n] entries left from position [i] *)
Fixpoint scoped_update_dtor (n i j : nat) (s : solver) : solver :=
  match n with
  | 0 => set_processed (take j (m_processed s)) s
  | S n' => scoped_update_dtor n' (S i) (S j) (nextj i j s)
  end.

(** The body of the loop for one target; the result tells whether the
    final branch ([sr.nextj()]) is to be taken. *)
Definition simplify_target (target e : ptr) : M bool :=
  let* s := get in
  let* '(simplified, changed_leading_term) :=
    (if done s then ret (false, false)
     else try_simplify_using target e false) in
  let* s := get in
  if simplified && is_trivial s target then
    run modify (retire target) in ret false
  else
    let* c := (if simplified then call (check_conflict target)
               else ret false) in
    if c then ret false
    else if simplified && changed_leading_term then
      run modify (push_equation to_simplify target) in
      let* s := get in
      run (if bool_decide (m_watch s ≠ [])
           then modify (fun s => add_to_watch target
                                   (raise_level (var (poly s target)) s))
           else ret tt) in
      ret false
    else ret true.

Fixpoint simplify_set_loop (n : nat) (e : ptr) (i j : nat) : M unit := fun s =>
  match n with
  | 0 => (Val tt, scoped_update_dtor 0 i j s)
  | S n' =>
      match simplify_target (m_processed s !!! i) e s with
      | (Val true, s') => simplify_set_loop n' e (S i) (S j) (nextj i j s')
      | (Val false, s') => simplify_set_loop n' e (S i) j s'
      | (MemOut, s') => (MemOut, scoped_update_dtor (S n') i j s')
      | (Timeout, s') => (Timeout, s')
      end
  end.

Definition simplify_using_set (e : ptr) : M unit :=
  let* s := get in
  simplify_set_loop (length (m_processed s)) e 0 0.

(** *** superpose *)

Definition superpose2 (e1 e2 : ptr) : M unit :=
  let* s := get in
  let* o := alg (try_spoly (poly s e1) (poly s e2)) in
  match o with
  | Some r =>
      if is_zero r then ret tt
      else if is_too_complex r then modify (set_too_complex true)
      else
        run modify inc_superposed in
        modify (add r (mk_join (m_dep (deref s e1)) (m_dep (deref s e2))))
  | None => ret tt
  end.

Fixpoint superpose_loop (e : ptr) (targets : list ptr) : M unit :=
  match targets with
  | [] => ret tt
  | t :: targets' => run superpose2 e t in superpose_loop e targets'
  end.

Definition superpose (e : ptr) : M unit :=
  let* s := get in superpose_loop e (m_processed s).

(** *** simplify_watch *)

Fixpoint simplify_watch_loop (n : nat) (e : ptr) (v i j : nat) : M unit :=
  match n with
  | 0 => modify (fun s => set_watch_of v (take j (watch_of s v)) s)
  | S n' =>
      let* s := get in
      let target := watch_of s v !!! i in
      run (if done s then ret tt
           else run try_simplify_using target e false in ret tt) in
      let* s := get in
      if is_trivial s target then
        run modify (pop_equation target) in
        run modify (retire target) in
        simplify_watch_loop n' e v (S i) j
      else if is_conflict s target then
        run modify (pop_equation target) in
        run modify (set_conflict target) in
        simplify_watch_loop n' e v (S i) j
      else if decide (var (poly s target) ≠ v) then
        run modify (fun s =>
              set_watch_of (var (poly s target))
                (watch_of s (var (poly s target)) ++ [target]) s) in
        simplify_watch_loop n' e v (S i) j
      else
        run modify (fun s => set_watch_of v (<[j := target]> (watch_of s v)) s) in
        simplify_watch_loop n' e v (S i) (S j)
  end.

Definition simplify_watch (e : ptr) : M unit :=
  let* s := get in
  let v := var (poly s e) in
  simplify_watch_loop (length (watch_of s v)) e v 0 0.

(** *** pick_next *)

(** The scan of one watch list: [best] is the local [eq], [pick_step] the
    body of the for loop. *)
Definition pick_step (s : solver) (v : nat) (best : option ptr) (curr : ptr)
  : option ptr :=
  if bool_decide (m_state (deref s curr) = to_simplify)
     && bool_decide (var (poly s curr) = v)
  then match best with
       | None => Some curr
       | Some b => if is_simpler s curr b then Some curr else best
       end
  else best.

Definition pick_in_watch (s : solver) (v : nat) (watch : list ptr) : option ptr :=
  foldl (pick_step s v) None watch.

(** The while loop, by recursion on [m_levelp1]. *)
Fixpoint pick_next_loop (levelp1 : nat) (s : solver) : option ptr * solver :=
  match levelp1 with
  | 0 => (None, s)
  | S l =>
      let v := m_level2var s !!! l in
      match pick_in_watch s v (watch_of s v) with
      | Some e =>
          let s1 := pop_equation e s in
          let w := var (poly s1 e) in
          (Some e, set_watch_of w (erase e (watch_of s1 w)) s1)
      | None => pick_next_loop l (set_levelp1 l s)
      end
  end.

Definition pick_next (s : solver) : option ptr * solver :=
  pick_next_loop (m_levelp1 s) s.

(** *** step *)

(** scoped_process::done(): the result is the new value of the guard's
    pointer. *)
Definition scoped_process_done (e : ptr) (s : solver) : option ptr * solver :=
  if is_val (hi (poly s e)) then (None, push_equation solved e s)
  else (None, push_equation processed e s).

(** ~scoped_process *)
Definition scoped_process_dtor (sd_e : option ptr) (s : solver) : solver :=
  match sd_e with
  | Some e => push_equation processed e s
  | None => s
  end.

(** The body of [step] below the guard's declaration.  The result pairs
    the return value with the guard's pointer at scope exit. *)
Definition step_body (e : ptr) : M (bool * option ptr) :=
  let* s := get in
  run simplify_using e (m_processed s) in
  let* s := get in
  if is_trivial s e then run modify (retire e) in ret (true, None)
  else
    let* c := call (check_conflict e) in
    if c then ret (false, None)
    else
      run modify (set_too_complex false) in
      run simplify_using_set e in
      let* s := get in
      if done s then ret (false, Some e)
      else
        run superpose e in
        run simplify_watch e in
        let* s := get in
        if done s then ret (false, Some e)
        else
          let* sd_e := (if negb (m_too_complex s)
                        then call (scoped_process_done e)
                        else ret (Some e)) in
          ret (true, sd_e).

Definition step : M bool := fun s =>
  let s := inc_compute_steps s in
  match pick_next s with
  | (None, s1) => (Val false, s1)
  | (Some e, s1) =>
      match step_body e s1 with
      | (Val (b, sd_e), s2) => (Val b, scoped_process_dtor sd_e s2)
      | (MemOut, s2) => (MemOut, scoped_process_dtor (Some e) s2)
      | (Timeout, s2) => (Timeout, s2)
      end
  end.

(** *** init_saturate and saturate *)

(** The body of the loop that copies the variable order. *)
Definition level_step (s : solver) (i : nat) : solver :=
  set_var2level (<[get_level2var !!! i := i]> (m_var2level s))
    (set_level2var (<[i := get_level2var !!! i]> (m_level2var s)) s).

Definition init_saturate (s : solver) : solver :=
  let l2v := get_level2var in
  let n := length l2v in
  let s1 := set_var2level (resize n 0 (m_var2level s))
              (set_level2var (resize n 0 (m_level2var s)) s) in
  let s2 := foldl level_step s1 (seq 0 n) in
  let s3 := set_watch (replicate (length (m_level2var s2)) []) s2 in
  let s4 := set_levelp1 (length (m_level2var s3)) s3 in
  foldl (fun s e => add_to_watch e s) s4 (m_to_simplify s4).

(** while (!done() && step()) *)
Fixpoint saturate_loop (fuel : nat) : M unit :=
  match fuel with
  | 0 => timeout
  | S fuel' =>
      let* s := get in
      if done s then ret tt
      else
        let* b := step in
        if b then saturate_loop fuel' else ret tt
  end.

(** The try block of [saturate], entered after the pre-pass and
    [init_saturate]. *)
Definition saturate_try (fuel : nat) (s : solver) : res unit * solver :=
  saturate_loop fuel (init_saturate (simplifier s)).

Definition saturate (fuel : nat) (s : solver) : res unit * solver :=
  match saturate_try fuel s with
  | (MemOut, s') => (Val tt, set_watch [] s')
  | r => r
  end.

(** *** collect_statistics *)

Definition collect_statistics (s : solver) : list (string * Z) :=
  [ ("dd.solver.steps", m_compute_steps (m_stats s));
    ("dd.solver.simplified", m_simplified (m_stats s));
    ("dd.solver.superposed", m_superposed (m_stats s));
    ("dd.solver.processed", Z.of_nat (length (m_processed s)));
    ("dd.solver.solved", Z.of_nat (length (m_solved s)));
    ("dd.solver.to_simplify", Z.of_nat (length (m_to_simplify s)));
    ("dd.solver.degree", Z.of_nat (m_max_expr_degree (m_stats s)));
    ("dd.solver.size", Z.of_nat (m_max_expr_size (m_stats s))) ]%string.

End Operations.

(** ** A concrete algebra: linear polynomials over GF(2)

    A polynomial in [nvars] variables is a bit mask: bit 0 is the constant
    term and bit [v+1] the coefficient of variable [v]; the level of a
    variable is its index.  Reduction by [q] adds [q] when the leading
    variable of [q] occurs in [p].  The manager has a node budget: an
    operation whose operands together exceed it raises mem_out. *)
Module Lin2.

Fixpoint pos_terms (p : positive) : nat :=
  match p with
  | xH => 1
  | xO p' => pos_terms p'
  | xI p' => S (pos_terms p')
  end.

Definition terms (p : N) : nat :=
  match p with N0 => 0 | Npos q => pos_terms q end.

Definition lin_is_val (p : N) : bool := (p <? 2)%N.
Definition lin_var (p : N) : nat := N.to_nat (N.log2 p) - 1.

Definition lin_reduce (budget : nat) (p q : N) : option N :=
  if budget <? terms p + terms q then None
  else if lin_is_val q then Some p
  else if N.testbit p (N.log2 q) then Some (N.lxor p q)
  else Some p.

Definition lin_spoly (budget : nat) (p q : N) : option (option N) :=
  if budget <? terms p + terms q then None
  else if lin_is_val p || lin_is_val q then Some None
  else if (N.log2 p =? N.log2 q)%N then Some (Some (N.lxor p q))
  else Some None.

Definition manager (nvars budget limit : nat) : PddManager := {|
  pdd := N;
  pdd_zero := 0%N;
  is_val := lin_is_val;
  is_zero := fun p => (p =? 0)%N;
  var := lin_var;
  hi := fun p => if lin_is_val p then 0%N else 1%N;
  tree_size := terms;
  degree := fun p => if lin_is_val p then 0 else 1;
  reduce := lin_reduce budget;
  try_spoly := lin_spoly budget;
  different_leading_term := fun r p => negb (N.log2 r =? N.log2 p)%N;
  pdd_lt := N.ltb;
  get_level2var := seq 0 nvars;
  is_too_complex := fun p => limit <? terms p;
  pdd_rank := N.to_nat;
  pdd_wf := fun p => (p < 2 ^ N.of_nat (S nvars))%N;
  dep := list nat;
  dep_null := [];
  mk_join := app;
|}.

(** A solver on which nothing has been added yet. *)
Definition fresh (nvars budget limit : nat) (threshold max_steps : Z)
  : @solver (manager nvars budget limit) :=
  mk_solver ∅ 0 false (mk_stats 0 0 0 0 0) (mk_config threshold max_steps)
    [] [] [] None false 0 [] [] [].

(** What a caller can read of an engine: the polynomials of a queue. *)
Definition polys {PM : PddManager} (s : solver) (q : list nat) : list pdd :=
  map (poly s) q.

End Lin2.

(** ** Invariants of the engine *)

Section Invariants.
Context {PM : PddManager}.
Implicit Types (h : gmap nat equation) (q sv ts : list ptr) (e t : ptr).
Implicit Types (x : equation) (pm tm : ptr → Prop) (wl : nat → list ptr).
Implicit Types (s : solver).

Definition hpoly h e : pdd := m_poly (default blank (h !! e)).

(** A queue agrees with the [state] and [idx] fields of its members. *)
Definition Qok h (st : eq_state) q : Prop :=
  ∀ i e, q !! i = Some e →
    ∃ x, h !! e = Some x ∧ m_state x = st ∧ m_idx x = i.

(** The processed vector while scoped_update compacts it: positions below
    [j] hold the survivors, positions from [i] on are still to be
    visited. *)
Definition Qpart h (P : list ptr) (i j : nat) : Prop :=
  j ≤ i ∧ i ≤ length P ∧
  ∀ k e, k < j ∨ i ≤ k → P !! k = Some e →
    ∃ x, h !! e = Some x ∧ m_state x = processed ∧ m_idx x = k.

Definition NCok h (mem : ptr → Prop) : Prop :=
  ∀ e, mem e → is_val (hpoly h e) = false.

Definition WFok h : Prop := ∀ e x, h !! e = Some x → pdd_wf (m_poly x).

(** What the solved queue holds: solved forms, and conflicts. *)
Definition solved_shape (p : pdd) : Prop :=
  (is_val p = false ∧ is_val (hi p) = true)
  ∨ (is_val p = true ∧ is_zero p = false).

Definition SVok h sv : Prop := ∀ e, e ∈ sv → solved_shape (hpoly h e).

Definition FRok h (nx : nat) : Prop := ∀ e, is_Some (h !! e) → e < nx.

Definition CFok h sv (cf : option ptr) : Prop :=
  ∀ c, cf = Some c →
    c ∈ sv ∧ is_val (hpoly h c) = true ∧ is_zero (hpoly h c) = false.

(** Watch lists [wl] against the to-simplify members [tm]. *)
Definition Wok h tm wl : Prop :=
  (∀ v e, e ∈ wl v → tm e ∧ var (hpoly h e) = v)
  ∧ (∀ v, NoDup (wl v))
  ∧ (∀ e, tm e → e ∈ wl (var (hpoly h e))).

(** Every to-simplify member sits at a level below [m_levelp1]. *)
Definition Lok h tm (lp1 : nat) : Prop :=
  ∀ e, tm e →
    ∃ i, i < lp1 ∧ get_level2var !! i = Some (var (hpoly h e)).

Definition LVok s : Prop :=
  m_level2var s = get_level2var
  ∧ (∀ i v, get_level2var !! i = Some v → m_var2level s !! v = Some i)
  ∧ length (m_watch s) = length get_level2var.

(** The invariant in the generality the loops need: [pm] and [tm] are the
    equations that count as processed and as to-simplify at this point of
    a traversal, [wl] the watch lists as they will stand once an ongoing
    compaction is finished. *)
Record G s pm tm wl : Prop := mkG {
  g_solved : Qok (heap s) solved (m_solved s);
  g_to_simplify : Qok (heap s) to_simplify (m_to_simplify s);
  g_members : ∀ e, tm e → e ∈ m_to_simplify s;
  g_nonconst_ts : NCok (heap s) tm;
  g_nonconst_pr : NCok (heap s) pm;
  g_wf : WFok (heap s);
  g_shape : SVok (heap s) (m_solved s);
  g_fresh : FRok (heap s) (next_ptr s);
  g_conflict : CFok (heap s) (m_solved s) (m_conflict s);
  g_levels : LVok s;
  g_watch : Wok (heap s) tm wl;
  g_level : Lok (heap s) tm (m_levelp1 s);
}.

(** The queue invariant: what the debug-mode checker tests of the three
    queues (states, indices, non-constant polynomials), with the shape of
    the solved equations, and the conflict slot. *)
Record qinv s : Prop := mk_qinv {
  qi_solved : Qok (heap s) solved (m_solved s);
  qi_to_simplify : Qok (heap s) to_simplify (m_to_simplify s);
  qi_processed : Qok (heap s) processed (m_processed s);
  qi_nonconst_ts : NCok (heap s) (.∈ m_to_simplify s);
  qi_nonconst_pr : NCok (heap s) (.∈ m_processed s);
  qi_wf : WFok (heap s);
  qi_shape : SVok (heap s) (m_solved s);
  qi_fresh : FRok (heap s) (next_ptr s);
  qi_conflict : CFok (heap s) (m_solved s) (m_conflict s);
}.

(** The full invariant between steps. *)
Definition inv s : Prop :=
  G s (.∈ m_processed s) (.∈ m_to_simplify s) (watch_of s)
  ∧ Qok (heap s) processed (m_processed s).

(** The equation a step has picked: allocated, still labelled
    to_simplify, and in no queue. *)
Definition Det s e x : Prop :=
  heap s !! e = Some x ∧ m_state x = to_simplify ∧ e ∉ m_to_simplify s.

(** What the reducer leaves alone: everything but the store, the
    counters other than [steps], and the too_complex flag. *)
Definition struct_eq s s' : Prop :=
  next_ptr s' = next_ptr s ∧ m_limit s' = m_limit s
  ∧ m_config s' = m_config s ∧ m_solved s' = m_solved s
  ∧ m_processed s' = m_processed s ∧ m_to_simplify s' = m_to_simplify s
  ∧ m_conflict s' = m_conflict s ∧ m_levelp1 s' = m_levelp1 s
  ∧ m_level2var s' = m_level2var s ∧ m_var2level s' = m_var2level s
  ∧ m_watch s' = m_watch s
  ∧ m_compute_steps (m_stats s') = m_compute_steps (m_stats s).

(** ... and, in the store, every equation but [e], of which state and
    index stay. *)
Definition upd_only e s s' : Prop :=
  struct_eq s s'
  ∧ (∀ a, a ≠ e → heap s' !! a = heap s !! a)
  ∧ (∀ x, heap s !! e = Some x →
       ∃ x', heap s' !! e = Some x'
             ∧ m_state x' = m_state x ∧ m_idx x' = m_idx x).

(** What superposition does to a state: equations are added, none is
    touched. *)
Definition extends s s' : Prop :=
  (∀ a x, heap s !! a = Some x → heap s' !! a = Some x)
  ∧ m_processed s' = m_processed s
  ∧ (∀ a, a ∈ m_to_simplify s' → a ∈ m_to_simplify s ∨ heap s !! a = None)
  ∧ m_limit s' = m_limit s ∧ m_config s' = m_config s
  ∧ m_compute_steps (m_stats s') = m_compute_steps (m_stats s).

(** The invariant inside a step, with [e] picked. *)
Definition mid_ok s e x : Prop :=
  G s (.∈ m_processed s) (.∈ m_to_simplify s) (watch_of s)
  ∧ Qok (heap s) processed (m_processed s)
  ∧ Det s e x.

(** A postcondition that holds on return and on mem_out alike; the fuel
    of the loop models does not run out. *)
Definition post_any {A} (r : res A * solver) (Q : solver → Prop) : Prop :=
  match r with
  | (Timeout, _) => False
  | (_, s') => Q s'
  end.

(** The processed equations while scoped_update is at positions [i],
    [j], and the invariant of its loop. *)
Definition set_members (P : list ptr) (i j : nat) : ptr → Prop :=
  λ a, a ∈ take j P ∨ a ∈ drop i P.

Definition set_inv s e x (i j : nat) : Prop :=
  G s (set_members (m_processed s) i j) (.∈ m_to_simplify s) (watch_of s)
  ∧ Qpart (heap s) (m_processed s) i j
  ∧ Det s e x.

(** What simplify_using(set, eq) does with a target once the reducer has
    returned [simplified] and [clt]: the result tells whether the target
    stays. *)
Definition after_reduce (target : ptr) (simplified clt : bool) (s1 : solver)
  : bool * solver :=
  if simplified && is_trivial s1 target then (false, retire target s1)
  else if simplified && is_conflict s1 target
  then (false, set_conflict target s1)
  else if simplified && clt then
    (false,
     let s3 := push_equation to_simplify target s1 in
     if bool_decide (m_watch s3 ≠ [])
     then add_to_watch target (raise_level (var (poly s3 target)) s3)
     else s3)
  else (true, s1).

(** The watch lists while simplify_watch compacts the list of [v]:
    positions below [j] hold the entries kept, positions from [i] on are
    still to be visited. *)
Definition watch_view s (v i j : nat) : nat → list ptr :=
  λ v', if decide (v' = v)
        then take j (watch_of s v) ++ drop i (watch_of s v)
        else watch_of s v'.

Definition watch_inv s e x (v i j : nat) : Prop :=
  G s (.∈ m_processed s) (.∈ m_to_simplify s) (watch_view s v i j)
  ∧ Qok (heap s) processed (m_processed s)
  ∧ Det s e x
  ∧ j ≤ i ∧ i ≤ length (watch_of s v) ∧ v < length (m_watch s).

(** What holds when mem_out leaves simplify_watch: the queues are in
    order, the watch lists need not be. *)
Definition exc_ok s e x : Prop :=
  (∃ wl, G s (.∈ m_processed s) (.∈ m_to_simplify s) wl)
  ∧ Qok (heap s) processed (m_processed s)
  ∧ Det s e x.

(** What simplify_watch does with a target once the reducer has
    returned; the result carries the new [j]. *)
Definition after_watch (target : ptr) (v j : nat) (s1 : solver) : nat * solver :=
  if is_trivial s1 target then (j, retire target (pop_equation target s1))
  else if is_conflict s1 target
  then (j, set_conflict target (pop_equation target s1))
  else if decide (var (poly s1 target) ≠ v) then
    (j, set_watch_of (var (poly s1 target))
          (watch_of s1 (var (poly s1 target)) ++ [target]) s1)
  else (S j, set_watch_of v (<[j := target]> (watch_of s1 v)) s1).

(** What no operation below [step] changes: the configuration, the
    cancel flag and the step counter. *)
Definition frame s s' : Prop :=
  m_config s' = m_config s ∧ m_limit s' = m_limit s
  ∧ m_compute_steps (m_stats s') = m_compute_steps (m_stats s).

Definition mframe {A} (m : M A) : Prop := ∀ s, frame s (m s).2.

(** The ways the body of a step can end, for the picked equation [e]
    and the state [s1] it was picked in. *)
Definition body_post e (s1 : solver) (r : res (bool * option ptr) * solver)
  : Prop :=
  match r with
  | (Val (b, sd), s2) =>
      (b = true ∧ sd = None ∧ inv s2 ∧ heap s2 !! e = None
       ∧ ∃ sm, simplify_using e (m_processed s1) s1 = (Val tt, sm)
               ∧ is_trivial sm e = true)
      ∨ (b = false ∧ sd = None ∧ inv s2 ∧ m_conflict s2 = Some e
         ∧ e ∈ m_solved s2 ∧ is_conflict s2 e = true)
      ∨ (b = false ∧ sd = Some e ∧ done s2 = true
         ∧ ∃ x', mid_ok s2 e x' ∧ is_val (m_poly x') = false)
      ∨ (b = true ∧ sd = None ∧ m_too_complex s2 = false ∧ inv s2
         ∧ is_val (poly s2 e) = false
         ∧ if is_val (hi (poly s2 e)) then e ∈ m_solved s2
           else e ∈ m_processed s2)
      ∨ (b = true ∧ sd = Some e ∧ m_too_complex s2 = true
         ∧ ∃ x', mid_ok s2 e x' ∧ is_val (m_poly x') = false)
  | (MemOut, s2) => ∃ x', exc_ok s2 e x' ∧ is_val (m_poly x') = false
  | (Timeout, _) => False
  end.

(** An entry of the watch list of [v] that pick_next may return. *)
Definition eligible s (v : nat) e : Prop :=
  m_state (deref s e) = to_simplify ∧ var (poly s e) = v.

(** *** The primitive operations on the store and one queue *)

(** pop_equation *)
Definition pop_heap h q (idx : nat) : gmap nat equation :=
  if decide (idx ≠ length q - 1)
  then alter (set_index idx) (q !!! (length q - 1)) h else h.

Definition pop_list q (idx : nat) : list ptr :=
  take (length q - 1)
    (if decide (idx ≠ length q - 1) then <[idx := q !!! (length q - 1)]> q else q).

(** push_equation *)
Definition push_heap h (st : eq_state) (n : nat) t : gmap nat equation :=
  alter (set_index n) t (alter (set_state st) t h).

(** The equations [eqs] that [e] is reduced by: allocated, well formed,
    and other than [e]. *)
Definition sources_ok s e (eqs : list ptr) : Prop :=
  (e ∉ eqs) ∧ ∀ p, p ∈ eqs → ∃ xp, heap s !! p = Some xp ∧ pdd_wf (m_poly xp).

(** *** The invariants as the specification words them *)

(** Every watch entry is a to-simplify equation led by the watched
    variable; every to-simplify equation is watched exactly once, by its
    leading variable; no processed equation is watched. *)
Definition watch_entries_ok s : Prop :=
  ∀ v e, e ∈ watch_of s v →
    m_state (deref s e) = to_simplify
    ∧ var (poly s e) = v
    ∧ e ∈ m_to_simplify s.

Definition watched_once s : Prop :=
  ∀ e, e ∈ m_to_simplify s →
    count_occ Nat.eq_dec (watch_of s (var (poly s e))) e = 1.

Definition processed_unwatched s : Prop :=
  ∀ e v, e ∈ m_processed s → e ∉ watch_of s v.

Definition nonconstant_queues s : Prop :=
  ∀ e, e ∈ m_to_simplify s ∨ e ∈ m_processed s → is_val (poly s e) = false.

Definition solved_hi_constant s : Prop :=
  ∀ e, e ∈ m_solved s → is_val (hi (poly s e)) = true.

(** An equation sits in the queue [st], once, and in no other queue. *)
Definition placed s (st : eq_state) e : Prop :=
  count_occ Nat.eq_dec (queue st s) e = 1
  ∧ m_state (deref s e) = st
  ∧ ∀ st', st' ≠ st → e ∉ queue st' s.

Definition in_no_queue s e : Prop := ∀ st, e ∉ queue st s.

Variable simplifier : solver → solver.

(** The states between the steps of a saturation started on [s0]. *)
Inductive between_steps (s0 : solver) : solver → Prop :=
  | bs_init : between_steps s0 (init_saturate s0)
  | bs_step s b s' :
      between_steps s0 s → step s = (Val b, s') → between_steps s0 s'.

(** What is assumed of the pre-pass simplifier. *)
Record simplifier_ok : Prop := {
  simp_qinv : ∀ s, qinv s → qinv (simplifier s);
  simp_config : ∀ s, m_config (simplifier s) = m_config s;
}.

(** The pre-pass has nothing to do on an engine that is done or has
    nothing left to simplify. *)
Definition simplifier_idle : Prop :=
  ∀ s, done s = true ∨ m_to_simplify s = [] → simplifier s = s.

(** Queues and statistics as a caller reads them, steps apart. *)
Definition same_queues_and_stats s s' : Prop :=
  heap s' = heap s
  ∧ m_solved s' = m_solved s
  ∧ m_processed s' = m_processed s
  ∧ m_to_simplify s' = m_to_simplify s
  ∧ m_conflict s' = m_conflict s
  ∧ m_simplified (m_stats s') = m_simplified (m_stats s)
  ∧ m_superposed (m_stats s') = m_superposed (m_stats s)
  ∧ m_max_expr_size (m_stats s') = m_max_expr_size (m_stats s)
  ∧ m_max_expr_degree (m_stats s') = m_max_expr_degree (m_stats s).

End Invariants.

(** ** Inspection, reset and the debug-mode checker *)

Section Inspection.
Context {PM : PddManager}.
Implicit Types (s : solver) (e : ptr) (q : list ptr).

(** equations(): the member vector m_all_eqs is emptied and refilled on
    every call and read by nothing else in the file; the embedding returns
    what it holds on return. *)
Definition equations s : list ptr :=
  m_solved s ++ m_to_simplify s ++ m_processed s.

(** for (equation* e : v) dealloc(e); *)
Definition dealloc_all q (s : solver) : solver :=
  foldl (fun s e => retire e s) s q.

(** Modelled from the spec: stats::reset() (its body is in the header)
    resets the statistics, every counter to zero. *)
Definition stats_reset : stats := mk_stats 0 0 0 0 0.

(** reset(): [m_levelp1], [m_too_complex] and the configuration are not
    among the members it clears. *)
Definition reset s : solver :=
  let s1 := dealloc_all (m_solved s) s in
  let s2 := dealloc_all (m_to_simplify s) s1 in
  let s3 := dealloc_all (m_processed s) s2 in
  set_conflict_ptr None
    (set_var2level []
       (set_level2var []
          (set_watch []
             (set_stats stats_reset
                (set_to_simplify [] (set_processed [] (set_solved [] s3))))))).

(** invariant(): the checker run in debug builds.  Each VERIFY and SASSERT
    is a conjunct, the result is whether the function runs to its end;
    [i] is the running index of a loop.  [free_vars] belongs to the
    algebra. *)
Variable free_vars : pdd → list nat.

Fixpoint check_processed s (i : nat) q : bool :=
  match q with
  | [] => true
  | e :: q' =>
      bool_decide (m_state (deref s e) = processed)
      && bool_decide (m_idx (deref s e) = i)
      && negb (is_val (poly s e))
      && check_processed s (S i) q'
  end.

(** The loop over the solved queue collects the head variables. *)
Fixpoint check_solved s (i : nat) (head_vars : gset nat) q
  : bool * gset nat :=
  match q with
  | [] => (true, head_vars)
  | e :: q' =>
      let ok := bool_decide (m_state (deref s e) = solved)
                && bool_decide (m_idx (deref s e) = i) in
      let p := poly s e in
      if negb (is_val p) && is_val (hi p) then
        let v := var p in
        let '(ok', hv) := check_solved s (S i) ({[v]} ∪ head_vars) q' in
        (ok && bool_decide (v ∉ head_vars) && ok', hv)
      else
        let '(ok', hv) := check_solved s (S i) head_vars q' in
        (ok && ok', hv)
  end.

Definition no_head_var s (head_vars : gset nat) q : bool :=
  forallb (fun e =>
             forallb (fun v => bool_decide (v ∉ head_vars))
               (free_vars (poly s e))) q.

Definition check_head_vars s (head_vars : gset nat) : bool :=
  if bool_decide (head_vars = ∅) then true
  else no_head_var s head_vars (m_to_simplify s)
       && no_head_var s head_vars (m_processed s).

(** [m_watch[p.var()]] is checked, by the vector's own assertion, to be
    in range; [watch_of] is empty out of range, and the test fails. *)
Fixpoint check_to_simplify s (i : nat) q : bool :=
  match q with
  | [] => true
  | e :: q' =>
      bool_decide (m_idx (deref s e) = i)
      && bool_decide (m_state (deref s e) = to_simplify)
      && negb (is_val (poly s e))
      && (bool_decide (m_watch s = [])
          || bool_decide (e ∈ watch_of s (var (poly s e))))
      && check_to_simplify s (S i) q'
  end.

Fixpoint check_watch s (i : nat) (ws : list (list ptr)) : bool :=
  match ws with
  | [] => true
  | w :: ws' =>
      forallb (fun e =>
                 negb (is_val (poly s e))
                 && bool_decide (var (poly s e) = i)
                 && bool_decide (m_state (deref s e) = to_simplify)
                 && bool_decide (e ∈ m_to_simplify s)) w
      && check_watch s (S i) ws'
  end.

Definition invariant s : bool :=
  let '(ok_solved, head_vars) := check_solved s 0 ∅ (m_solved s) in
  check_processed s 0 (m_processed s)
  && ok_solved
  && check_head_vars s head_vars
  && check_to_simplify s 0 (m_to_simplify s)
  && check_watch s 0 (m_watch s).

(** What the checker tests, as propositions. *)
Definition solved_form (p : pdd) : Prop :=
  is_val p = false ∧ is_val (hi p) = true.

Definition queue_checked s (st : eq_state) q (nonconstant : bool) : Prop :=
  ∀ i e, q !! i = Some e →
    m_state (deref s e) = st ∧ m_idx (deref s e) = i
    ∧ (nonconstant = true → is_val (poly s e) = false).

Definition head_vars_distinct s : Prop :=
  ∀ i j e1 e2,
    m_solved s !! i = Some e1 → m_solved s !! j = Some e2 → i ≠ j →
    solved_form (poly s e1) → solved_form (poly s e2) →
    var (poly s e1) ≠ var (poly s e2).

Definition head_vars_eliminated s : Prop :=
  ∀ e t, e ∈ m_solved s → solved_form (poly s e) →
    t ∈ m_to_simplify s ∨ t ∈ m_processed s →
    var (poly s e) ∉ free_vars (poly s t).

Definition watched_when_indexed s : Prop :=
  m_watch s ≠ [] →
  ∀ e, e ∈ m_to_simplify s → e ∈ watch_of s (var (poly s e)).

Definition watch_checked s : Prop :=
  ∀ v e, e ∈ watch_of s v →
    is_val (poly s e) = false ∧ var (poly s e) = v
    ∧ m_state (deref s e) = to_simplify ∧ e ∈ m_to_simplify s.

End Inspection.

(** ** Engines over the concrete algebra *)

Module Examples.

(** Three variables, the equations [ps] added in order, no dependencies;
    [budget] is the node budget of the manager and [limit] the size from
    which a polynomial counts as too complex. *)
Definition engine (budget limit : nat) (ps : list N)
  : @solver (Lin2.manager 3 budget limit) :=
  foldl (fun s p => add (PM := Lin2.manager 3 budget limit) p [] s)
    (Lin2.fresh 3 budget limit 1000 1000) ps.

(** The pre-pass that does nothing. *)
Definition no_simplifier {PM : PddManager} (s : solver) : solver := s.

(** The variables, of three, that occur in a polynomial of the concrete
    algebra. *)
Definition free_vars3 (p : N) : list nat :=
  filter (fun v => N.testbit p (N.of_nat (S v)) = true) (seq 0 3).

End Examples.

(** * Properties *)

(** ** The store *)

(** The components of the two invariants, under the names of their
    fields. *)
Ltac open_G H :=
  destruct H as [g_solved g_to_simplify g_members g_nonconst_ts g_nonconst_pr
                 g_wf g_shape g_fresh g_conflict g_levels g_watch g_level].
Ltac open_qinv H :=
  destruct H as [qi_solved qi_to_simplify qi_processed qi_nonconst_ts
                 qi_nonconst_pr qi_wf qi_shape qi_fresh qi_conflict].

Section Store.
Context {PM : PddManager}.
Implicit Types (h : gmap nat equation) (q sv ts : list ptr) (e t a : ptr).
Implicit Types (x : equation) (f : equation → equation).

Lemma poly_hpoly (s : solver) e : poly s e = hpoly (heap s) e.
Proof. reflexivity. Qed.

Lemma deref_lookup (s : solver) e x : heap s !! e = Some x → deref s e = x.
Proof. unfold deref. by intros ->. Qed.

Lemma hpoly_lookup h e x : h !! e = Some x → hpoly h e = m_poly x.
Proof. unfold hpoly. by intros ->. Qed.

Lemma hpoly_alter_ne h f e a : a ≠ e → hpoly (alter f e h) a = hpoly h a.
Proof. intros. unfold hpoly. by rewrite lookup_alter_ne. Qed.

Lemma hpoly_alter_keep h f e a :
  (∀ x, m_poly (f x) = m_poly x) → hpoly (alter f e h) a = hpoly h a.
Proof.
  intros Hf. destruct (decide (a = e)) as [->|]; [|by apply hpoly_alter_ne].
  unfold hpoly. rewrite lookup_alter_eq. destruct (h !! e); cbn; [apply Hf|done].
Qed.

Lemma hpoly_insert_eq h e x : hpoly (<[e:=x]> h) e = m_poly x.
Proof. unfold hpoly. by rewrite lookup_insert_eq. Qed.

Lemma hpoly_insert_ne h e a x : a ≠ e → hpoly (<[e:=x]> h) a = hpoly h a.
Proof. intros. unfold hpoly. by rewrite lookup_insert_ne. Qed.

Lemma hpoly_delete_ne h e a : a ≠ e → hpoly (delete e h) a = hpoly h a.
Proof. intros. unfold hpoly. by rewrite lookup_delete_ne. Qed.

(** *** Queues *)

Lemma Qok_lookup h st q e :
  Qok h st q → e ∈ q →
  ∃ x, h !! e = Some x ∧ m_state x = st ∧ q !! m_idx x = Some e.
Proof.
  intros HQ [i Hi]%list_elem_of_lookup.
  destruct (HQ i e Hi) as (x & Hx & Hst & Hidx). exists x. by rewrite Hidx.
Qed.

Lemma Qok_state h st q e x :
  Qok h st q → e ∈ q → h !! e = Some x → m_state x = st.
Proof.
  intros HQ He Hx. destruct (Qok_lookup _ _ _ _ HQ He) as (x' & Hx' & Hst & _).
  congruence.
Qed.

Lemma Qok_NoDup h st q : Qok h st q → NoDup q.
Proof.
  intros HQ. apply NoDup_alt. intros i j e Hi Hj.
  destruct (HQ i e Hi) as (x & Hx & _ & Hxi).
  destruct (HQ j e Hj) as (x' & Hx' & _ & Hxj). congruence.
Qed.

Lemma Qok_disjoint h st st' q q' e :
  st ≠ st' → Qok h st q → Qok h st' q' → e ∈ q → e ∉ q'.
Proof.
  intros Hne HQ HQ' He He'.
  destruct (Qok_lookup _ _ _ _ HQ He) as (x & Hx & Hst & _).
  pose proof (Qok_state _ _ _ _ _ HQ' He' Hx). congruence.
Qed.

Lemma Qok_alter_ne h st q f e : e ∉ q → Qok h st q → Qok (alter f e h) st q.
Proof.
  intros He HQ i a Hi. destruct (HQ i a Hi) as (x & Hx & Hst & Hidx).
  exists x. rewrite lookup_alter_ne; [done|].
  intros ->. apply He. by eapply list_elem_of_lookup_2.
Qed.

Lemma Qok_alter_keep h st q f e :
  (∀ x, m_state (f x) = m_state x ∧ m_idx (f x) = m_idx x) →
  Qok h st q → Qok (alter f e h) st q.
Proof.
  intros Hf HQ i a Hi. destruct (HQ i a Hi) as (x & Hx & Hst & Hidx).
  destruct (decide (a = e)) as [->|].
  - exists (f x). rewrite lookup_alter_eq, Hx. destruct (Hf x) as [-> ->]. done.
  - exists x. by rewrite lookup_alter_ne.
Qed.

Lemma Qok_insert_ne h st q e x : e ∉ q → Qok h st q → Qok (<[e:=x]> h) st q.
Proof.
  intros He HQ i a Hi. destruct (HQ i a Hi) as (y & Hy & Hst & Hidx).
  exists y. rewrite lookup_insert_ne; [done|].
  intros ->. apply He. by eapply list_elem_of_lookup_2.
Qed.

Lemma Qok_delete h st q e : e ∉ q → Qok h st q → Qok (delete e h) st q.
Proof.
  intros He HQ i a Hi. destruct (HQ i a Hi) as (y & Hy & Hst & Hidx).
  exists y. rewrite lookup_delete_ne; [done|].
  intros ->. apply He. by eapply list_elem_of_lookup_2.
Qed.

Lemma Qok_in_heap h st q e : Qok h st q → e ∈ q → is_Some (h !! e).
Proof. intros HQ He. destruct (Qok_lookup _ _ _ _ HQ He) as (x & -> & _). eauto. Qed.

(** push_equation on the store and the queue *)
Lemma Qok_snoc h st q e x :
  h !! e = Some x → e ∉ q → Qok h st q →
  Qok (alter (set_index (length q)) e (alter (set_state st) e h)) st (q ++ [e]).
Proof.
  intros Hx He HQ i a Hi.
  apply lookup_app_Some in Hi as [Hi|[Hlen Hi]].
  - destruct (HQ i a Hi) as (y & Hy & Hst & Hidx).
    assert (a ≠ e) by (intros ->; apply He; by eapply list_elem_of_lookup_2).
    exists y. by rewrite !lookup_alter_ne.
  - apply list_lookup_singleton_Some in Hi as [Hi <-].
    exists (set_index (length q) (set_state st x)).
    rewrite !lookup_alter_eq, Hx. cbn. split; [done|]. split; [done|]. lia.
Qed.

(** pop_equation on the store and the queue *)
Lemma pop_list_lookup q idx i :
  idx < length q →
  pop_list q idx !! i =
  if decide (i < length q - 1)
  then if decide (i = idx) then q !! (length q - 1) else q !! i
  else None.
Proof.
  intros Hidx. unfold pop_list.
  destruct (decide (i < length q - 1)) as [Hi|Hi].
  - rewrite lookup_take_lt by done.
    destruct (decide (idx ≠ length q - 1)) as [Hne|Heq].
    + destruct (decide (i = idx)) as [->|].
      * rewrite list_lookup_insert_eq by done.
        symmetry. apply list_lookup_lookup_total_lt. lia.
      * by rewrite list_lookup_insert_ne.
    + destruct (decide (i = idx)) as [->|]; [lia|done].
  - apply lookup_take_ge. lia.
Qed.

Lemma pop_list_length q idx : length (pop_list q idx) = length q - 1.
Proof.
  unfold pop_list. rewrite length_take.
  destruct (decide _); rewrite ?length_insert; lia.
Qed.

Lemma pop_list_elem h st q e x a :
  Qok h st q → h !! e = Some x → e ∈ q →
  a ∈ pop_list q (m_idx x) ↔ a ∈ q ∧ a ≠ e.
Proof.
  intros HQ Hx He.
  destruct (Qok_lookup _ _ _ _ HQ He) as (x' & Hx' & Hst & Hqe).
  assert (x' = x) as -> by congruence.
  pose proof (Qok_NoDup _ _ _ HQ) as Hnd.
  pose proof (lookup_lt_Some _ _ _ Hqe) as Hlt.
  rewrite !list_elem_of_lookup. split.
  - intros [i Hi]. rewrite pop_list_lookup in Hi by done.
    destruct (decide (i < _)) as [Hil|]; [|done].
    destruct (decide (i = m_idx x)) as [->|Hne].
    + split; [eauto|]. intros ->.
      pose proof (NoDup_lookup _ _ _ _ Hnd Hi Hqe). lia.
    + split; [eauto|]. intros ->.
      pose proof (NoDup_lookup _ _ _ _ Hnd Hi Hqe). lia.
  - intros [[i Hi] Hae].
    pose proof (lookup_lt_Some _ _ _ Hi) as Hil.
    destruct (decide (i = length q - 1)) as [->|Hlast].
    + exists (m_idx x). rewrite pop_list_lookup by done.
      destruct (decide (m_idx x < _)) as [|Hn].
      * by rewrite decide_True.
      * assert (m_idx x = length q - 1) as Heq by lia.
        rewrite Heq in Hqe. congruence.
    + exists i. rewrite pop_list_lookup by done.
      rewrite decide_True by lia.
      rewrite decide_False; [done|]. intros ->. congruence.
Qed.

Lemma Qok_pop h st q e x :
  Qok h st q → h !! e = Some x → e ∈ q →
  Qok (pop_heap h q (m_idx x)) st (pop_list q (m_idx x)).
Proof.
  intros HQ Hx He.
  destruct (Qok_lookup _ _ _ _ HQ He) as (x' & Hx' & Hst & Hqe).
  assert (x' = x) as -> by congruence.
  pose proof (Qok_NoDup _ _ _ HQ) as Hnd.
  pose proof (lookup_lt_Some _ _ _ Hqe) as Hlt.
  intros i a Hi. rewrite pop_list_lookup in Hi by done.
  destruct (decide (i < _)) as [Hil|]; [|done].
  unfold pop_heap.
  destruct (decide (m_idx x ≠ length q - 1)) as [Hne|Heq].
  - assert (Hlast : q !! (length q - 1) = Some (q !!! (length q - 1))).
    { apply list_lookup_lookup_total_lt. lia. }
    destruct (decide (i = m_idx x)) as [->|Hine].
    + rewrite Hlast in Hi. injection Hi as <-.
      destruct (HQ _ _ Hlast) as (y & Hy & Hyst & Hyi).
      exists (set_index (m_idx x) y). by rewrite lookup_alter_eq, Hy.
    + destruct (HQ _ _ Hi) as (y & Hy & Hyst & Hyi).
      exists y. rewrite lookup_alter_ne; [done|].
      intros Heq. rewrite Heq in Hlast.
      pose proof (NoDup_lookup _ _ _ _ Hnd Hi Hlast). lia.
  - destruct (decide (i = m_idx x)) as [->|Hine]; [lia|].
    destruct (HQ _ _ Hi) as (y & Hy & Hyst & Hyi). by exists y.
Qed.

Lemma hpoly_pop h q idx a : hpoly (pop_heap h q idx) a = hpoly h a.
Proof. unfold pop_heap. destruct (decide _); [|done]. by apply hpoly_alter_keep. Qed.

(** A queue of another state is not disturbed by a pop. *)
Lemma Qok_pop_other h st st' q q' idx :
  st ≠ st' → idx < length q → Qok h st q → Qok h st' q' →
  Qok (pop_heap h q idx) st' q'.
Proof.
  intros Hne Hidx HQ HQ'. unfold pop_heap. destruct (decide _); [|done].
  apply Qok_alter_ne; [|done].
  eapply Qok_disjoint; [exact Hne|exact HQ|exact HQ'|].
  apply list_elem_of_lookup. exists (length q - 1).
  apply list_lookup_lookup_total_lt. lia.
Qed.

(** *** The other components *)

Lemma WFok_alter h f e :
  (∀ x, h !! e = Some x → pdd_wf (m_poly (f x))) → WFok h → WFok (alter f e h).
Proof.
  intros Hf HW a y Hy. destruct (decide (a = e)) as [->|].
  - rewrite lookup_alter_eq in Hy. destruct (h !! e) as [x|] eqn:Hx; [|done].
    injection Hy as <-. by apply Hf.
  - rewrite lookup_alter_ne in Hy by done. by eapply HW.
Qed.

Lemma WFok_alter_keep h f e :
  (∀ x, m_poly (f x) = m_poly x) → WFok h → WFok (alter f e h).
Proof. intros Hf HW. apply WFok_alter; [|done]. intros x Hx. rewrite Hf. by eapply HW. Qed.

Lemma WFok_insert h e x : pdd_wf (m_poly x) → WFok h → WFok (<[e:=x]> h).
Proof.
  intros Hx HW a y Hy. destruct (decide (a = e)) as [->|].
  - rewrite lookup_insert_eq in Hy. by injection Hy as <-.
  - rewrite lookup_insert_ne in Hy by done. by eapply HW.
Qed.

Lemma WFok_delete h e : WFok h → WFok (delete e h).
Proof.
  intros HW a y Hy. destruct (decide (a = e)) as [->|].
  - by rewrite lookup_delete_eq in Hy.
  - rewrite lookup_delete_ne in Hy by done. by eapply HW.
Qed.

Lemma WFok_pop h q idx : WFok h → WFok (pop_heap h q idx).
Proof. unfold pop_heap. destruct (decide _); [|done]. by apply WFok_alter_keep. Qed.

Lemma FRok_alter h f e nx : FRok h nx → FRok (alter f e h) nx.
Proof.
  intros HF a [y Hy]. apply HF. destruct (decide (a = e)) as [->|].
  - rewrite lookup_alter_eq in Hy. destruct (h !! e); [eauto|done].
  - rewrite lookup_alter_ne in Hy by done. eauto.
Qed.

Lemma FRok_insert h e x : FRok h e → FRok (<[e:=x]> h) (S e).
Proof.
  intros HF a [y Hy]. destruct (decide (a = e)) as [->|]; [lia|].
  rewrite lookup_insert_ne in Hy by done. etrans; [apply HF; eauto|lia].
Qed.

Lemma FRok_delete h e nx : FRok h nx → FRok (delete e h) nx.
Proof.
  intros HF a [y Hy]. apply HF. destruct (decide (a = e)) as [->|].
  - by rewrite lookup_delete_eq in Hy.
  - rewrite lookup_delete_ne in Hy by done. eauto.
Qed.

Lemma FRok_pop h q idx nx : FRok h nx → FRok (pop_heap h q idx) nx.
Proof. unfold pop_heap. destruct (decide _); [|done]. by apply FRok_alter. Qed.

Lemma FRok_fresh h nx : FRok h nx → h !! nx = None.
Proof.
  intros HF. destruct (h !! nx) eqn:Hx; [|done].
  assert (nx < nx) by (apply HF; eauto). lia.
Qed.

End Store.

(** ** How the invariant moves along the primitive operations *)

Section Frames.
Context {PM : PddManager}.
Implicit Types (h : gmap nat equation) (q sv ts : list ptr) (e t a : ptr).
Implicit Types (x : equation) (f : equation → equation).
Implicit Types (pm tm : ptr → Prop) (wl : nat → list ptr) (s : solver).

Lemma NCok_ext h h' (mem : ptr → Prop) :
  (∀ a, mem a → hpoly h' a = hpoly h a) → NCok h mem → NCok h' mem.
Proof. intros He HN a Ha. rewrite He by done. by apply HN. Qed.

Lemma NCok_mono h (mem mem' : ptr → Prop) :
  (∀ a, mem' a → mem a) → NCok h mem → NCok h mem'.
Proof. intros Hm HN a Ha. apply HN, Hm, Ha. Qed.

Lemma SVok_ext h h' sv :
  (∀ a, a ∈ sv → hpoly h' a = hpoly h a) → SVok h sv → SVok h' sv.
Proof. intros He HS a Ha. rewrite He by done. by apply HS. Qed.

Lemma SVok_snoc h sv e :
  solved_shape (hpoly h e) → SVok h sv → SVok h (sv ++ [e]).
Proof.
  intros He HS a [Ha|Ha%list_elem_of_singleton]%elem_of_app; [by apply HS|by subst].
Qed.

Lemma CFok_ext h h' sv cf :
  (∀ a, a ∈ sv → hpoly h' a = hpoly h a) → CFok h sv cf → CFok h' sv cf.
Proof.
  intros He HC c Hc. destruct (HC c Hc) as (Hin & Hv & Hz).
  by rewrite !He.
Qed.

Lemma CFok_snoc h sv cf e : CFok h sv cf → CFok h (sv ++ [e]) cf.
Proof.
  intros HC c Hc. destruct (HC c Hc) as (Hin & Hv & Hz).
  split; [|done]. apply elem_of_app. by left.
Qed.

Lemma Wok_ext h h' tm wl :
  (∀ a, tm a → hpoly h' a = hpoly h a) → Wok h tm wl → Wok h' tm wl.
Proof.
  intros He (H1 & H2 & H3). split; [|split]; [|done|].
  - intros v a Ha. destruct (H1 v a Ha) as [Htm Hv]. by rewrite He.
  - intros a Ha. rewrite He by done. by apply H3.
Qed.

Lemma Lok_ext h h' tm lp1 :
  (∀ a, tm a → hpoly h' a = hpoly h a) → Lok h tm lp1 → Lok h' tm lp1.
Proof. intros He HL a Ha. rewrite He by done. by apply HL. Qed.

Lemma Lok_mono h tm tm' lp1 lp1' :
  (∀ a, tm' a → tm a) → lp1 ≤ lp1' → Lok h tm lp1 → Lok h tm' lp1'.
Proof.
  intros Hm Hle HL a Ha. destruct (HL a (Hm a Ha)) as (i & Hi & Hl).
  exists i. split; [lia|done].
Qed.

(** The members of a watch list are to-simplify members. *)
Lemma Wok_member h tm wl v a : Wok h tm wl → a ∈ wl v → tm a.
Proof. intros (H1 & _) Ha. by destruct (H1 v a Ha). Qed.

Lemma Wok_var h tm wl v a : Wok h tm wl → a ∈ wl v → var (hpoly h a) = v.
Proof. intros (H1 & _) Ha. by destruct (H1 v a Ha). Qed.

(** Taking an equation out of the watched to-simplify members. *)
Lemma Wok_remove h tm wl wl' e :
  (∀ v a, a ∈ wl' v ↔ a ∈ wl v ∧ a ≠ e) →
  (∀ v, NoDup (wl' v)) →
  Wok h tm wl → Wok h (λ a, tm a ∧ a ≠ e) wl'.
Proof.
  intros Hw Hnd (H1 & H2 & H3). split; [|split]; [|done|].
  - intros v a [Ha Hne]%Hw. destruct (H1 v a Ha). done.
  - intros a [Ha Hne]. apply Hw. split; [by apply H3|done].
Qed.

(** Putting an equation among them, at the end of the list of its
    leading variable. *)
Lemma Wok_add h tm wl e :
  ¬ tm e →
  Wok h tm wl →
  Wok h (λ a, tm a ∨ a = e)
    (λ v, if decide (v = var (hpoly h e)) then wl v ++ [e] else wl v).
Proof.
  intros Hne (H1 & H2 & H3). split; [|split].
  - intros v a Ha. destruct (decide (v = _)) as [->|].
    + apply elem_of_app in Ha as [Ha|Ha%list_elem_of_singleton].
      * destruct (H1 _ a Ha). auto.
      * subst. auto.
    + destruct (H1 _ a Ha). auto.
  - intros v. destruct (decide (v = _)) as [->|]; [|done].
    apply NoDup_app. split; [done|]. split; [|apply NoDup_singleton].
    intros a Ha ->%list_elem_of_singleton. apply Hne. by destruct (H1 _ _ Ha).
  - intros a [Ha| ->].
    + destruct (decide (_ = _)) as [Heq|]; [|by apply H3].
      apply elem_of_app. left. by apply H3.
    + rewrite decide_True by done. apply elem_of_app. right. by left.
Qed.

(** *** State-level frames *)

(** [G] reads the store, the solved and to-simplify queues, the conflict
    slot, the allocation mark and the level data. *)
Lemma G_same s s' pm tm wl :
  heap s' = heap s → next_ptr s' = next_ptr s →
  m_solved s' = m_solved s → m_to_simplify s' = m_to_simplify s →
  m_conflict s' = m_conflict s → m_levelp1 s' = m_levelp1 s →
  m_level2var s' = m_level2var s → m_var2level s' = m_var2level s →
  length (m_watch s') = length (m_watch s) →
  G s pm tm wl → G s' pm tm wl.
Proof.
  intros Hh Hn Hsv Hts Hcf Hl Hlv Hvl Hw Hrec. open_G Hrec.
  constructor; rewrite ?Hh, ?Hn, ?Hsv, ?Hts, ?Hcf, ?Hl; try done.
  destruct g_levels as (L1 & L2 & L3).
  split; [|split]; rewrite ?Hlv, ?Hvl, ?Hw; done.
Qed.

Lemma Wok_equiv h tm tm' wl wl' :
  (∀ a, tm a ↔ tm' a) → (∀ v, wl' v ≡ₚ wl v) → Wok h tm wl → Wok h tm' wl'.
Proof.
  intros Htm Hwl (H1 & H2 & H3). split; [|split].
  - intros v a. rewrite Hwl. intros Ha. destruct (H1 v a Ha).
    split; [by apply Htm|done].
  - intros v. by rewrite Hwl.
  - intros a Ha. rewrite Hwl. by apply H3, Htm.
Qed.

Lemma G_equiv s pm pm' tm tm' wl wl' :
  (∀ a, pm' a → pm a) → (∀ a, tm a ↔ tm' a) → (∀ v, wl' v ≡ₚ wl v) →
  G s pm tm wl → G s pm' tm' wl'.
Proof.
  intros Hpm Htm Hwl Hrec. open_G Hrec. constructor; try done.
  - intros a Ha. apply g_members, Htm, Ha.
  - eapply NCok_mono; [|exact g_nonconst_ts]. intros a Ha. by apply Htm.
  - eapply NCok_mono; [|exact g_nonconst_pr]. done.
  - by eapply Wok_equiv.
  - eapply Lok_mono; [| |exact g_level]; [|done]. intros a Ha. by apply Htm.
Qed.

(** A change of the store that leaves states, indices and the polynomials
    of the equations in [sv], [tm], [pm] alone. *)
Lemma G_store s s' pm tm wl :
  next_ptr s' = next_ptr s →
  m_solved s' = m_solved s → m_to_simplify s' = m_to_simplify s →
  m_conflict s' = m_conflict s → m_levelp1 s' = m_levelp1 s →
  m_level2var s' = m_level2var s → m_var2level s' = m_var2level s →
  length (m_watch s') = length (m_watch s) →
  Qok (heap s') solved (m_solved s) →
  Qok (heap s') to_simplify (m_to_simplify s) →
  WFok (heap s') → FRok (heap s') (next_ptr s) →
  (∀ a, a ∈ m_solved s ∨ tm a ∨ pm a → hpoly (heap s') a = hpoly (heap s) a) →
  G s pm tm wl → G s' pm tm wl.
Proof.
  intros Hn Hsv Hts Hcf Hl Hlv Hvl Hw Q1 Q2 HW HF Hp Hrec. open_G Hrec.
  constructor; rewrite ?Hn, ?Hsv, ?Hts, ?Hcf, ?Hl; try done.
  - eapply NCok_ext; [|exact g_nonconst_ts]. auto.
  - eapply NCok_ext; [|exact g_nonconst_pr]. auto.
  - eapply SVok_ext; [|exact g_shape]. auto.
  - eapply CFok_ext; [|exact g_conflict]. auto.
  - destruct g_levels as (L1 & L2 & L3).
    split; [|split]; rewrite ?Hlv, ?Hvl, ?Hw; done.
  - eapply Wok_ext; [|exact g_watch]. auto.
  - eapply Lok_ext; [|exact g_level]. auto.
Qed.

End Frames.

Section Primitives.
Context {PM : PddManager}.
Implicit Types (h : gmap nat equation) (q sv ts : list ptr) (e t a : ptr).
Implicit Types (x : equation) (f : equation → equation).
Implicit Types (pm tm : ptr → Prop) (wl : nat → list ptr) (s : solver).

Lemma G_upd_keep s t f pm tm wl :
  (∀ x, m_state (f x) = m_state x ∧ m_idx (f x) = m_idx x
        ∧ m_poly (f x) = m_poly x) →
  G s pm tm wl → G (upd t f s) pm tm wl.
Proof.
  intros Hf HG. pose proof HG as Hrec. open_G Hrec.
  eapply (G_store s); [done..| | | | | |exact HG]; cbn.
  - apply Qok_alter_keep; [|done]. intros x. destruct (Hf x) as (?&?&?). done.
  - apply Qok_alter_keep; [|done]. intros x. destruct (Hf x) as (?&?&?). done.
  - apply WFok_alter_keep; [|done]. intros x. by destruct (Hf x) as (?&?&?).
  - by apply FRok_alter.
  - intros a _. apply hpoly_alter_keep. intros x. by destruct (Hf x) as (?&?&?).
Qed.

(** Relabelling an equation that is in neither of the two queues. *)
Lemma G_upd_out s t f pm tm wl :
  (∀ x, m_poly (f x) = m_poly x) →
  t ∉ m_solved s → t ∉ m_to_simplify s →
  G s pm tm wl → G (upd t f s) pm tm wl.
Proof.
  intros Hf Hsv Hts HG. pose proof HG as Hrec. open_G Hrec.
  eapply (G_store s); [done..| | | | | |exact HG]; cbn.
  - by apply Qok_alter_ne.
  - by apply Qok_alter_ne.
  - by apply WFok_alter_keep.
  - by apply FRok_alter.
  - intros a _. by apply hpoly_alter_keep.
Qed.

Lemma G_pm s pm pm' tm wl :
  NCok (heap s) pm' → G s pm tm wl → G s pm' tm wl.
Proof. intros HN Hrec. open_G Hrec. by constructor. Qed.

(** Overwriting the polynomial of an equation that is, at this point, in
    none of the sets the invariant speaks of. *)
Lemma G_upd_poly s t r pm tm wl :
  pdd_wf r → t ∉ m_solved s → ¬ tm t → ¬ pm t →
  G s pm tm wl → G (upd t (set_poly r) s) pm tm wl.
Proof.
  intros Hr Hsv Htm Hpm HG. pose proof HG as Hrec. open_G Hrec.
  eapply (G_store s); [done..| | | | | |exact HG]; cbn.
  - by apply Qok_alter_keep.
  - by apply Qok_alter_keep.
  - apply WFok_alter; [|done]. by intros.
  - by apply FRok_alter.
  - intros a Ha. apply hpoly_alter_ne. intros ->. tauto.
Qed.

Lemma G_retire s t pm tm wl :
  t ∉ m_solved s → t ∉ m_to_simplify s → ¬ pm t →
  G s pm tm wl → G (retire t s) pm tm wl.
Proof.
  intros Hsv Hts Hpm HG. pose proof HG as Hrec. open_G Hrec.
  eapply (G_store s); [done..| | | | | |exact HG]; cbn.
  - by apply Qok_delete.
  - by apply Qok_delete.
  - by apply WFok_delete.
  - by apply FRok_delete.
  - intros a Ha. apply hpoly_delete_ne. intros ->.
    destruct Ha as [?|[?%g_members|?]]; tauto.
Qed.

Lemma G_alloc s p d pm tm wl :
  pdd_wf p → ¬ pm (next_ptr s) →
  G s pm tm wl → G (alloc p d s).2 pm tm wl.
Proof.
  intros Hp Hpm HG. pose proof HG as Hrec. open_G Hrec.
  pose proof (FRok_fresh _ _ g_fresh) as Hfresh.
  assert (Hnin : ∀ st q, Qok (heap s) st q → next_ptr s ∉ q).
  { intros st q HQ Hin. apply (Qok_in_heap _ _ _ _ HQ) in Hin.
    rewrite Hfresh in Hin. by destruct Hin. }
  assert (Hpoly : ∀ a, a ∈ m_solved s ∨ tm a ∨ pm a →
            hpoly (<[next_ptr s:=mk_equation to_simplify 0 p d]> (heap s)) a
            = hpoly (heap s) a).
  { intros a Ha. apply hpoly_insert_ne. intros ->.
    destruct Ha as [Ha|[Ha%g_members|Ha]];
      [exact (Hnin _ _ g_solved Ha)|exact (Hnin _ _ g_to_simplify Ha)|done]. }
  constructor; cbn; try done.
  - apply Qok_insert_ne; eauto.
  - apply Qok_insert_ne; eauto.
  - eapply NCok_ext; [|exact g_nonconst_ts]. auto.
  - eapply NCok_ext; [|exact g_nonconst_pr]. auto.
  - by apply WFok_insert.
  - eapply SVok_ext; [|exact g_shape]. auto.
  - by apply FRok_insert.
  - eapply CFok_ext; [|exact g_conflict]. auto.
  - eapply Wok_ext; [|exact g_watch]. auto.
  - eapply Lok_ext; [|exact g_level]. auto.
Qed.

(** *** push_equation *)

Lemma heap_push s st t :
  heap (push_equation st t s) = push_heap (heap s) st (length (queue st s)) t.
Proof. by destruct st. Qed.

Lemma queue_push s st t : queue st (push_equation st t s) = queue st s ++ [t].
Proof. by destruct st. Qed.

Lemma queue_push_ne s st st' t :
  st ≠ st' → queue st' (push_equation st t s) = queue st' s.
Proof. by destruct st, st'. Qed.

Lemma hpoly_push h st n t a : hpoly (push_heap h st n t) a = hpoly h a.
Proof. unfold push_heap. by rewrite !hpoly_alter_keep. Qed.

Lemma push_heap_lookup h st n t x :
  h !! t = Some x →
  push_heap h st n t !! t = Some (mk_equation st n (m_poly x) (m_dep x)).
Proof. intros Hx. unfold push_heap. by rewrite !lookup_alter_eq, Hx. Qed.

Lemma push_heap_lookup_ne h st n t a :
  a ≠ t → push_heap h st n t !! a = h !! a.
Proof. intros. unfold push_heap. by rewrite !lookup_alter_ne. Qed.

Lemma Qok_push_ne h st st' n q t :
  t ∉ q → Qok h st q → Qok (push_heap h st' n t) st q.
Proof.
  intros. unfold push_heap.
  apply Qok_alter_ne; [done|]. by apply Qok_alter_ne.
Qed.

Lemma G_push s st t x pm tm wl :
  heap s !! t = Some x →
  t ∉ m_solved s → t ∉ m_to_simplify s →
  (st = solved → solved_shape (m_poly x)) →
  G s pm tm wl → G (push_equation st t s) pm tm wl.
Proof.
  intros Hx Hsv Hts Hshape HG. pose proof HG as Hrec. open_G Hrec.
  assert (Hwf : WFok (heap (push_equation st t s))).
  { rewrite heap_push. unfold push_heap.
    apply WFok_alter_keep; [done|]. by apply WFok_alter_keep. }
  assert (Hfr : FRok (heap (push_equation st t s)) (next_ptr s)).
  { rewrite heap_push. unfold push_heap. by do 2 apply FRok_alter. }
  assert (Hp : ∀ a, hpoly (heap (push_equation st t s)) a = hpoly (heap s) a).
  { intros a. rewrite heap_push. apply hpoly_push. }
  assert (Hlv : LVok (push_equation st t s)) by by destruct st.
  constructor; try done.
  - destruct st; try (apply Qok_push_ne; done).
    by eapply Qok_snoc.
  - destruct st; try (apply Qok_push_ne; done).
    by eapply Qok_snoc.
  - destruct st; exact g_members || (intros a Ha; apply elem_of_app; left; by apply g_members).
  - eapply NCok_ext; [|exact g_nonconst_ts]. auto.
  - eapply NCok_ext; [|exact g_nonconst_pr]. auto.
  - assert (SVok (heap (push_equation st t s)) (m_solved s)) as HS.
    { eapply SVok_ext; [|exact g_shape]. auto. }
    destruct st; try exact HS.
    apply SVok_snoc; [|exact HS]. rewrite Hp, (hpoly_lookup _ _ _ Hx). auto.
  - by destruct st.
  - assert (CFok (heap (push_equation st t s)) (m_solved s) (m_conflict s)) as HC.
    { eapply CFok_ext; [|exact g_conflict]. auto. }
    destruct st; try exact HC. by apply CFok_snoc.
  - eapply Wok_ext; [|exact g_watch]. auto.
  - assert (m_levelp1 (push_equation st t s) = m_levelp1 s) as -> by by destruct st.
    eapply Lok_ext; [|exact g_level]. auto.
Qed.

Lemma G_set_conflict s t x pm tm wl :
  heap s !! t = Some x →
  t ∉ m_solved s → t ∉ m_to_simplify s →
  is_val (m_poly x) = true → is_zero (m_poly x) = false →
  G s pm tm wl → G (set_conflict t s) pm tm wl.
Proof.
  intros Hx Hsv Hts Hv Hz HG.
  assert (G (push_equation solved t s) pm tm wl) as Hrec.
  { eapply G_push; eauto. intros _. right. auto. }
  open_G Hrec.
  constructor; try done.
  intros c [= <-]. split; [|split].
  - cbn. apply elem_of_app. right. by left.
  - cbn. rewrite !hpoly_alter_keep by done. by rewrite (hpoly_lookup _ _ _ Hx).
  - cbn. rewrite !hpoly_alter_keep by done. by rewrite (hpoly_lookup _ _ _ Hx).
Qed.

(** *** pop_equation on the to-simplify queue *)

Lemma heap_pop_ts s t x :
  heap s !! t = Some x → m_state x = to_simplify →
  heap (pop_equation t s) = pop_heap (heap s) (m_to_simplify s) (m_idx x).
Proof.
  intros Hx Hst. unfold pop_equation, pop_heap.
  rewrite (deref_lookup _ _ _ Hx), Hst. cbn.
  by destruct (decide _).
Qed.

Lemma queue_pop_ts s t x :
  heap s !! t = Some x → m_state x = to_simplify →
  m_to_simplify (pop_equation t s) = pop_list (m_to_simplify s) (m_idx x).
Proof.
  intros Hx Hst. unfold pop_equation, pop_list.
  rewrite (deref_lookup _ _ _ Hx), Hst. cbn.
  destruct (decide _); cbn; [|done].
  by rewrite length_insert.
Qed.

Lemma pop_ts_others s t x :
  heap s !! t = Some x → m_state x = to_simplify →
  let s' := pop_equation t s in
  next_ptr s' = next_ptr s ∧ m_solved s' = m_solved s
  ∧ m_processed s' = m_processed s ∧ m_conflict s' = m_conflict s
  ∧ m_levelp1 s' = m_levelp1 s ∧ m_level2var s' = m_level2var s
  ∧ m_var2level s' = m_var2level s ∧ m_watch s' = m_watch s
  ∧ m_stats s' = m_stats s ∧ m_config s' = m_config s
  ∧ m_limit s' = m_limit s ∧ m_too_complex s' = m_too_complex s.
Proof.
  intros Hx Hst. unfold pop_equation.
  rewrite (deref_lookup _ _ _ Hx), Hst. cbn.
  by destruct (decide _).
Qed.

Lemma G_pop s t x pm tm wl :
  heap s !! t = Some x → m_state x = to_simplify →
  t ∈ m_to_simplify s → ¬ tm t →
  G s pm tm wl → G (pop_equation t s) pm tm wl.
Proof.
  intros Hx Hst Hin Htm HG. pose proof HG as Hrec. open_G Hrec.
  destruct (pop_ts_others s t x Hx Hst)
    as (E1 & E2 & E3 & E4 & E5 & E6 & E7 & E8 & _).
  pose proof (heap_pop_ts s t x Hx Hst) as Eh.
  pose proof (queue_pop_ts s t x Hx Hst) as Eq.
  assert (Hidx : m_idx x < length (m_to_simplify s)).
  { destruct (Qok_lookup _ _ _ _ g_to_simplify Hin) as (x' & Hx' & _ & Hl).
    assert (x' = x) as -> by congruence. by eapply lookup_lt_Some. }
  assert (Hp : ∀ a, hpoly (heap (pop_equation t s)) a = hpoly (heap s) a).
  { intros a. rewrite Eh. apply hpoly_pop. }
  constructor; rewrite ?E1, ?E2, ?E4, ?E5, ?Eq; try done.
  - rewrite Eh. eapply Qok_pop_other; [| |exact g_to_simplify|exact g_solved]; done.
  - rewrite Eh. by eapply Qok_pop.
  - intros a Ha. eapply pop_list_elem; [done..|].
    split; [by apply g_members|]. by intros ->.
  - eapply NCok_ext; [|exact g_nonconst_ts]. auto.
  - eapply NCok_ext; [|exact g_nonconst_pr]. auto.
  - rewrite Eh. by apply WFok_pop.
  - eapply SVok_ext; [|exact g_shape]. auto.
  - rewrite Eh. by apply FRok_pop.
  - eapply CFok_ext; [|exact g_conflict]. auto.
  - destruct g_levels as (L1 & L2 & L3). split; [|split]; rewrite ?E6, ?E7, ?E8; done.
  - eapply Wok_ext; [|exact g_watch]. auto.
  - eapply Lok_ext; [|exact g_level]. auto.
Qed.

End Primitives.

Section Levels.
Context {PM : PddManager} {PL : PddLaws PM}.
Implicit Types (h : gmap nat equation) (q sv ts : list ptr) (e t a : ptr).
Implicit Types (x : equation) (f : equation → equation).
Implicit Types (pm tm : ptr → Prop) (wl : nat → list ptr) (s : solver).

(** level2var is a permutation of the variables. *)
Lemma level2var_complete v :
  v < length get_level2var → ∃ i, get_level2var !! i = Some v.
Proof.
  intros Hv. apply list_elem_of_lookup.
  assert (get_level2var ≡ₚ seq 0 (length get_level2var)) as ->.
  { apply submseteq_length_Permutation; [|by rewrite length_seq].
    apply NoDup_submseteq; [apply level2var_nodup|].
    intros a Ha%level2var_bound. apply elem_of_seq. lia. }
  apply elem_of_seq. lia.
Qed.

Lemma level2var_inj i j v :
  get_level2var !! i = Some v → get_level2var !! j = Some v → i = j.
Proof. apply NoDup_lookup, level2var_nodup. Qed.

Lemma level_of_wf p :
  pdd_wf p → is_val p = false → ∃ i, get_level2var !! i = Some (var p).
Proof. intros Hw Hv. by apply level2var_complete, var_bound. Qed.

Lemma LVok_var2level s i v :
  LVok s → get_level2var !! i = Some v → m_var2level s !!! v = i.
Proof.
  intros (_ & L2 & _) Hi. by apply list_lookup_total_correct, L2.
Qed.

Lemma G_raise_level s v pm tm wl :
  G s pm tm wl → G (raise_level v s) pm tm wl.
Proof.
  intros Hrec. open_G Hrec. constructor; try done.
  eapply Lok_mono; [done| |exact g_level]. cbn. lia.
Qed.

Lemma G_set_levelp1 s n pm tm wl :
  Lok (heap s) tm n → G s pm tm wl → G (set_levelp1 n s) pm tm wl.
Proof. intros HL Hrec. open_G Hrec. by constructor. Qed.

Lemma G_set_watch_of s v w pm tm wl :
  G s pm tm wl → G (set_watch_of v w s) pm tm wl.
Proof.
  intros Hrec. open_G Hrec. constructor; try done.
  destruct g_levels as (L1 & L2 & L3). split; [done|]. split; [done|].
  cbn. by rewrite length_insert.
Qed.

Lemma G_add_to_watch s t pm tm wl :
  G s pm tm wl → G (add_to_watch t s) pm tm wl.
Proof.
  intros HG. unfold add_to_watch. destruct (is_val _); [done|].
  by apply G_set_watch_of.
Qed.

Lemma G_set_processed s P pm tm wl :
  G s pm tm wl → G (set_processed P s) pm tm wl.
Proof. intros Hrec. open_G Hrec. by constructor. Qed.

(** Counting an equation of the to-simplify queue among the watched
    members. *)
Lemma G_tm_add s t pm tm wl :
  t ∈ m_to_simplify s → ¬ tm t →
  is_val (hpoly (heap s) t) = false →
  (∃ i, i < m_levelp1 s ∧ get_level2var !! i = Some (var (hpoly (heap s) t))) →
  G s pm tm wl →
  G s pm (λ a, tm a ∨ a = t)
    (λ v, if decide (v = var (hpoly (heap s) t)) then wl v ++ [t] else wl v).
Proof.
  intros Hin Hntm Hv Hl Hrec. open_G Hrec. constructor; try done.
  - intros a [Ha| ->]; [by apply g_members|done].
  - intros a [Ha| ->]; [by apply g_nonconst_ts|done].
  - by apply Wok_add.
  - intros a [Ha| ->]; [by apply g_level|done].
Qed.

Lemma G_tm_remove s e pm tm wl wl' :
  (∀ v a, a ∈ wl' v ↔ a ∈ wl v ∧ a ≠ e) →
  (∀ v, NoDup (wl' v)) →
  G s pm tm wl → G s pm (λ a, tm a ∧ a ≠ e) wl'.
Proof.
  intros Hw Hnd Hrec. open_G Hrec. constructor; try done.
  - intros a [Ha _]. by apply g_members.
  - intros a [Ha _]. by apply g_nonconst_ts.
  - by eapply Wok_remove.
  - intros a [Ha _]. by apply g_level.
Qed.

(** The level that [raise_level] computes bounds the level of the
    variable. *)
Lemma raise_level_bound s p :
  LVok s → pdd_wf p → is_val p = false →
  ∃ i, i < m_levelp1 (raise_level (var p) s)
       ∧ get_level2var !! i = Some (var p).
Proof.
  intros HL Hw Hv. destruct (level_of_wf p Hw Hv) as [i Hi].
  exists i. split; [|done]. cbn. rewrite (LVok_var2level _ _ _ HL Hi). lia.
Qed.

End Levels.

Section ReducerSpec.
Context {PM : PddManager}.
Implicit Types (h : gmap nat equation) (q sv ts : list ptr) (e t a : ptr).
Implicit Types (x : equation) (s : solver).

Lemma struct_eq_refl s : struct_eq s s.
Proof. by repeat split. Qed.

Lemma struct_eq_trans s1 s2 s3 :
  struct_eq s1 s2 → struct_eq s2 s3 → struct_eq s1 s3.
Proof.
  unfold struct_eq. intros H1 H2.
  destruct H1 as (?&?&?&?&?&?&?&?&?&?&?&?), H2 as (?&?&?&?&?&?&?&?&?&?&?&?).
  repeat split; (etrans; [eassumption|eassumption]).
Qed.

Lemma struct_eq_done s s' : struct_eq s s' → done s' = done s.
Proof.
  intros (?&Hl&Hc&?&Hp&Ht&Hcf&?&?&?&?&Hs). unfold done, canceled.
  by rewrite Hl, Hc, Hp, Ht, Hcf, Hs.
Qed.

Lemma upd_only_refl e s : upd_only e s s.
Proof. split; [apply struct_eq_refl|]. split; [done|]. eauto. Qed.

Lemma upd_only_trans e s1 s2 s3 :
  upd_only e s1 s2 → upd_only e s2 s3 → upd_only e s1 s3.
Proof.
  intros (S1 & A1 & B1) (S2 & A2 & B2).
  split; [by eapply struct_eq_trans|]. split.
  - intros a Ha. by rewrite A2, A1.
  - intros x Hx. destruct (B1 x Hx) as (x' & Hx' & ? & ?).
    destruct (B2 x' Hx') as (x'' & Hx'' & ? & ?).
    exists x''. split; [done|]. split; congruence.
Qed.

Lemma upd_only_struct e s s' : upd_only e s s' → struct_eq s s'.
Proof. by intros []. Qed.

(** The outcomes of the reducer, case by case. *)
Lemma try_simplify_using_spec dst src clt s xd :
  src ≠ dst → heap s !! dst = Some xd →
  match try_simplify_using dst src clt s with
  | (Val (b, c), s') =>
      upd_only dst s s'
      ∧ if b then
          ∃ r, reduce (m_poly xd) (poly s src) = Some r
               ∧ r ≠ m_poly xd
               ∧ poly s' dst = r
               ∧ c = (bool_decide (m_state xd = processed)
                      && different_leading_term r (m_poly xd))
        else heap s' = heap s ∧ c = clt
  | (MemOut, s') =>
      upd_only dst s s' ∧ heap s' = heap s
      ∧ reduce (m_poly xd) (poly s src) = None
  | (Timeout, _) => False
  end.
Proof.
  intros Hne Hd. unfold try_simplify_using.
  destruct (decide (src = dst)) as [|_]; [done|].
  unfold bind, modify, get, alg, ret.
  change (poly (inc_simplified s) ?a) with (poly s a).
  change (deref (inc_simplified s) ?a) with (deref s a).
  assert (Hpd : poly s dst = m_poly xd).
  { unfold poly. by rewrite (deref_lookup _ _ _ Hd). }
  rewrite Hpd, (deref_lookup _ _ _ Hd).
  destruct (reduce _ _) as [r|]; cbn.
  2:{ split; [|done]. split; [by repeat split|]. split; [done|]. eauto. }
  destruct (decide (r = _)) as [->|Hr]; cbn.
  { split; [|done]. split; [by repeat split|]. split; [done|]. eauto. }
  destruct (is_too_complex r); cbn.
  { split; [|done]. split; [by repeat split|]. split; [done|]. eauto. }
  split.
  - split; [by repeat split|]. split.
    + intros a Ha. cbn. by rewrite !lookup_alter_ne.
    + intros x Hx. assert (x = xd) as -> by congruence.
      eexists. cbn. rewrite !lookup_alter_eq, Hd. cbn. done.
  - exists r. split; [done|]. split; [done|]. split; [|done].
    unfold poly, deref. cbn. by rewrite !lookup_alter_eq, Hd.
Qed.

End ReducerSpec.

Section SimplifyUsing.
Context {PM : PddManager} {PL : PddLaws PM}.
Implicit Types (h : gmap nat equation) (q sv ts : list ptr) (e t a : ptr).
Implicit Types (x : equation) (f : equation → equation).
Implicit Types (pm tm : ptr → Prop) (wl : nat → list ptr) (s : solver).

Lemma Qok_agree h h' st q :
  (∀ a, a ∈ q → (λ x, (m_state x, m_idx x)) <$> h' !! a
                = (λ x, (m_state x, m_idx x)) <$> h !! a) →
  Qok h st q → Qok h' st q.
Proof.
  intros Ha HQ i a Hi. destruct (HQ i a Hi) as (x & Hx & Hst & Hidx).
  specialize (Ha a (list_elem_of_lookup_2 _ _ _ Hi)). rewrite Hx in Ha. cbn in Ha.
  destruct (h' !! a) as [x'|]; [|done]. injection Ha as E1 E2.
  exists x'. split; [done|]. split; congruence.
Qed.

Lemma upd_only_agree e s s' a :
  upd_only e s s' →
  (λ x, (m_state x, m_idx x)) <$> heap s' !! a
  = (λ x, (m_state x, m_idx x)) <$> heap s !! a ∨ heap s !! a = None.
Proof.
  intros (_ & A & B). destruct (decide (a = e)) as [->|Hne].
  - destruct (heap s !! e) as [x|] eqn:Hx; [|by right]. left.
    destruct (B x eq_refl) as (x' & -> & E1 & E2). cbn. by rewrite E1, E2.
  - left. by rewrite A.
Qed.

Lemma Qok_upd_only e s s' st q :
  upd_only e s s' → Qok (heap s) st q → Qok (heap s') st q.
Proof.
  intros Hu HQ. eapply Qok_agree; [|done].
  intros a Ha. destruct (upd_only_agree e s s' a Hu) as [|Hn]; [done|].
  apply (Qok_in_heap _ _ _ _ HQ) in Ha. rewrite Hn in Ha. by destruct Ha.
Qed.

Lemma Qpart_upd_only e s s' P i j :
  upd_only e s s' → Qpart (heap s) P i j → Qpart (heap s') P i j.
Proof.
  intros Hu (H1 & H2 & H3). split; [done|]. split; [done|].
  intros k a Hk Ha. destruct (H3 k a Hk Ha) as (x & Hx & Hst & Hidx).
  destruct (upd_only_agree e s s' a Hu) as [He|Hn]; [|congruence].
  rewrite Hx in He. cbn in He.
  destruct (heap s' !! a) as [x'|]; [|done]. injection He as E1 E2.
  exists x'. split; [done|]. split; congruence.
Qed.

Lemma poly_upd_only_ne e s s' a : upd_only e s s' → a ≠ e → poly s' a = poly s a.
Proof. intros (_ & A & _) Hne. unfold poly, deref. by rewrite A. Qed.

Lemma deref_upd_only_ne e s s' a : upd_only e s s' → a ≠ e → deref s' a = deref s a.
Proof. intros (_ & A & _) Hne. unfold deref. by rewrite A. Qed.

Lemma upd_only_lookup e s s' x :
  upd_only e s s' → heap s !! e = Some x →
  heap s' !! e
  = Some (mk_equation (m_state x) (m_idx x) (poly s' e) (m_dep (deref s' e))).
Proof.
  intros (_ & _ & B) Hx. destruct (B x Hx) as (x' & Hx' & E1 & E2).
  unfold poly. rewrite (deref_lookup _ _ _ Hx'), Hx', <- E1, <- E2. by destruct x'.
Qed.

(** The invariant survives a rewrite of an equation that is outside the
    sets it speaks of. *)
Lemma G_upd_only s s' e x pm tm wl :
  upd_only e s s' → heap s !! e = Some x →
  e ∉ m_solved s → ¬ tm e → ¬ pm e →
  pdd_wf (poly s' e) →
  G s pm tm wl → G s' pm tm wl.
Proof.
  intros Hu Hx Hsv Htm Hpm Hwf HG. pose proof HG as Hrec. open_G Hrec.
  pose proof Hu as ((E1&E2&E3&E4&E5&E6&E7&E8&E9&E10&E11&E12) & A & B).
  eapply (G_store s); try done.
  - by rewrite E11.
  - by eapply Qok_upd_only.
  - by eapply Qok_upd_only.
  - intros a y Hy. destruct (decide (a = e)) as [->|Hne].
    + rewrite (upd_only_lookup _ _ _ _ Hu Hx) in Hy. by injection Hy as <-.
    + rewrite A in Hy by done. by eapply g_wf.
  - intros a Ha. apply g_fresh. destruct (decide (a = e)) as [->|Hne]; [eauto|].
    by rewrite <- A.
  - intros a Ha. unfold hpoly. rewrite A; [done|]. intros ->.
    destruct Ha as [?|[?|?]]; tauto.
Qed.

(** *** simplify_using(eq, eqs) *)

Lemma sources_ok_upd_only s s' e eqs :
  upd_only e s s' → sources_ok s e eqs → sources_ok s' e eqs.
Proof.
  intros (_ & A & _) [Hne Hs]. split; [done|].
  intros p Hp. destruct (Hs p Hp) as (xp & Hxp & Hw). exists xp.
  rewrite A; [done|]. by intros ->.
Qed.

Lemma sources_ok_cons s e p eqs :
  sources_ok s e (p :: eqs) → sources_ok s e eqs.
Proof.
  intros [Hne Hs]. split.
  - intros Hin. apply Hne. by right.
  - intros a Ha. apply Hs. by right.
Qed.

Lemma simplify_using_pass_spec e eqs flag s x :
  heap s !! e = Some x → sources_ok s e eqs →
  pdd_wf (m_poly x) → is_val (m_poly x) = false →
  match simplify_using_pass e eqs flag s with
  | (Val b, s') =>
      upd_only e s s' ∧ pdd_wf (poly s' e)
      ∧ pdd_rank (poly s' e) ≤ pdd_rank (m_poly x)
      ∧ (b = true → flag = true ∨ pdd_rank (poly s' e) < pdd_rank (m_poly x))
  | (MemOut, s') =>
      upd_only e s s' ∧ pdd_wf (poly s' e) ∧ is_val (poly s' e) = false
  | (Timeout, _) => False
  end.
Proof.
  revert flag s x. induction eqs as [|p eqs IH]; intros flag s x Hx Hsrc Hwf Hv.
  - cbn. unfold poly. rewrite (deref_lookup _ _ _ Hx).
    split; [apply upd_only_refl|]. split; [done|]. split; [lia|]. auto.
  - cbn [simplify_using_pass]. unfold bind at 1.
    assert (Hpe : p ≠ e).
    { intros ->. destruct Hsrc as [Hne _]. apply Hne. by left. }
    destruct Hsrc as [Hne Hs]. destruct (Hs p) as (xp & Hxp & Hwp); [by left|].
    pose proof (try_simplify_using_spec e p false s x Hpe Hx) as Hspec.
    destruct (try_simplify_using e p false s) as [[[b c]| |] s1]; [| |done].
    2:{ destruct Hspec as (Hu & Hh & _). split; [done|].
        unfold poly, deref. rewrite Hh, Hx. cbn. auto. }
    destruct Hspec as (Hu & Hb).
    assert (Hsrc1 : sources_ok s1 e (p :: eqs)).
    { eapply sources_ok_upd_only; [done|]. by split. }
    pose proof (upd_only_lookup _ _ _ _ Hu Hx) as Hx1.
    assert (Hr : pdd_wf (poly s1 e)
                 ∧ pdd_rank (poly s1 e) ≤ pdd_rank (m_poly x)
                 ∧ (b = true → pdd_rank (poly s1 e) < pdd_rank (m_poly x))).
    { destruct b.
      - destruct Hb as (r & Hred & Hrne & Hr & _). rewrite Hr.
        unfold poly in Hred. rewrite (deref_lookup _ _ _ Hxp) in Hred.
        pose proof (reduce_rank _ _ _ Hred Hrne).
        split; [exact (reduce_wf _ _ _ Hwf Hwp Hred)|]. split; [lia|done].
      - destruct Hb as [Hh _]. unfold poly, deref. rewrite Hh, Hx. cbn.
        split; [done|]. split; [lia|done]. }
    destruct Hr as (Hwf1 & Hle & Hlt).
    unfold bind, get.
    destruct (canceled s1 || is_val (poly s1 e)) eqn:Hbrk.
    + cbn. split; [done|]. split; [done|]. split; [done|].
      destruct b; [auto|]. intros ->. auto.
    + apply orb_false_iff in Hbrk as [_ Hv1].
      specialize (IH (if b then true else flag) s1 _ Hx1
                    (sources_ok_cons _ _ _ _ Hsrc1) Hwf1 Hv1).
      cbn [m_poly] in IH.
      destruct (simplify_using_pass e eqs _ s1) as [[b'| |] s2]; [| |done].
      * destruct IH as (Hu2 & Hwf2 & Hle2 & Hlt2).
        split; [by eapply upd_only_trans|]. split; [done|]. split; [lia|].
        intros ->. destruct (Hlt2 eq_refl) as [Hf|?]; [|right; lia].
        destruct b; [right; specialize (Hlt eq_refl); lia|by left].
      * destruct IH as (Hu2 & Hwf2 & Hv2).
        split; [by eapply upd_only_trans|]. done.
Qed.

Lemma simplify_using_loop_spec fuel e eqs s x :
  heap s !! e = Some x → sources_ok s e eqs →
  pdd_wf (m_poly x) → is_val (m_poly x) = false →
  pdd_rank (m_poly x) < fuel →
  match simplify_using_loop fuel e eqs s with
  | (Val _, s') => upd_only e s s' ∧ pdd_wf (poly s' e)
  | (MemOut, s') =>
      upd_only e s s' ∧ pdd_wf (poly s' e) ∧ is_val (poly s' e) = false
  | (Timeout, _) => False
  end.
Proof.
  revert s x. induction fuel as [|fuel IH]; intros s x Hx Hsrc Hwf Hv Hfuel; [lia|].
  cbn [simplify_using_loop]. unfold bind at 1.
  pose proof (simplify_using_pass_spec e eqs false s x Hx Hsrc Hwf Hv) as Hp.
  destruct (simplify_using_pass e eqs false s) as [[b| |] s1]; [| |done].
  2:{ done. }
  destruct Hp as (Hu & Hwf1 & Hle & Hlt).
  unfold bind, get.
  destruct (b && negb (is_val (poly s1 e))) eqn:Hb.
  - apply andb_true_iff in Hb as [-> Hv1%negb_true_iff].
    destruct (Hlt eq_refl) as [|Hlt']; [done|].
    pose proof (upd_only_lookup _ _ _ _ Hu Hx) as Hx1.
    specialize (IH s1 _ Hx1 (sources_ok_upd_only _ _ _ _ Hu Hsrc) Hwf1 Hv1).
    cbn [m_poly] in IH. specialize (IH ltac:(lia)).
    destruct (simplify_using_loop fuel e eqs s1) as [[[]| |] s2]; [| |done].
    + destruct IH. split; [by eapply upd_only_trans|done].
    + destruct IH as (?&?&?). split; [by eapply upd_only_trans|done].
  - cbn. done.
Qed.

Lemma simplify_using_spec e eqs s x :
  heap s !! e = Some x → sources_ok s e eqs →
  pdd_wf (m_poly x) → is_val (m_poly x) = false →
  match simplify_using e eqs s with
  | (Val _, s') => upd_only e s s' ∧ pdd_wf (poly s' e)
  | (MemOut, s') =>
      upd_only e s s' ∧ pdd_wf (poly s' e) ∧ is_val (poly s' e) = false
  | (Timeout, _) => False
  end.
Proof.
  intros Hx Hsrc Hwf Hv. unfold simplify_using, bind, get.
  apply (simplify_using_loop_spec _ e eqs s x); try done.
  unfold poly. rewrite (deref_lookup _ _ _ Hx). lia.
Qed.

End SimplifyUsing.

Section PickNext.
Context {PM : PddManager}.
Implicit Types (h : gmap nat equation) (q sv ts w : list ptr) (e t a : ptr).
Implicit Types (x : equation) (f : equation → equation).
Implicit Types (pm tm : ptr → Prop) (wl : nat → list ptr) (s : solver).

(** *** vector::erase *)

Lemma elem_of_erase_1 e a w : a ∈ erase e w → a ∈ w.
Proof.
  induction w as [|b w IH]; cbn; [done|].
  destruct (decide (b = e)); [by right|].
  intros [->|Ha]%elem_of_cons; [by left|right; auto].
Qed.

Lemma elem_of_erase e a w : NoDup w → a ∈ erase e w ↔ a ∈ w ∧ a ≠ e.
Proof.
  induction w as [|b w IH]; cbn; intros Hnd.
  - split; [by intros ?%elem_of_nil|by intros [?%elem_of_nil _]].
  - apply NoDup_cons in Hnd as [Hb Hnd].
    destruct (decide (b = e)) as [->|Hne].
    + split.
      * intros Ha. split; [by right|]. by intros ->.
      * intros [[->|Ha]%elem_of_cons Hae]; done.
    + rewrite !elem_of_cons, IH by done. split.
      * intros [->|[Ha Hae]]; [split; [by left|done]|split; [by right|done]].
      * intros [[->|Ha] Hae]; [by left|right; done].
Qed.

Lemma NoDup_erase e w : NoDup w → NoDup (erase e w).
Proof.
  induction w as [|b w IH]; cbn; intros Hnd; [done|].
  apply NoDup_cons in Hnd as [Hb Hnd].
  destruct (decide (b = e)); [done|].
  apply NoDup_cons. split; [|auto]. intros Hin%elem_of_erase_1. done.
Qed.

(** *** The scan of one watch list *)

Lemma pick_in_watch_fold s v w : pick_in_watch s v w = foldl (pick_step s v) None w.
Proof. reflexivity. Qed.

Lemma pick_step_eligible s v best curr :
  pick_step s v best curr = best
  ∨ (pick_step s v best curr = Some curr ∧ eligible s v curr).
Proof.
  unfold pick_step.
  destruct (bool_decide _ && bool_decide _) eqn:Hb; [|by left].
  apply andb_true_iff in Hb as [H1%bool_decide_eq_true H2%bool_decide_eq_true].
  destruct best as [b|]; [|by right].
  destruct (is_simpler s curr b); [by right|by left].
Qed.

Lemma pick_fold_Some s v w best e :
  foldl (pick_step s v) best w = Some e →
  best = Some e ∨ (e ∈ w ∧ eligible s v e).
Proof.
  revert best. induction w as [|c w IH]; cbn; intros best Hf; [by left|].
  destruct (IH _ Hf) as [Hb|[Hin He]].
  - destruct (pick_step_eligible s v best c) as [Heq|[Heq Hel]].
    + left. congruence.
    + right. rewrite Heq in Hb. injection Hb as <-. split; [by left|done].
  - right. split; [by right|done].
Qed.

Lemma pick_fold_None s v w best :
  foldl (pick_step s v) best w = None →
  best = None ∧ ∀ a, a ∈ w → ¬ eligible s v a.
Proof.
  revert best. induction w as [|c w IH]; cbn; intros best Hf.
  - split; [done|]. by intros a ?%elem_of_nil.
  - destruct (IH _ Hf) as [Hb Hno].
    unfold pick_step in Hb.
    destruct (bool_decide _ && bool_decide _) eqn:Hc.
    + destruct best as [b|]; [|done]. by destruct (is_simpler s c b).
    + split; [done|]. intros a [->|Ha]%elem_of_cons; [|by apply Hno].
      intros [H1 H2]. apply andb_false_iff in Hc as [Hc|Hc];
        apply bool_decide_eq_false in Hc; done.
Qed.

Lemma pick_in_watch_Some s v w e :
  pick_in_watch s v w = Some e → e ∈ w ∧ eligible s v e.
Proof.
  rewrite pick_in_watch_fold. intros Hf.
  by destruct (pick_fold_Some _ _ _ _ _ Hf) as [|].
Qed.

Lemma pick_in_watch_None s v w a :
  pick_in_watch s v w = None → a ∈ w → ¬ eligible s v a.
Proof.
  rewrite pick_in_watch_fold. intros Hf Ha.
  by apply (pick_fold_None _ _ _ _ Hf).
Qed.

(** *** Watch lists of a state *)

Lemma watch_of_in_range s v a : a ∈ watch_of s v → v < length (m_watch s).
Proof.
  unfold watch_of. intros Ha.
  destruct (decide (v < length (m_watch s))) as [|Hge]; [done|].
  rewrite list_lookup_total_alt, lookup_ge_None_2 in Ha by lia.
  by apply elem_of_nil in Ha.
Qed.

Lemma watch_of_set s v v' w :
  v < length (m_watch s) →
  watch_of (set_watch_of v w s) v' = if decide (v' = v) then w else watch_of s v'.
Proof.
  intros Hv. unfold watch_of, set_watch_of; cbn.
  destruct (decide (v' = v)) as [->|Hne].
  - apply list_lookup_total_correct. by apply list_lookup_insert_eq.
  - by rewrite list_lookup_total_insert_ne.
Qed.

Lemma add_to_watch_fields s t :
  let s' := add_to_watch t s in
  heap s' = heap s ∧ m_to_simplify s' = m_to_simplify s
  ∧ m_processed s' = m_processed s ∧ m_solved s' = m_solved s
  ∧ m_conflict s' = m_conflict s ∧ m_levelp1 s' = m_levelp1 s
  ∧ next_ptr s' = next_ptr s ∧ m_stats s' = m_stats s
  ∧ m_config s' = m_config s ∧ m_limit s' = m_limit s.
Proof. unfold add_to_watch. by destruct (is_val (poly s t)). Qed.

Lemma pop_heap_lookup_self h st q e x :
  Qok h st q → h !! e = Some x → e ∈ q →
  pop_heap h q (m_idx x) !! e = Some x.
Proof.
  intros HQ Hx He. unfold pop_heap. destruct (decide _) as [Hne|]; [|done].
  rewrite lookup_alter_ne; [done|]. intros Heq.
  destruct (Qok_lookup _ _ _ _ HQ He) as (x' & Hx' & _ & Hqe).
  assert (x' = x) as -> by congruence.
  pose proof (lookup_lt_Some _ _ _ Hqe).
  assert (q !! (length q - 1) = Some e) as Hlast.
  { rewrite <- Heq. apply list_lookup_lookup_total_lt. lia. }
  pose proof (NoDup_lookup _ _ _ _ (Qok_NoDup _ _ _ HQ) Hqe Hlast). lia.
Qed.

(** *** pick_next *)

Lemma pick_next_loop_spec l s pm :
  m_levelp1 s = l →
  G s pm (.∈ m_to_simplify s) (watch_of s) →
  match pick_next_loop l s with
  | (None, s') => s' = set_levelp1 0 s ∧ m_to_simplify s = []
  | (Some e, s') =>
      ∃ x, heap s !! e = Some x ∧ e ∈ m_to_simplify s
           ∧ Det s' e x
           ∧ is_val (m_poly x) = false
           ∧ G s' pm (.∈ m_to_simplify s') (watch_of s')
           ∧ (∀ a, hpoly (heap s') a = hpoly (heap s) a)
           ∧ (∀ st q, st ≠ to_simplify → Qok (heap s) st q → Qok (heap s') st q)
           ∧ (∀ a, a ∈ m_to_simplify s' ↔ a ∈ m_to_simplify s ∧ a ≠ e)
           ∧ m_solved s' = m_solved s ∧ m_processed s' = m_processed s
           ∧ m_conflict s' = m_conflict s ∧ m_stats s' = m_stats s
           ∧ m_config s' = m_config s ∧ m_limit s' = m_limit s
           ∧ next_ptr s' = next_ptr s
  end.
Proof.
  revert s. induction l as [|l IH]; intros s Hl HG; cbn [pick_next_loop].
  { split; [destruct s; cbn in *; by subst|].
    destruct (m_to_simplify s) as [|a ts] eqn:Hts; [done|].
    destruct (g_level _ _ _ _ HG a) as (i & Hi & _); [|lia].
    by left. }
  pose proof HG as Hrec. open_G Hrec.
  set (v := m_level2var s !!! l).
  destruct (pick_in_watch s v (watch_of s v)) as [e|] eqn:Hpick.
  - apply pick_in_watch_Some in Hpick as [Hin [Hst Hvar]].
    pose proof (Wok_member _ _ _ _ _ g_watch Hin) as Hts.
    destruct (Qok_lookup _ _ _ _ g_to_simplify Hts) as (x & Hx & Hxst & Hqe).
    pose proof (heap_pop_ts s e x Hx Hxst) as Eh.
    pose proof (queue_pop_ts s e x Hx Hxst) as Eq.
    destruct (pop_ts_others s e x Hx Hxst)
      as (E1 & E2 & E3 & E4 & E5 & E6 & E7 & E8 & E9 & E10 & E11 & E12).
    set (s1 := pop_equation e s) in *.
    assert (Hp1 : ∀ a, hpoly (heap s1) a = hpoly (heap s) a).
    { intros a. rewrite Eh. apply hpoly_pop. }
    assert (Hw : var (poly s1 e) = v).
    { rewrite poly_hpoly, Hp1. exact Hvar. }
    rewrite Hw.
    assert (Hrange : v < length (m_watch s1)).
    { rewrite E8. by eapply watch_of_in_range. }
    assert (Hmem : ∀ a, a ∈ m_to_simplify s1 ↔ a ∈ m_to_simplify s ∧ a ≠ e).
    { intros a. rewrite Eq. by eapply pop_list_elem. }
    assert (Hwo : ∀ v', watch_of s1 v' = watch_of s v').
    { intros v'. unfold watch_of. by rewrite E8. }
    exists x. split; [done|]. split; [done|]. split; [|split; [|split]].
    + split; [|split; [done|]].
      * cbn. rewrite Eh. by eapply pop_heap_lookup_self.
      * cbn. intros [_ ?]%Hmem. done.
    + rewrite <- (hpoly_lookup _ _ _ Hx). by apply g_nonconst_ts.
    + set (wl' := λ v', if decide (v' = v) then erase e (watch_of s v)
                        else watch_of s v').
      assert (HG1 : G s pm (λ a, a ∈ m_to_simplify s ∧ a ≠ e) wl').
      { apply (G_tm_remove s e pm _ (watch_of s)); [| |exact HG].
        - intros v' a. unfold wl'. destruct (decide (v' = v)) as [->|Hne].
          + apply elem_of_erase. by destruct g_watch as (_ & ? & _).
          + split; [|tauto]. intros Ha. split; [done|]. intros ->.
            pose proof (Wok_var _ _ _ _ _ g_watch Ha) as Hv'.
            change (hpoly (heap s) e) with (poly s e) in Hv'. congruence.
        - intros v'. unfold wl'. destruct g_watch as (_ & Hnd & _).
          destruct (decide (v' = v)); [by apply NoDup_erase|done]. }
      assert (HG2 : G s1 pm (λ a, a ∈ m_to_simplify s ∧ a ≠ e) wl').
      { eapply G_pop; [done|done|done| |exact HG1]. tauto. }
      apply G_set_watch_of.
      eapply G_equiv; [| | |exact HG2].
      * done.
      * intros a. cbn. symmetry. apply Hmem.
      * intros v'. rewrite watch_of_set by done. by rewrite !Hwo.
    + split; [done|]. split.
      { intros st q Hne HQ. cbn. rewrite Eh.
        eapply Qok_pop_other; [| |exact g_to_simplify|exact HQ]; [done|].
        by eapply lookup_lt_Some. }
      split; [exact Hmem|]. done.
  - assert (HL : Lok (heap s) (.∈ m_to_simplify s) l).
    { intros a Ha. destruct (g_level a Ha) as (i & Hi & Hlv).
      exists i. split; [|done].
      destruct (decide (i = l)) as [->|]; [|lia]. exfalso.
      destruct g_levels as (L1 & _).
      assert (v = var (hpoly (heap s) a)) as Hv.
      { unfold v. rewrite L1. by apply list_lookup_total_correct. }
      destruct g_watch as (_ & _ & H3). specialize (H3 a Ha). rewrite <- Hv in H3.
      eapply pick_in_watch_None; [exact Hpick|exact H3|].
      split; [|by rewrite poly_hpoly].
      destruct (Qok_lookup _ _ _ _ g_to_simplify Ha) as (y & Hy & Hyst & _).
      by rewrite (deref_lookup _ _ _ Hy). }
    specialize (IH (set_levelp1 l s) eq_refl (G_set_levelp1 _ _ _ _ _ HL HG)).
    destruct (pick_next_loop l (set_levelp1 l s)) as [[e|] s'].
    + exact IH.
    + destruct IH as [-> Hts]. done.
Qed.

End PickNext.

(** ** The reducer and add *)

Section Reducer.
Context {PM : PddManager}.
Implicit Types (s : solver) (e dst src : ptr).

Lemma inc_simplified_heap s : heap (inc_simplified s) = heap s.
Proof. reflexivity. Qed.

Lemma poly_inc_simplified s e : poly (inc_simplified s) e = poly s e.
Proof. reflexivity. Qed.

(** Whatever the outcome, a call on two distinct equations has counted
    one more attempt. *)
Lemma try_simplify_using_counts dst src clt s :
  src ≠ dst →
  m_simplified (m_stats (try_simplify_using dst src clt s).2)
  = wrap32 (m_simplified (m_stats s) + 1).
Proof.
  intros Hne. unfold try_simplify_using.
  destruct (decide (src = dst)) as [|_]; [done|].
  unfold bind, modify, get, alg, ret; cbn.
  destruct (reduce _ _) as [r|]; cbn; [|done].
  destruct (decide (r = _)); cbn; [done|].
  destruct (is_too_complex r); cbn; done.
Qed.

(** C7: a reduction that changes the polynomial but is judged too complex
    raises the too_complex flag, returns false, and leaves every equation
    (in particular the polynomial and the dependency of the target) as it
    was. *)
Theorem try_simplify_using_too_complex dst src clt s r :
  src ≠ dst →
  reduce (poly s dst) (poly s src) = Some r →
  r ≠ poly s dst →
  is_too_complex r = true →
  ∃ s', try_simplify_using dst src clt s = (Val (false, clt), s')
        ∧ m_too_complex s' = true
        ∧ heap s' = heap s
        ∧ poly s' dst = poly s dst
        ∧ m_dep (deref s' dst) = m_dep (deref s dst).
Proof.
  intros Hne Hred Hr Htc.
  unfold try_simplify_using.
  destruct (decide (src = dst)) as [|_]; [done|].
  unfold bind, modify, get, alg, ret; cbn.
  rewrite poly_inc_simplified in *.
  change (poly (inc_simplified s) src) with (poly s src).
  rewrite Hred; cbn.
  destruct (decide (r = _)) as [|_]; [done|].
  rewrite Htc; cbn.
  eexists; split; [reflexivity|]. by repeat split.
Qed.

(** C10: every call on two distinct equations adds one (modulo 2^32) to
    the [simplified] counter, whether the call reduces, finds nothing to
    reduce, abandons the result as too complex or is cut short by mem_out;
    it is this counter that collect_statistics reports, so the reported
    figure counts attempts. *)
Theorem simplified_counts_attempts dst src clt s :
  src ≠ dst →
  let s' := (try_simplify_using dst src clt s).2 in
  m_simplified (m_stats s') = wrap32 (m_simplified (m_stats s) + 1)
  ∧ ("dd.solver.simplified"%string, wrap32 (m_simplified (m_stats s) + 1))
      ∈ collect_statistics s'.
Proof.
  intros Hne s'. pose proof (try_simplify_using_counts dst src clt s Hne) as H.
  split; [exact H|].
  unfold collect_statistics. fold s' in H. rewrite <- H.
  right. left.
Qed.

End Reducer.

Section Add.
Context {PM : PddManager}.
Implicit Types (s : solver) (e : ptr).

Lemma poly_alloc p d s : poly (alloc p d s).2 (next_ptr s) = p.
Proof. unfold poly, deref, alloc; cbn. by rewrite lookup_insert_eq. Qed.

Lemma watch_of_set_eq v w s :
  v < length (m_watch s) → watch_of (set_watch_of v w s) v = w.
Proof.
  intros Hv. unfold watch_of, set_watch_of; cbn.
  apply list_lookup_total_correct. by apply list_lookup_insert_eq.
Qed.

Lemma watch_of_set_ne v v' w s :
  v ≠ v' → watch_of (set_watch_of v w s) v' = watch_of s v'.
Proof.
  intros Hv. unfold watch_of, set_watch_of; cbn.
  by rewrite list_lookup_total_insert_ne.
Qed.

Lemma add_zero p d s : is_zero p = true → add p d s = s.
Proof. unfold add. by intros ->. Qed.

Lemma add_const p d s :
  is_zero p = false → is_val p = true →
  add p d s = set_conflict (next_ptr s) (alloc p d s).2.
Proof.
  intros Hz Hv. unfold add. rewrite Hz.
  change (alloc p d s) with (next_ptr s, (alloc p d s).2).
  cbv beta iota. unfold check_conflict, is_conflict, is_trivial.
  by rewrite poly_alloc, Hv, Hz.
Qed.

Lemma add_nonconst p d s :
  is_val p = false →
  is_zero p = false →
  add p d s =
  let e := next_ptr s in
  let s3 := push_equation to_simplify e (alloc p d s).2 in
  update_stats_max_degree_and_size e
    (if bool_decide (m_watch s3 ≠ [])
     then add_to_watch e (raise_level (var p) s3) else s3).
Proof.
  intros Hv Hz. unfold add. rewrite Hz.
  change (alloc p d s) with (next_ptr s, (alloc p d s).2).
  cbv beta iota. unfold check_conflict, is_conflict, is_trivial.
  by rewrite poly_alloc, Hv.
Qed.

Lemma heap_push_alloc p d s st :
  heap (push_equation st (next_ptr s) (alloc p d s).2) !! next_ptr s
  = Some (mk_equation st (length (queue st s)) p d).
Proof.
  unfold push_equation, upd, alloc.
  destruct st; cbn; by rewrite !lookup_alter_eq, lookup_insert_eq.
Qed.

(** C6: [add] ignores the zero polynomial; on a non-zero constant it
    records the conflict (the new equation goes to the solved queue) and
    touches neither the to-simplify queue nor the watch index; on any
    other polynomial it appends the new equation to the to-simplify queue
    and, when the watch index is in place, to the watch list of its
    leading variable, raising [m_levelp1] to at least the level of that
    variable plus one. *)
Theorem add_spec p d s :
  let s' := add p d s in
  let e := next_ptr s in
  (is_zero p = true → s' = s)
  ∧ (is_zero p = false → is_val p = true →
       m_conflict s' = Some e
       ∧ poly s' e = p
       ∧ m_solved s' = m_solved s ++ [e]
       ∧ m_to_simplify s' = m_to_simplify s
       ∧ m_watch s' = m_watch s
       ∧ m_levelp1 s' = m_levelp1 s)
  ∧ (is_zero p = false → is_val p = false →
       m_to_simplify s' = m_to_simplify s ++ [e]
       ∧ heap s' !! e
         = Some (mk_equation to_simplify (length (m_to_simplify s)) p d)
       ∧ m_conflict s' = m_conflict s
       ∧ m_solved s' = m_solved s
       ∧ (m_watch s ≠ [] → var p < length (m_watch s) →
            watch_of s' (var p) = watch_of s (var p) ++ [e]
            ∧ (∀ v, v ≠ var p → watch_of s' v = watch_of s v)
            ∧ m_levelp1 s'
              = ((m_var2level s !!! var p) + 1) `max` m_levelp1 s
            ∧ (m_var2level s !!! var p) + 1 ≤ m_levelp1 s')
       ∧ (m_watch s = [] →
            m_watch s' = [] ∧ m_levelp1 s' = m_levelp1 s)).
Proof.
  intros s' e. subst s' e.
  split; [apply add_zero|]. split.
  - intros Hz Hv. rewrite add_const by done.
    pose proof (heap_push_alloc p d s solved) as Hh.
    repeat split; try done.
    unfold poly. unfold set_conflict.
    by erewrite deref_lookup by exact Hh.
  - intros Hz Hv. rewrite add_nonconst by done. cbv zeta.
    set (e := next_ptr s).
    set (s3 := push_equation to_simplify e _).
    pose proof (heap_push_alloc p d s to_simplify) as Hh. fold e s3 in Hh.
    assert (Hp3 : poly s3 e = p).
    { unfold poly. by rewrite (deref_lookup _ _ _ Hh). }
    assert (Hw3 : m_watch s3 = m_watch s) by done.
    assert (Hts : m_to_simplify s3 = m_to_simplify s ++ [e]) by done.
    rewrite Hw3.
    case_bool_decide as Hne.
    + unfold add_to_watch.
      change (poly (raise_level (var p) s3) e) with (poly s3 e).
      rewrite Hp3, Hv.
      change (watch_of (raise_level (var p) s3) (var p))
        with (watch_of s (var p)).
      repeat split; try done.
      * change (watch_of (update_stats_max_degree_and_size ?a ?t) ?v)
          with (watch_of t v).
        by rewrite watch_of_set_eq.
      * intros v Hvne.
        change (watch_of (update_stats_max_degree_and_size ?a ?t) ?v)
          with (watch_of t v).
        by rewrite watch_of_set_ne.
      * cbn. lia.
    + repeat split; try done.
Qed.

End Add.

Section Superpose.
Context {PM : PddManager} {PL : PddLaws PM}.
Implicit Types (h : gmap nat equation) (q sv ts w : list ptr) (e t a : ptr).
Implicit Types (x : equation) (f : equation → equation).
Implicit Types (pm tm : ptr → Prop) (wl : nat → list ptr) (s : solver).

Lemma LVok_watch_nonempty s p :
  LVok s → pdd_wf p → is_val p = false → m_watch s ≠ [].
Proof.
  intros (_ & _ & L3) Hw Hv Hnil. pose proof (var_bound p Hw Hv) as Hb.
  rewrite <- L3, Hnil in Hb. cbn in Hb. lia.
Qed.

Lemma LVok_var_range s p :
  LVok s → pdd_wf p → is_val p = false → var p < length (m_watch s).
Proof. intros (_ & _ & L3) Hw Hv. rewrite L3. by apply var_bound. Qed.

(** An equation enters the to-simplify queue and the watch index. *)
Lemma G_enqueue s t x pm :
  heap s !! t = Some x → t ∉ m_solved s → t ∉ m_to_simplify s →
  is_val (m_poly x) = false →
  G s pm (.∈ m_to_simplify s) (watch_of s) →
  let s3 := push_equation to_simplify t s in
  let s' := if bool_decide (m_watch s3 ≠ [])
            then add_to_watch t (raise_level (var (m_poly x)) s3) else s3 in
  G s' pm (.∈ m_to_simplify s') (watch_of s').
Proof.
  intros Hx Hsv Hts Hv HG s3 s'.
  pose proof (g_wf _ _ _ _ HG _ _ Hx) as Hwf.
  assert (HG3 : G s3 pm (.∈ m_to_simplify s) (watch_of s)).
  { eapply G_push; eauto. done. }
  assert (Hne : m_watch s3 ≠ []).
  { eapply LVok_watch_nonempty; [apply HG3|done..]. }
  subst s'. rewrite bool_decide_eq_true_2 by done.
  set (v := var (m_poly x)).
  set (s4 := raise_level v s3).
  assert (Hp4 : poly s4 t = m_poly x).
  { unfold poly. change (deref s4 t) with (deref s3 t).
    unfold deref, s3. rewrite heap_push. cbn.
    by erewrite push_heap_lookup by done. }
  unfold add_to_watch. rewrite Hp4, Hv. fold v.
  assert (HG4 : G s4 pm (.∈ m_to_simplify s) (watch_of s)).
  { by apply G_raise_level. }
  set (s5 := set_watch_of v _ s4).
  assert (HG5 : G s5 pm (.∈ m_to_simplify s) (watch_of s)).
  { by apply G_set_watch_of. }
  assert (Hrange : v < length (m_watch s4)).
  { eapply LVok_var_range; [apply HG4|done..]. }
  assert (Hp5 : hpoly (heap s5) t = m_poly x) by exact Hp4.
  eapply G_equiv; [| |
    |eapply (G_tm_add s5 t); [| | | |exact HG5]].
  - done.
  - intros a. cbn. rewrite elem_of_app, list_elem_of_singleton. done.
  - intros v'. cbn beta. rewrite Hp5. fold v.
    unfold s5. rewrite watch_of_set by done.
    by destruct (decide (v' = v)) as [->|].
  - cbn. apply elem_of_app. right. by left.
  - done.
  - by rewrite Hp5.
  - rewrite Hp5. change (m_levelp1 s5) with (m_levelp1 (raise_level v s3)).
    apply raise_level_bound; [apply HG3|done..].
Qed.

Lemma extends_refl s : extends s s.
Proof. repeat split; auto. Qed.

Lemma extends_same s s' :
  heap s' = heap s → m_processed s' = m_processed s →
  m_to_simplify s' = m_to_simplify s → m_limit s' = m_limit s →
  m_config s' = m_config s →
  m_compute_steps (m_stats s') = m_compute_steps (m_stats s) →
  extends s s'.
Proof.
  intros Hh Hp Ht Hl Hc Hs. split; [by rewrite Hh|]. split; [done|].
  split; [|done]. intros a. rewrite Ht. auto.
Qed.

Lemma extends_trans s1 s2 s3 : extends s1 s2 → extends s2 s3 → extends s1 s3.
Proof.
  intros (A1&B1&C1&D1&E1&F1) (A2&B2&C2&D2&E2&F2).
  split; [auto|]. split; [congruence|]. split; [|split; [|split]]; try congruence.
  intros a Ha. destruct (C2 a Ha) as [Ha2|Hn].
  - auto.
  - right. destruct (heap s1 !! a) as [y|] eqn:Hy; [|done].
    apply A1 in Hy. congruence.
Qed.

Lemma extends_Det s s' e x : extends s s' → Det s e x → Det s' e x.
Proof.
  intros (A&_&C&_) (Hx & Hst & Hts). split; [auto|]. split; [done|].
  intros [?|?]%C; [done|congruence].
Qed.

Lemma extends_Qok s s' st q :
  extends s s' → Qok (heap s) st q → Qok (heap s') st q.
Proof.
  intros (A&_) HQ i a Hi. destruct (HQ i a Hi) as (y & Hy & ? & ?).
  exists y. auto.
Qed.

Lemma extends_done s s' :
  extends s s' → m_conflict s' = m_conflict s →
  length (m_to_simplify s') = length (m_to_simplify s) → done s' = done s.
Proof.
  intros (_&B&_&D&E&F) Hc Hl. unfold done, canceled.
  by rewrite B, D, E, F, Hc, Hl.
Qed.

Lemma add_extends s p d pm tm wl :
  G s pm tm wl → extends s (add p d s).
Proof.
  intros HG. pose proof (FRok_fresh _ _ (g_fresh _ _ _ _ HG)) as Hfresh.
  unfold add. destruct (is_zero p); [apply extends_refl|].
  change (alloc p d s) with (next_ptr s, (alloc p d s).2). cbv beta iota.
  assert (Hold : ∀ a y, heap s !! a = Some y → a ≠ next_ptr s) by (intros; congruence).
  unfold check_conflict. destruct (is_conflict _ _).
  - split; [|split; [done|split; [by left|done]]]. intros a y Hy. cbn.
    rewrite !lookup_alter_ne, lookup_insert_ne by (symmetry; eauto). done.
  - set (s3 := push_equation to_simplify _ _).
    assert (E3 : extends s s3).
    { split; [|split; [done|split; [|done]]].
      - intros a y Hy. cbn.
        rewrite !lookup_alter_ne, lookup_insert_ne by (symmetry; eauto). done.
      - intros a [?| ->%list_elem_of_singleton]%elem_of_app; auto. }
    destruct (bool_decide _); [|exact E3].
    unfold add_to_watch. destruct (is_val _); exact E3.
Qed.

Lemma G_add s p d pm :
  pdd_wf p → (∀ a, pm a → is_Some (heap s !! a)) →
  G s pm (.∈ m_to_simplify s) (watch_of s) →
  G (add p d s) pm (.∈ m_to_simplify (add p d s)) (watch_of (add p d s)).
Proof.
  intros Hwf Hpm HG.
  pose proof (FRok_fresh _ _ (g_fresh _ _ _ _ HG)) as Hfresh.
  assert (Hnpm : ¬ pm (next_ptr s)).
  { intros [y Hy]%Hpm. congruence. }
  pose proof (G_alloc s p d _ _ _ Hwf Hnpm HG) as HG1.
  assert (Hx1 : heap (alloc p d s).2 !! next_ptr s
                = Some (mk_equation to_simplify 0 p d)).
  { cbn. by rewrite lookup_insert_eq. }
  assert (Hsv : next_ptr s ∉ m_solved s).
  { intros Hin%(Qok_in_heap _ _ _ _ (g_solved _ _ _ _ HG)).
    rewrite Hfresh in Hin. by destruct Hin. }
  assert (Hts : next_ptr s ∉ m_to_simplify s).
  { intros Hin%(Qok_in_heap _ _ _ _ (g_to_simplify _ _ _ _ HG)).
    rewrite Hfresh in Hin. by destruct Hin. }
  destruct (is_zero p) eqn:Hz; [by rewrite add_zero|].
  destruct (is_val p) eqn:Hv.
  - rewrite add_const by done.
    eapply (G_set_conflict _ _ _ _ _ _ Hx1); try done.
  - rewrite add_nonconst by done. cbv zeta.
    pose proof (G_enqueue _ _ _ pm Hx1 Hsv Hts Hv HG1) as HG2.
    cbv zeta in HG2. cbn [m_poly] in HG2.
    eapply G_same; [..|exact HG2]; done.
Qed.

Lemma mid_ok_extends s s' e x :
  extends s s' →
  G s' (.∈ m_processed s) (.∈ m_to_simplify s') (watch_of s') →
  mid_ok s e x → mid_ok s' e x.
Proof.
  intros Hext HG (_ & HQ & HD). pose proof Hext as (_ & Hp & _).
  split; [by rewrite Hp|]. split; [rewrite Hp; by eapply extends_Qok|].
  by eapply extends_Det.
Qed.

Lemma mid_ok_same s s' e x :
  heap s' = heap s → next_ptr s' = next_ptr s →
  m_solved s' = m_solved s → m_to_simplify s' = m_to_simplify s →
  m_processed s' = m_processed s →
  m_conflict s' = m_conflict s → m_levelp1 s' = m_levelp1 s →
  m_level2var s' = m_level2var s → m_var2level s' = m_var2level s →
  m_watch s' = m_watch s →
  mid_ok s e x → mid_ok s' e x.
Proof.
  intros Hh Hn Hsv Hts Hpr Hcf Hl Hlv Hvl Hw (HG & HQ & HD).
  split; [|split].
  - rewrite Hpr, Hts.
    assert (watch_of s' = watch_of s) as -> by (unfold watch_of; by rewrite Hw).
    eapply G_same; [..|exact HG]; try done. by rewrite Hw.
  - by rewrite Hh, Hpr.
  - destruct HD as (?&?&?). split; [by rewrite Hh|]. split; [done|by rewrite Hts].
Qed.

Lemma superpose2_spec e t s x :
  mid_ok s e x → t ∈ m_processed s →
  post_any (superpose2 e t s) (λ s', mid_ok s' e x ∧ extends s s').
Proof.
  intros Hmid Ht. pose proof Hmid as (HG & HQ & HD).
  pose proof HD as (Hx & _).
  destruct (Qok_lookup _ _ _ _ HQ Ht) as (xt & Hxt & _).
  unfold superpose2, bind, get, alg.
  unfold poly. rewrite (deref_lookup _ _ _ Hx), (deref_lookup _ _ _ Hxt).
  pose proof (g_wf _ _ _ _ HG _ _ Hx) as Hwe.
  pose proof (g_wf _ _ _ _ HG _ _ Hxt) as Hwt.
  destruct (try_spoly _ _) as [[r|]|] eqn:Hsp; cbn.
  - destruct (is_zero r); cbn; [split; [done|apply extends_refl]|].
    destruct (is_too_complex r); cbn.
    + split; [by apply (mid_ok_same s)|by apply extends_same].
    + set (s1 := inc_superposed s).
      assert (Hmid1 : mid_ok s1 e x) by by apply (mid_ok_same s).
      destruct Hmid1 as (HG1 & HQ1 & HD1).
      assert (Hext : extends s1 (add r (mk_join (m_dep x) (m_dep xt)) s1)).
      { eapply add_extends, HG1. }
      split.
      * eapply mid_ok_extends; [exact Hext| |by split].
        apply G_add; [exact (spoly_wf _ _ _ Hwe Hwt Hsp)| |done].
        intros a Ha. by eapply Qok_in_heap.
      * eapply extends_trans; [|exact Hext]. by apply extends_same.
  - split; [done|apply extends_refl].
  - split; [done|apply extends_refl].
Qed.

Lemma superpose_loop_spec e targets s x :
  mid_ok s e x → (∀ t, t ∈ targets → t ∈ m_processed s) →
  post_any (superpose_loop e targets s) (λ s', mid_ok s' e x ∧ extends s s').
Proof.
  revert s. induction targets as [|t targets IH]; intros s Hmid Hsub; cbn.
  { split; [done|apply extends_refl]. }
  unfold bind.
  pose proof (superpose2_spec e t s x Hmid (Hsub t ltac:(by left))) as H2.
  destruct (superpose2 e t s) as [[[]| |] s1]; cbn in H2; [|done|done].
  destruct H2 as [Hmid1 Hext1].
  assert (Hsub1 : ∀ t', t' ∈ targets → t' ∈ m_processed s1).
  { intros t' Ht'. destruct Hext1 as (_ & -> & _). apply Hsub. by right. }
  specialize (IH s1 Hmid1 Hsub1).
  destruct (superpose_loop e targets s1) as [[[]| |] s2]; cbn in *; [| |done].
  - destruct IH. split; [done|by eapply extends_trans].
  - destruct IH. split; [done|by eapply extends_trans].
Qed.

Lemma superpose_spec e s x :
  mid_ok s e x →
  post_any (superpose e s) (λ s', mid_ok s' e x ∧ extends s s').
Proof.
  intros Hmid. unfold superpose, bind, get. by apply superpose_loop_spec.
Qed.

End Superpose.

Section SimplifySet.
Context {PM : PddManager} {PL : PddLaws PM}.
Implicit Types (h : gmap nat equation) (q sv ts w P : list ptr) (e t a : ptr).
Implicit Types (x : equation) (f : equation → equation).
Implicit Types (pm tm : ptr → Prop) (wl : nat → list ptr) (s : solver).

Lemma simplify_target_unfold t e s :
  simplify_target t e s =
  match (if done s then (Val (false, false), s)
         else try_simplify_using t e false s) with
  | (Val (b, c), s1) => let '(k, s2) := after_reduce t b c s1 in (Val k, s2)
  | (MemOut, s1) => (MemOut, s1)
  | (Timeout, s1) => (Timeout, s1)
  end.
Proof.
  unfold simplify_target, bind at 1, get.
  unfold bind at 1.
  destruct (done s).
  - cbn. reflexivity.
  - destruct (try_simplify_using t e false s) as [[[b c]| |] s1]; [|done|done].
    unfold bind, get, after_reduce, check_conflict, call, modify, ret.
    destruct b; cbn [andb]; [|done].
    destruct (is_trivial s1 t); [done|].
    destruct (is_conflict s1 t); [done|].
    destruct c; [|done].
    by destruct (bool_decide _).
Qed.

(** *** The vector in mid-compaction *)

Lemma drop_head P i :
  i < length P → drop i P = (P !!! i) :: drop (S i) P.
Proof.
  intros Hi. apply drop_S. by apply list_lookup_lookup_total_lt.
Qed.

Lemma set_members_step P i j a :
  i < length P →
  set_members P i j a ↔ set_members P (S i) j a ∨ a = P !!! i.
Proof.
  intros Hi. unfold set_members. rewrite (drop_head P i Hi), elem_of_cons. tauto.
Qed.

Lemma set_members_keep P i j a :
  j ≤ i → i < length P →
  set_members (<[j := P !!! i]> P) (S i) (S j) a
  ↔ set_members P (S i) j a ∨ a = P !!! i.
Proof.
  intros Hji Hi. unfold set_members.
  rewrite drop_insert_lt by lia.
  rewrite (take_S_r _ _ (P !!! i)) by (apply list_lookup_insert_eq; lia).
  rewrite take_insert_ge by lia.
  rewrite elem_of_app, list_elem_of_singleton. tauto.
Qed.

Lemma Qpart_target h P i j :
  Qpart h P i j → i < length P →
  ∃ xt, h !! (P !!! i) = Some xt ∧ m_state xt = processed ∧ m_idx xt = i.
Proof.
  intros (_ & _ & H3) Hi. apply (H3 i); [lia|].
  by apply list_lookup_lookup_total_lt.
Qed.

Lemma Qpart_other h P i j k a :
  Qpart h P i j → i < length P → k < j ∨ S i ≤ k → P !! k = Some a →
  a ≠ P !!! i.
Proof.
  intros HQ Hi Hk Ha ->.
  destruct (Qpart_target _ _ _ _ HQ Hi) as (xt & Hxt & _ & Hidx).
  destruct HQ as (Hji & _ & H3).
  destruct (H3 k _ ltac:(lia) Ha) as (y & Hy & _ & Hyk).
  assert (y = xt) as -> by congruence. lia.
Qed.

Lemma Qpart_not_member h P i j :
  Qpart h P i j → i < length P → ¬ set_members P (S i) j (P !!! i).
Proof.
  intros HQ Hi [Hin|Hin].
  - apply list_elem_of_lookup in Hin as [k Hk].
    pose proof (lookup_lt_Some _ _ _ Hk) as Hlt. rewrite length_take in Hlt.
    rewrite lookup_take_lt in Hk by lia.
    eapply (Qpart_other _ _ _ _ k); [done..| |done|done]. lia.
  - apply list_elem_of_lookup in Hin as [k Hk].
    rewrite lookup_drop in Hk.
    eapply (Qpart_other _ _ _ _ (S i + k)); [done..| |done|done]. lia.
Qed.

Lemma Qpart_skip h h' P i j :
  Qpart h P i j → i < length P →
  (∀ a, a ≠ P !!! i → h' !! a = h !! a) →
  Qpart h' P (S i) j.
Proof.
  intros HQ Hi Hh. pose proof HQ as (Hji & Hil & H3).
  split; [lia|]. split; [lia|].
  intros k a Hk Ha. rewrite Hh.
  - apply H3; [lia|done].
  - eapply Qpart_other; [done..| |done]. lia.
Qed.

Lemma Qpart_keep h P i j :
  Qpart h P i j → i < length P →
  Qpart (alter (set_index j) (P !!! i) h) (<[j := P !!! i]> P) (S i) (S j).
Proof.
  intros HQ Hi. pose proof HQ as (Hji & Hil & H3).
  destruct (Qpart_target _ _ _ _ HQ Hi) as (xt & Hxt & Hst & Hidx).
  split; [lia|]. split; [rewrite length_insert; lia|].
  intros k a Hk Ha. destruct (decide (k = j)) as [->|Hkj].
  - rewrite list_lookup_insert_eq in Ha by lia. injection Ha as <-.
    exists (set_index j xt). by rewrite lookup_alter_eq, Hxt.
  - rewrite list_lookup_insert_ne in Ha by done.
    assert (Hne : a ≠ P !!! i).
    { destruct (decide (k = i)) as [->|Hki]; [lia|].
      eapply Qpart_other; [done..| |done]. lia. }
    rewrite lookup_alter_ne by done. apply H3; [lia|done].
Qed.

Lemma Qpart_Qok h P i j :
  Qpart h P i j → i = length P → Qok h processed (take j P).
Proof.
  intros (Hji & Hil & H3) -> k a Ha.
  pose proof (lookup_lt_Some _ _ _ Ha) as Hlt. rewrite length_take in Hlt.
  rewrite lookup_take_lt in Ha by lia. apply H3; [lia|done].
Qed.

Lemma Qok_Qpart h P : Qok h processed P → Qpart h P 0 0.
Proof.
  intros HQ. split; [lia|]. split; [lia|]. intros k a _ Ha. by apply HQ.
Qed.

Lemma watch_of_eq s s' : m_watch s' = m_watch s → watch_of s' = watch_of s.
Proof. intros Hw. unfold watch_of. by rewrite Hw. Qed.

Lemma Det_frame s s' e x :
  heap s' !! e = heap s !! e → m_to_simplify s' = m_to_simplify s →
  Det s e x → Det s' e x.
Proof. intros Hh Ht (?&?&?). split; [congruence|]. split; [done|by rewrite Ht]. Qed.

Lemma set_inv_same s s' e x i j :
  heap s' = heap s → struct_eq s s' →
  set_inv s e x i j → set_inv s' e x i j.
Proof.
  intros Hh (E1&E2&E3&E4&E5&E6&E7&E8&E9&E10&E11&E12) (HG & HQ & HD).
  split; [|split].
  - rewrite E5, E6, (watch_of_eq _ _ E11).
    eapply G_same; [..|exact HG]; try done. by rewrite E11.
  - by rewrite Hh, E5.
  - eapply Det_frame; [| |exact HD]; [by rewrite Hh|done].
Qed.

(** The facts about the target the loop is at. *)
Lemma set_inv_target s e x i j :
  set_inv s e x i j → i < length (m_processed s) →
  let t := m_processed s !!! i in
  ∃ xt, heap s !! t = Some xt ∧ m_state xt = processed ∧ m_idx xt = i
        ∧ (t ∉ m_solved s) ∧ (t ∉ m_to_simplify s) ∧ t ≠ e
        ∧ ¬ set_members (m_processed s) (S i) j t.
Proof.
  intros (HG & HQ & (Hx & Hst & _)) Hi t.
  destruct (Qpart_target _ _ _ _ HQ Hi) as (xt & Hxt & Hxst & Hidx).
  exists xt. split; [done|]. split; [done|]. split; [done|].
  split; [|split; [|split]].
  - intros Hin. pose proof (Qok_state _ _ _ _ _ (g_solved _ _ _ _ HG) Hin Hxt).
    congruence.
  - intros Hin.
    pose proof (Qok_state _ _ _ _ _ (g_to_simplify _ _ _ _ HG) Hin Hxt).
    congruence.
  - intros Heq. fold t in Hxt. rewrite Heq in Hxt. congruence.
  - by eapply Qpart_not_member.
Qed.

Lemma is_conflict_true s t :
  is_conflict s t = true → is_val (poly s t) = true ∧ is_zero (poly s t) = false.
Proof.
  unfold is_conflict, is_trivial. intros [? ?%negb_true_iff]%andb_true_iff. done.
Qed.

Lemma not_trivial_not_conflict s t :
  is_trivial s t = false → is_conflict s t = false → is_val (poly s t) = false.
Proof.
  unfold is_conflict. intros ->. cbn. by rewrite andb_true_r.
Qed.

Lemma after_reduce_spec s1 e x i j b c :
  let P := m_processed s1 in
  let t := P !!! i in
  G s1 (set_members P (S i) j) (.∈ m_to_simplify s1) (watch_of s1) →
  Qpart (heap s1) P i j → Det s1 e x → i < length P →
  (b = false → is_val (poly s1 t) = false) →
  match after_reduce t b c s1 with
  | (true, s2) => s2 = s1 ∧ set_inv s1 e x i j
  | (false, s2) =>
      m_processed s2 = P
      ∧ G s2 (set_members P (S i) j) (.∈ m_to_simplify s2) (watch_of s2)
      ∧ Qpart (heap s2) P (S i) j ∧ Det s2 e x
  end.
Proof.
  intros P t HG HQ HD Hi Hnc.
  destruct (Qpart_target _ _ _ _ HQ Hi) as (xt & Hxt & Hxst & Hidx).
  fold P t in Hxt.
  assert (Hsv : t ∉ m_solved s1).
  { intros Hin. pose proof (Qok_state _ _ _ _ _ (g_solved _ _ _ _ HG) Hin Hxt).
    congruence. }
  assert (Hts : t ∉ m_to_simplify s1).
  { intros Hin.
    pose proof (Qok_state _ _ _ _ _ (g_to_simplify _ _ _ _ HG) Hin Hxt).
    congruence. }
  assert (Hte : e ≠ t).
  { intros ->. destruct HD as (Hx & Hst & _). congruence. }
  assert (Hnm : ¬ set_members P (S i) j t) by by eapply Qpart_not_member.
  assert (Hpt : poly s1 t = m_poly xt).
  { unfold poly. by rewrite (deref_lookup _ _ _ Hxt). }
  assert (Hkeep : is_val (poly s1 t) = false → set_inv s1 e x i j).
  { intros Hv. split; [|by split].
    eapply G_pm; [|exact HG]. intros a [Ha| ->]%set_members_step; [|done..].
    by apply (g_nonconst_pr _ _ _ _ HG). }
  unfold after_reduce.
  destruct b; cbn [andb]; [|split; [done|auto]].
  destruct (is_trivial s1 t) eqn:Htriv.
  { split; [done|]. split; [by apply G_retire|]. split.
    - eapply Qpart_skip; [done..|]. intros a Ha. cbn. by rewrite lookup_delete_ne.
    - eapply Det_frame; [| |exact HD]; [|done]. cbn. by rewrite lookup_delete_ne. }
  destruct (is_conflict s1 t) eqn:Hconf.
  { apply is_conflict_true in Hconf as [Hv Hz]. rewrite Hpt in Hv, Hz.
    split; [done|].
    split; [exact (G_set_conflict _ _ _ _ _ _ Hxt Hsv Hts Hv Hz HG)|]. split.
    - eapply Qpart_skip; [done..|]. intros a Ha. cbn. by rewrite !lookup_alter_ne.
    - eapply Det_frame; [| |exact HD]; [|done]. cbn. by rewrite !lookup_alter_ne. }
  pose proof (not_trivial_not_conflict _ _ Htriv Hconf) as Hv.
  destruct c; [|split; [done|auto]].
  rewrite Hpt in Hv.
  pose proof (G_enqueue s1 t xt _ Hxt Hsv Hts Hv HG) as HG2. cbv zeta in HG2.
  set (s3 := push_equation to_simplify t s1) in *.
  assert (Hp3 : poly s3 t = m_poly xt).
  { unfold poly, deref, s3. rewrite heap_push.
    by erewrite push_heap_lookup by done. }
  rewrite Hp3.
  set (s2 := if bool_decide _ then _ else _) in *.
  assert (Hf2 : heap s2 = heap s3
                ∧ m_to_simplify s2 = m_to_simplify s1 ++ [t]
                ∧ m_processed s2 = P).
  { unfold s2. destruct (bool_decide _); [|done].
    destruct (add_to_watch_fields (raise_level (var (m_poly xt)) s3) t)
      as (-> & -> & -> & _). done. }
  destruct Hf2 as (Hh2 & Hts2 & Hpr2).
  split; [done|]. split; [done|]. split.
  - eapply Qpart_skip; [done..|]. intros a Ha. rewrite Hh2. unfold s3.
    rewrite heap_push. by apply push_heap_lookup_ne.
  - destruct HD as (Hx & Hst & Hnin). split; [|split; [done|]].
    + rewrite Hh2. unfold s3. rewrite heap_push.
      by rewrite push_heap_lookup_ne.
    + rewrite Hts2. intros [?| ->%list_elem_of_singleton]%elem_of_app; done.
Qed.

Lemma set_inv_drop_target s e x i j :
  set_inv s e x i j → i < length (m_processed s) →
  G s (set_members (m_processed s) (S i) j) (.∈ m_to_simplify s) (watch_of s).
Proof.
  intros (HG & _) Hi. eapply G_equiv; [| | |exact HG]; [|done..].
  intros a Ha. apply set_members_step; auto.
Qed.

Lemma simplify_target_spec s e x i j :
  set_inv s e x i j → i < length (m_processed s) →
  match simplify_target (m_processed s !!! i) e s with
  | (Val true, s') =>
      m_processed s' = m_processed s ∧ set_inv s' e x i j
  | (Val false, s') =>
      m_processed s' = m_processed s
      ∧ G s' (set_members (m_processed s) (S i) j)
          (.∈ m_to_simplify s') (watch_of s')
      ∧ Qpart (heap s') (m_processed s) (S i) j ∧ Det s' e x
  | (MemOut, s') =>
      m_processed s' = m_processed s ∧ set_inv s' e x i j
  | (Timeout, _) => False
  end.
Proof.
  intros Hinv Hi. pose proof Hinv as (HG & HQ & HD).
  destruct (set_inv_target _ _ _ _ _ Hinv Hi)
    as (xt & Hxt & Hxst & Hidx & Hsv & Hts & Hte & Hnm).
  set (t := m_processed s !!! i) in *.
  pose proof (set_inv_drop_target _ _ _ _ _ Hinv Hi) as HG'.
  assert (Hnc : is_val (poly s t) = false).
  { apply (g_nonconst_pr _ _ _ _ HG). apply set_members_step; auto. }
  rewrite simplify_target_unfold.
  destruct (done s).
  { pose proof (after_reduce_spec s e x i j false false HG' HQ HD Hi) as Ha.
    cbv zeta in Ha. fold t in Ha. specialize (Ha (λ _, Hnc)).
    destruct (after_reduce t false false s) as [[] s2].
    - destruct Ha as [-> ?]. done.
    - done. }
  pose proof (try_simplify_using_spec t e false s xt (not_eq_sym Hte) Hxt) as Hsp.
  destruct (try_simplify_using t e false s) as [[[b c]| |] s1]; [| |done].
  2:{ destruct Hsp as (Hu & Hh & _). pose proof (upd_only_struct _ _ _ Hu) as Hs.
      split; [apply Hs|]. by apply (set_inv_same s). }
  destruct Hsp as (Hu & Hb).
  pose proof (upd_only_struct _ _ _ Hu) as (E1&E2&E3&E4&E5&E6&E7&E8&E9&E10&E11&E12).
  destruct HD as (Hx & Hst & Hnin).
  assert (Hwf1 : pdd_wf (poly s1 t)).
  { destruct b.
    - destruct Hb as (r & Hred & _ & -> & _).
      unfold poly in Hred. rewrite (deref_lookup _ _ _ Hx) in Hred.
      eapply reduce_wf; [| |exact Hred].
      + exact (g_wf _ _ _ _ HG _ _ Hxt).
      + exact (g_wf _ _ _ _ HG _ _ Hx).
    - destruct Hb as [Hh _]. unfold poly, deref. rewrite Hh, Hxt.
      exact (g_wf _ _ _ _ HG _ _ Hxt). }
  assert (HG1 : G s1 (set_members (m_processed s1) (S i) j)
                  (.∈ m_to_simplify s1) (watch_of s1)).
  { rewrite E5, E6, (watch_of_eq _ _ E11).
    eapply (G_upd_only s s1 t); [done..|exact HG']. }
  assert (HQ1 : Qpart (heap s1) (m_processed s1) i j).
  { rewrite E5. by eapply Qpart_upd_only. }
  assert (HD1 : Det s1 e x).
  { split; [|split; [done|by rewrite E6]].
    destruct Hu as (_ & A & _). by rewrite A. }
  assert (Hi1 : i < length (m_processed s1)) by by rewrite E5.
  assert (Hnc1 : b = false → is_val (poly s1 (m_processed s1 !!! i)) = false).
  { intros ->. destruct Hb as [Hh _]. rewrite E5. fold t.
    unfold poly, deref. rewrite Hh. exact Hnc. }
  pose proof (after_reduce_spec s1 e x i j b c HG1 HQ1 HD1 Hi1 Hnc1) as Ha.
  cbv zeta in Ha. rewrite E5 in Ha. fold t in Ha.
  destruct (after_reduce t b c s1) as [[] s2].
  - destruct Ha as [-> ?]. done.
  - destruct Ha as (-> & ? & ? & ?). done.
Qed.

Lemma nextj_spec s e x i j :
  set_inv s e x i j → i < length (m_processed s) →
  set_inv (nextj i j s) e x (S i) (S j)
  ∧ length (m_processed (nextj i j s)) = length (m_processed s).
Proof.
  intros Hinv Hi. pose proof Hinv as (HG & HQ & HD).
  destruct (set_inv_target _ _ _ _ _ Hinv Hi)
    as (xt & Hxt & Hxst & Hidx & Hsv & Hts & Hte & Hnm).
  pose proof HQ as (Hji & _).
  set (P := m_processed s) in *. set (t := P !!! i) in *.
  assert (Hti : <[j := t]> P !!! i = t).
  { destruct (decide (i = j)) as [->|].
    - apply list_lookup_total_correct, list_lookup_insert_eq. lia.
    - by rewrite list_lookup_total_insert_ne. }
  unfold nextj. fold P t. cbn [m_processed set_processed]. rewrite Hti.
  split; [|cbn; by rewrite length_insert].
  split; [|split].
  - cbn [m_processed upd set_heap set_processed m_to_simplify].
    apply (G_upd_out _ t (set_index j)); [done..|].
    apply G_set_processed.
    eapply G_equiv; [| | |exact HG]; [|done..].
    intros a Ha. apply set_members_keep in Ha; [|lia|done].
    apply set_members_step; done.
  - cbn. by apply Qpart_keep.
  - destruct HD as (Hx & Hst & Hnin). split; [|by split].
    cbn. by rewrite lookup_alter_ne.
Qed.

Lemma dtor_spec n s e x i j :
  n = length (m_processed s) - i →
  set_inv s e x i j → mid_ok (scoped_update_dtor n i j s) e x.
Proof.
  revert s i j. induction n as [|n IH]; intros s i j Hn Hinv; cbn.
  - destruct Hinv as (HG & HQ & HD). pose proof HQ as (_ & Hil & _).
    assert (i = length (m_processed s)) as Hi by lia.
    split; [|split].
    + cbn. apply G_set_processed.
      eapply G_equiv; [| | |exact HG]; [|done..].
      intros a Ha. by left.
    + cbn. by eapply Qpart_Qok.
    + done.
  - destruct (nextj_spec s e x i j Hinv ltac:(lia)) as [Hinv' Hlen].
    apply IH; [lia|done].
Qed.

Lemma simplify_set_loop_spec n s e x i j :
  n = length (m_processed s) - i →
  set_inv s e x i j →
  post_any (simplify_set_loop n e i j s) (λ s', mid_ok s' e x).
Proof.
  revert s i j. induction n as [|n IH]; intros s i j Hn Hinv;
    cbn [simplify_set_loop].
  - exact (dtor_spec 0 s e x i j Hn Hinv).
  - assert (Hi : i < length (m_processed s)) by lia.
    pose proof (simplify_target_spec s e x i j Hinv Hi) as Ht.
    destruct (simplify_target (m_processed s !!! i) e s) as [[[]| |] s1].
    + destruct Ht as [Hp Hinv1].
      destruct (nextj_spec s1 e x i j Hinv1 ltac:(by rewrite Hp)) as [Hinv2 Hlen].
      apply IH; [|done]. rewrite Hlen, Hp. lia.
    + destruct Ht as (Hp & HG1 & HQ1 & HD1).
      apply IH; [rewrite Hp; lia|]. rewrite <- Hp in HG1, HQ1. by split.
    + destruct Ht as [Hp Hinv1].
      apply (dtor_spec (S n) s1 e x i j); [|done]. rewrite Hp. lia.
    + done.
Qed.

Lemma simplify_using_set_spec s e x :
  mid_ok s e x →
  post_any (simplify_using_set e s) (λ s', mid_ok s' e x).
Proof.
  intros (HG & HQ & HD). unfold simplify_using_set, bind, get.
  apply simplify_set_loop_spec; [lia|].
  split; [|split; [by apply Qok_Qpart|done]].
  eapply G_equiv; [| | |exact HG]; [|done..].
  intros a [Ha|Ha]; [by rewrite take_0 in Ha; apply elem_of_nil in Ha|].
  by rewrite drop_0 in Ha.
Qed.

End SimplifySet.

Section SimplifyWatch.
Context {PM : PddManager} {PL : PddLaws PM}.
Implicit Types (h : gmap nat equation) (q sv ts w W : list ptr) (e t a : ptr).
Implicit Types (x : equation) (f : equation → equation).
Implicit Types (pm tm : ptr → Prop) (wl : nat → list ptr) (s : solver).

Lemma simplify_watch_loop_unfold n e v i j s :
  simplify_watch_loop (S n) e v i j s =
  let t := watch_of s v !!! i in
  match (if done s then (Val (false, false), s)
         else try_simplify_using t e false s) with
  | (Val _, s1) =>
      let '(j', s2) := after_watch t v j s1 in
      simplify_watch_loop n e v (S i) j' s2
  | (MemOut, s1) => (MemOut, s1)
  | (Timeout, s1) => (Timeout, s1)
  end.
Proof.
  cbn [simplify_watch_loop]. unfold bind at 1, get. cbv zeta.
  unfold bind at 1.
  destruct (done s).
  - cbn. unfold bind at 1, get, after_watch.
    destruct (is_trivial s _); [done|].
    destruct (is_conflict s _); [done|].
    by destruct (decide _).
  - unfold bind at 1.
    destruct (try_simplify_using _ e false s) as [[[b c]| |] s1]; [|done|done].
    cbn. unfold bind at 1, get, after_watch.
    destruct (is_trivial s1 _); [done|].
    destruct (is_conflict s1 _); [done|].
    by destruct (decide _).
Qed.

(** The members of the list under compaction. *)
Lemma watch_view_self s v i j : watch_view s v i j v
  = take j (watch_of s v) ++ drop i (watch_of s v).
Proof. unfold watch_view. by rewrite decide_True. Qed.

Lemma watch_view_other s v v' i j : v' ≠ v → watch_view s v i j v' = watch_of s v'.
Proof. intros. unfold watch_view. by rewrite decide_False. Qed.

Lemma NoDup_app_cons_middle (l1 l2 : list ptr) t :
  NoDup (l1 ++ t :: l2) → NoDup (l1 ++ l2) ∧ t ∉ l1 ++ l2.
Proof.
  intros Hnd. apply NoDup_app in Hnd as (H1 & H2 & H3).
  apply NoDup_cons in H3 as [H3 H4]. split.
  - apply NoDup_app. split; [done|]. split; [|done].
    intros a Ha Ha'. apply (H2 a Ha). by right.
  - intros [Ha|Ha]%elem_of_app; [|done]. apply (H2 t Ha). by left.
Qed.

(** Taking the target at position [i] out of the picture. *)
Lemma watch_inv_target s e x v i j :
  watch_inv s e x v i j → i < length (watch_of s v) →
  let t := watch_of s v !!! i in
  let view' := λ v', if decide (v' = v)
                     then take j (watch_of s v) ++ drop (S i) (watch_of s v)
                     else watch_of s v' in
  ∃ xt, heap s !! t = Some xt ∧ m_state xt = to_simplify
        ∧ t ∈ m_to_simplify s ∧ var (m_poly xt) = v
        ∧ is_val (m_poly xt) = false
        ∧ (∃ l, l < m_levelp1 s ∧ get_level2var !! l = Some v)
        ∧ (t ∉ m_solved s) ∧ (t ∉ m_processed s) ∧ t ≠ e
        ∧ G s (.∈ m_processed s) (λ a, a ∈ m_to_simplify s ∧ a ≠ t) view'.
Proof.
  intros (HG & HQ & HD & Hji & Hil & Hv) Hi t view'.
  pose proof HG as Hrec. open_G Hrec.
  assert (Hview : watch_view s v i j v
                  = take j (watch_of s v) ++ t :: drop (S i) (watch_of s v)).
  { rewrite watch_view_self. f_equal. by apply drop_head. }
  assert (Hin : t ∈ watch_view s v i j v).
  { rewrite Hview. apply elem_of_app. right. by left. }
  pose proof (Wok_member _ _ _ _ _ g_watch Hin) as Hts. cbn in Hts.
  pose proof (Wok_var _ _ _ _ _ g_watch Hin) as Hvar.
  destruct (Qok_lookup _ _ _ _ g_to_simplify Hts) as (xt & Hxt & Hxst & _).
  rewrite (hpoly_lookup _ _ _ Hxt) in Hvar.
  exists xt. split; [done|]. split; [done|]. split; [done|]. split; [done|].
  split; [|split; [|split; [|split; [|split]]]].
  - rewrite <- (hpoly_lookup _ _ _ Hxt). by apply g_nonconst_ts.
  - destruct (g_level t Hts) as (l & Hl & Hlv).
    rewrite (hpoly_lookup _ _ _ Hxt), Hvar in Hlv. eauto.
  - intros Hs. pose proof (Qok_state _ _ _ _ _ g_solved Hs Hxt). congruence.
  - intros Hs. pose proof (Qok_state _ _ _ _ _ HQ Hs Hxt). congruence.
  - intros ->. by destruct HD as (_ & _ & ?).
  - destruct g_watch as (W1 & W2 & W3).
    pose proof (W2 v) as Hnd. rewrite Hview in Hnd.
    apply NoDup_app_cons_middle in Hnd as [Hnd Hnin].
    apply (G_tm_remove s t _ _ (watch_view s v i j)); [| |exact HG].
    + intros v' a. unfold view'. destruct (decide (v' = v)) as [->|Hne].
      * rewrite Hview, !elem_of_app, elem_of_cons. split.
        -- intros Ha. split; [tauto|]. intros ->. apply Hnin.
           apply elem_of_app. tauto.
        -- intros [[?|[?|?]] ?]; tauto.
      * rewrite watch_view_other by done. split; [|tauto].
        intros Ha. split; [done|]. intros ->.
        assert (Ha' : t ∈ watch_view s v i j v') by by rewrite watch_view_other.
        pose proof (Wok_var _ _ _ _ _ (conj W1 (conj W2 W3)) Ha') as Hv'.
        rewrite (hpoly_lookup _ _ _ Hxt) in Hv'. congruence.
    + intros v'. unfold view'. destruct (decide (v' = v)) as [->|Hne]; [done|].
      specialize (W2 v'). by rewrite watch_view_other in W2.
Qed.

Lemma pop_heap_lookup_out h q idx a :
  q ≠ [] → a ∉ q → pop_heap h q idx !! a = h !! a.
Proof.
  intros Hq Ha. unfold pop_heap. destruct (decide _); [|done].
  rewrite lookup_alter_ne; [done|]. intros Heq. apply Ha. rewrite <- Heq.
  apply list_elem_of_lookup. exists (length q - 1).
  apply list_lookup_lookup_total_lt. destruct q; [done|cbn; lia].
Qed.

Lemma Det_pop s t xt e x :
  heap s !! t = Some xt → m_state xt = to_simplify → t ∈ m_to_simplify s →
  Qok (heap s) to_simplify (m_to_simplify s) →
  Det s e x → Det (pop_equation t s) e x.
Proof.
  intros Hxt Hst Hin HQ (Hx & Hxs & Hnin).
  split; [|split; [done|]].
  - rewrite (heap_pop_ts s t xt Hxt Hst). rewrite pop_heap_lookup_out; [done| |done].
    intros Hnil. rewrite Hnil in Hin. by apply elem_of_nil in Hin.
  - rewrite (queue_pop_ts s t xt Hxt Hst).
    intros [? _]%(pop_list_elem _ _ _ _ _ _ HQ Hxt Hin). done.
Qed.

Lemma after_watch_spec s1 e x v i j xt :
  let W := watch_of s1 v in
  let t := W !!! i in
  let view' := λ v', if decide (v' = v) then take j W ++ drop (S i) W
                     else watch_of s1 v' in
  G s1 (.∈ m_processed s1) (λ a, a ∈ m_to_simplify s1 ∧ a ≠ t) view' →
  Qok (heap s1) processed (m_processed s1) → Det s1 e x →
  j ≤ i → i < length W → v < length (m_watch s1) →
  heap s1 !! t = Some xt → m_state xt = to_simplify → t ∈ m_to_simplify s1 →
  t ∉ m_solved s1 → t ∉ m_processed s1 → t ≠ e →
  (is_val (m_poly xt) = false →
   ∃ l, l < m_levelp1 s1 ∧ get_level2var !! l = Some (var (m_poly xt))) →
  let '(j', s2) := after_watch t v j s1 in
  watch_inv s2 e x v (S i) j' ∧ length (watch_of s2 v) = length W.
Proof.
  intros W t view' HG HQ HD Hji Hi Hv Hxt Hxst Hts Hsv Hpr Hte Hlev.
  assert (Hpt : poly s1 t = m_poly xt).
  { unfold poly. by rewrite (deref_lookup _ _ _ Hxt). }
  pose proof (g_to_simplify _ _ _ _ HG) as HQts.
  assert (Hpop : let s' := pop_equation t s1 in
     G s' (.∈ m_processed s') (.∈ m_to_simplify s') (watch_view s' v (S i) j)
     ∧ Qok (heap s') processed (m_processed s') ∧ Det s' e x
     ∧ heap s' !! t = Some xt ∧ (t ∉ m_to_simplify s')
     ∧ m_solved s' = m_solved s1 ∧ m_processed s' = m_processed s1
     ∧ m_watch s' = m_watch s1).
  { intros s'.
    destruct (pop_ts_others s1 t xt Hxt Hxst)
      as (E1 & E2 & E3 & E4 & E5 & E6 & E7 & E8 & _). fold s' in E1, E2, E3, E4, E5, E6, E7, E8.
    pose proof (heap_pop_ts s1 t xt Hxt Hxst) as Eh. fold s' in Eh.
    pose proof (queue_pop_ts s1 t xt Hxt Hxst) as Eq. fold s' in Eq.
    assert (Hmem : ∀ a, a ∈ m_to_simplify s' ↔ a ∈ m_to_simplify s1 ∧ a ≠ t).
    { intros a. rewrite Eq. by eapply pop_list_elem. }
    split; [|split; [|split; [|split; [|split]]]]; try done.
    - rewrite E3. eapply G_equiv; [| | |eapply G_pop; [done..| |exact HG]].
      + done.
      + intros a. symmetry. apply Hmem.
      + intros v'. unfold watch_view, view', W. by rewrite (watch_of_eq _ _ E8).
      + cbn. tauto.
    - rewrite E3, Eh. eapply Qok_pop_other; [| |exact HQts|exact HQ]; [done|].
      destruct (Qok_lookup _ _ _ _ HQts Hts) as (y & Hy & _ & Hl).
      assert (y = xt) as -> by congruence. by eapply lookup_lt_Some.
    - by eapply Det_pop.
    - rewrite Eh. by eapply pop_heap_lookup_self.
    - intros [_ ?]%Hmem. done. }
  cbv zeta in Hpop.
  destruct Hpop as (HGp & HQp & HDp & Hxtp & Htsp & Esv & Epr & Ew).
  unfold after_watch. rewrite Hpt.
  destruct (is_trivial s1 t) eqn:Htriv.
  { set (s' := pop_equation t s1) in *.
    split; [|change (watch_of (retire t s') v) with (watch_of s' v);
             by rewrite (watch_of_eq _ _ Ew)].
    split; [|split; [|split; [|split; [lia|split]]]].
    - change (G (retire t s') (.∈ m_processed s') (.∈ m_to_simplify s')
                (watch_view s' v (S i) j)).
      apply G_retire; [by rewrite Esv|done|by rewrite Epr|exact HGp].
    - cbn. apply Qok_delete; [by rewrite Epr|done].
    - eapply Det_frame; [| |exact HDp]; [|done]. cbn. by rewrite lookup_delete_ne.
    - change (watch_of (retire t s') v) with (watch_of s' v).
      rewrite (watch_of_eq _ _ Ew). fold W. lia.
    - cbn. by rewrite Ew. }
  destruct (is_conflict s1 t) eqn:Hconf.
  { apply is_conflict_true in Hconf as [Hval Hz]. rewrite Hpt in Hval, Hz.
    set (s' := pop_equation t s1) in *.
    split; [|change (watch_of (set_conflict t s') v) with (watch_of s' v);
             by rewrite (watch_of_eq _ _ Ew)].
    split; [|split; [|split; [|split; [lia|split]]]].
    - change (G (set_conflict t s') (.∈ m_processed s')
                (.∈ m_to_simplify s') (watch_view s' v (S i) j)).
      eapply (G_set_conflict s' t xt); [done|by rewrite Esv|done..|exact HGp].
    - cbn. apply (Qok_push_ne _ _ solved); [by rewrite Epr|done].
    - eapply Det_frame; [| |exact HDp]; [|done]. cbn. by rewrite !lookup_alter_ne.
    - change (watch_of (set_conflict t s') v) with (watch_of s' v).
      rewrite (watch_of_eq _ _ Ew). fold W. lia.
    - cbn. by rewrite Ew. }
  pose proof (not_trivial_not_conflict _ _ Htriv Hconf) as Hnv. rewrite Hpt in Hnv.
  specialize (Hlev Hnv). clear HGp HQp HDp Hxtp Htsp Esv Epr Ew.
  pose proof (g_wf _ _ _ _ HG _ _ Hxt) as Hwf.
  assert (Hadd : ∀ s2, heap s2 = heap s1 → next_ptr s2 = next_ptr s1 →
     m_solved s2 = m_solved s1 → m_to_simplify s2 = m_to_simplify s1 →
     m_processed s2 = m_processed s1 →
     m_conflict s2 = m_conflict s1 → m_levelp1 s2 = m_levelp1 s1 →
     m_level2var s2 = m_level2var s1 → m_var2level s2 = m_var2level s1 →
     length (m_watch s2) = length (m_watch s1) →
     G s2 (.∈ m_processed s2) (.∈ m_to_simplify s2)
       (λ v', if decide (v' = var (m_poly xt)) then view' v' ++ [t] else view' v')).
  { intros s2 Hh E1 E2 E3 E4 E5 E6 E7 E8 E9.
    assert (HG2 : G s2 (.∈ m_processed s1) (λ a, a ∈ m_to_simplify s1 ∧ a ≠ t) view').
    { eapply G_same; [..|exact HG]; done. }
    rewrite E4.
    eapply G_equiv; [| | |eapply (G_tm_add s2 t); [| | | |exact HG2]].
    - done.
    - intros a. cbn. rewrite E3. split; [intros [[? _]| ->]; done|].
      intros Ha. destruct (decide (a = t)); [by right|by left].
    - intros v'. cbn beta. by rewrite Hh, (hpoly_lookup _ _ _ Hxt).
    - by rewrite E3.
    - cbn. tauto.
    - by rewrite Hh, (hpoly_lookup _ _ _ Hxt).
    - rewrite Hh, (hpoly_lookup _ _ _ Hxt), E6. done. }
  destruct (decide (var (m_poly xt) ≠ v)) as [Hne|Heq].
  - set (v2 := var (m_poly xt)) in *.
    assert (Hv2 : v2 < length (m_watch s1)).
    { eapply LVok_var_range; [apply HG|done..]. }
    set (s2 := set_watch_of v2 _ s1).
    assert (Hw2 : ∀ v', watch_of s2 v'
                = if decide (v' = v2) then watch_of s1 v2 ++ [t] else watch_of s1 v').
    { intros v'. unfold s2. by rewrite watch_of_set. }
    split; [|rewrite Hw2; by rewrite decide_False].
    split; [|split; [done|split; [done|split; [lia|split]]]].
    + eapply G_equiv; [| | |apply (Hadd s2)]; try done.
      * intros v'. unfold watch_view, view'. rewrite !Hw2.
        destruct (decide (v' = v)) as [->|Hv'].
        -- rewrite !decide_False by done. done.
        -- destruct (decide (v' = v2)) as [->|]; done.
      * cbn. by rewrite length_insert.
    + rewrite Hw2, decide_False by done. fold W. lia.
    + cbn. by rewrite length_insert.
  - apply dec_stable in Heq.
    set (s2 := set_watch_of v _ s1).
    assert (Hw2 : ∀ v', watch_of s2 v'
                = if decide (v' = v) then <[j := t]> W else watch_of s1 v').
    { intros v'. unfold s2. by rewrite watch_of_set. }
    assert (Hlen : length (watch_of s2 v) = length W).
    { rewrite Hw2, decide_True by done. by rewrite length_insert. }
    split; [|done].
    split; [|split; [done|split; [done|split; [lia|split]]]].
    + eapply G_equiv; [| | |apply (Hadd s2)]; try done.
      * intros v'. unfold watch_view, view'. rewrite !Hw2, Heq.
        destruct (decide (v' = v)) as [->|Hv']; [|done].
        rewrite decide_True by done.
        rewrite (take_S_r _ _ t) by (apply list_lookup_insert_eq; lia).
        rewrite take_insert_ge by lia. rewrite drop_insert_lt by lia.
        rewrite <- !app_assoc. apply Permutation_app_head, Permutation_app_comm.
      * cbn. by rewrite length_insert.
    + rewrite Hlen. lia.
    + cbn. by rewrite length_insert.
Qed.

Lemma watch_inv_exc s e x v i j : watch_inv s e x v i j → exc_ok s e x.
Proof. intros (HG & HQ & HD & _). split; [eauto|done]. Qed.

Lemma exc_ok_same s s' e x :
  heap s' = heap s → struct_eq s s' → exc_ok s e x → exc_ok s' e x.
Proof.
  intros Hh (E1&E2&E3&E4&E5&E6&E7&E8&E9&E10&E11&E12) ([wl HG] & HQ & HD).
  split; [|split].
  - exists wl. rewrite E5, E6. eapply G_same; [..|exact HG]; try done.
    by rewrite E11.
  - by rewrite Hh, E5.
  - eapply Det_frame; [| |exact HD]; [by rewrite Hh|done].
Qed.

Lemma simplify_watch_loop_spec n s e x v i j :
  n = length (watch_of s v) - i →
  watch_inv s e x v i j →
  match simplify_watch_loop n e v i j s with
  | (Val _, s') => mid_ok s' e x
  | (MemOut, s') => exc_ok s' e x
  | (Timeout, _) => False
  end.
Proof.
  revert s i j. induction n as [|n IH]; intros s i j Hn Hinv.
  - cbn. destruct Hinv as (HG & HQ & HD & Hji & Hil & Hv).
    split; [|by split].
    apply G_set_watch_of.
    eapply G_equiv; [| | |exact HG]; [done..|].
    intros v'. rewrite watch_of_set by done. unfold watch_view.
    destruct (decide (v' = v)) as [->|]; [|done].
    rewrite drop_ge by lia. by rewrite app_nil_r.
  - rewrite simplify_watch_loop_unfold. cbv zeta.
    assert (Hi : i < length (watch_of s v)) by lia.
    destruct (watch_inv_target s e x v i j Hinv Hi)
      as (xt & Hxt & Hxst & Hts & Hvar & Hnv & Hlev & Hsv & Hpr & Hte & HG').
    pose proof Hinv as (HG & HQ & HD & Hji & Hil & Hv).
    set (t := watch_of s v !!! i) in *.
    assert (Hstep : ∀ s1 xt1,
      upd_only t s s1 → heap s1 !! t = Some xt1 → pdd_wf (m_poly xt1) →
      (is_val (m_poly xt1) = false →
       ∃ l, l < m_levelp1 s ∧ get_level2var !! l = Some (var (m_poly xt1))) →
      match (let '(j', s2) := after_watch t v j s1 in
             simplify_watch_loop n e v (S i) j' s2) with
      | (Val _, s') => mid_ok s' e x
      | (MemOut, s') => exc_ok s' e x
      | (Timeout, _) => False
      end).
    { intros s1 xt1 Hu Hxt1 Hwf1 Hlev1.
      pose proof (upd_only_struct _ _ _ Hu)
        as (E1&E2&E3&E4&E5&E6&E7&E8&E9&E10&E11&E12).
      pose proof (watch_of_eq _ _ E11) as Ew.
      assert (Hst1 : m_state xt1 = to_simplify).
      { rewrite (upd_only_lookup _ _ _ _ Hu Hxt) in Hxt1. by injection Hxt1 as <-. }
      pose proof (after_watch_spec s1 e x v i j xt1) as Ha. cbv zeta in Ha.
      rewrite Ew, E4, E5, E6, E8, E11 in Ha. fold t in Ha.
      specialize (Ha ltac:(
        apply (G_upd_only s s1 t xt); try done;
        [cbn; tauto|unfold poly; by rewrite (deref_lookup _ _ _ Hxt1)])).
      specialize (Ha ltac:(by eapply Qok_upd_only)).
      specialize (Ha ltac:(
        split; [destruct Hu as (_ & A & _); rewrite A by done; apply HD
               |split; [apply HD|rewrite E6; apply HD]])).
      specialize (Ha Hji Hi Hv Hxt1 Hst1 Hts Hsv Hpr Hte Hlev1).
      destruct (after_watch t v j s1) as [j' s2].
      destruct Ha as [Hinv2 Hlen].
      apply IH; [|done]. rewrite Hlen. lia. }
    destruct (done s).
    { apply (Hstep s xt); [apply upd_only_refl|done| |].
      - exact (g_wf _ _ _ _ HG _ _ Hxt).
      - intros _. by rewrite Hvar. }
    pose proof (try_simplify_using_spec t e false s xt (not_eq_sym Hte) Hxt) as Hsp.
    destruct (try_simplify_using t e false s) as [[[b c]| |] s1]; [| |done].
    2:{ destruct Hsp as (Hu & Hh & _).
        eapply exc_ok_same; [done|by eapply upd_only_struct|].
        by eapply watch_inv_exc. }
    destruct Hsp as (Hu & Hb).
    pose proof (upd_only_lookup _ _ _ _ Hu Hxt) as Hxt1.
    destruct HD as (Hx & Hxs & Hnin).
    destruct b.
    + destruct Hb as (r & Hred & Hrne & Hr & _).
      unfold poly in Hred. rewrite (deref_lookup _ _ _ Hx) in Hred.
      rewrite Hr in Hxt1.
      apply (Hstep s1 _ Hu Hxt1); cbn [m_poly].
      * eapply reduce_wf; [| |exact Hred].
        -- exact (g_wf _ _ _ _ HG _ _ Hxt).
        -- exact (g_wf _ _ _ _ HG _ _ Hx).
      * intros Hrv.
        assert (Hwr : pdd_wf r).
        { eapply reduce_wf; [| |exact Hred].
          - exact (g_wf _ _ _ _ HG _ _ Hxt).
          - exact (g_wf _ _ _ _ HG _ _ Hx). }
        destruct (level_of_wf r Hwr Hrv) as [l' Hl'].
        destruct Hlev as (l & Hl & Hlv). rewrite <- Hvar in Hlv.
        pose proof (reduce_level _ _ _ _ _ Hred Hnv Hrv Hl' Hlv).
        exists l'. split; [lia|done].
    + destruct Hb as [Hh _].
      apply (Hstep s1 xt Hu); [by rewrite Hh| |].
      * exact (g_wf _ _ _ _ HG _ _ Hxt).
      * intros _. by rewrite Hvar.
Qed.

Lemma simplify_watch_spec s e x :
  mid_ok s e x → is_val (m_poly x) = false →
  match simplify_watch e s with
  | (Val _, s') => mid_ok s' e x
  | (MemOut, s') => exc_ok s' e x
  | (Timeout, _) => False
  end.
Proof.
  intros (HG & HQ & HD) Hnv. unfold simplify_watch, bind, get.
  set (v := var (poly s e)).
  pose proof (simplify_watch_loop_spec (length (watch_of s v)) s e x v 0 0) as H.
  specialize (H ltac:(lia)).
  assert (Hv : v < length (m_watch s)).
  { destruct HD as (Hx & _). unfold v, poly. rewrite (deref_lookup _ _ _ Hx).
    eapply LVok_var_range; [apply HG| |done].
    exact (g_wf _ _ _ _ HG _ _ Hx). }
  specialize (H ltac:(
    split; [|split; [done|split; [done|split; [lia|split; [lia|done]]]]];
    eapply G_equiv; [| | |exact HG]; [done..|];
    intros v'; unfold watch_view; destruct (decide (v' = v)) as [->|]; [|done];
    by rewrite take_0, drop_0)).
  exact H.
Qed.

End SimplifyWatch.

Section FrameLemmas.
Context {PM : PddManager}.
Implicit Types (s : solver) (e t : ptr).

Lemma frame_refl s : frame s s.
Proof. by repeat split. Qed.

Local Ltac fr := by repeat split.

Lemma frame_trans s1 s2 s3 : frame s1 s2 → frame s2 s3 → frame s1 s3.
Proof. intros (?&?&?) (?&?&?). repeat split; congruence. Qed.

Lemma mframe_ret {A} (a : A) : mframe (ret a).
Proof. intros s. fr. Qed.

Lemma mframe_get : mframe get.
Proof. intros s. fr. Qed.

Lemma mframe_timeout {A} : mframe (@timeout _ A).
Proof. intros s. fr. Qed.

Lemma mframe_alg {A} (o : option A) : mframe (alg o).
Proof. intros s. unfold alg. destruct o; fr. Qed.

Lemma mframe_modify (f : solver → solver) :
  (∀ s, frame s (f s)) → mframe (modify f).
Proof. intros Hf s. apply Hf. Qed.

Lemma mframe_call {A} (f : solver → A * solver) :
  (∀ s, frame s (f s).2) → mframe (call f).
Proof. intros Hf s. unfold call. specialize (Hf s). by destruct (f s). Qed.

Lemma mframe_bind {A B} (m : M A) (f : A → M B) :
  mframe m → (∀ a, mframe (f a)) → mframe (bind m f).
Proof.
  intros Hm Hf s. unfold bind. specialize (Hm s).
  destruct (m s) as [[a| |] s1]; cbn in *; [|done..].
  eapply frame_trans; [exact Hm|apply Hf].
Qed.

Lemma frame_upd e f s : frame s (upd e f s).
Proof. fr. Qed.

Lemma frame_retire e s : frame s (retire e s).
Proof. fr. Qed.

Lemma frame_pop e s : frame s (pop_equation e s).
Proof.
  unfold pop_equation. destruct (m_state (deref s e)); cbn;
    destruct (decide _); fr.
Qed.

Lemma frame_push st e s : frame s (push_equation st e s).
Proof. destruct st; fr. Qed.

Lemma frame_set_conflict e s : frame s (set_conflict e s).
Proof. fr. Qed.

Lemma frame_check_conflict e s : frame s (check_conflict e s).2.
Proof. unfold check_conflict. destruct (is_conflict s e); fr. Qed.

Lemma frame_add_to_watch e s : frame s (add_to_watch e s).
Proof. unfold add_to_watch. destruct (is_val _); fr. Qed.

Lemma frame_add p d s : frame s (add p d s).
Proof.
  unfold add. destruct (is_zero p); [fr|].
  change (alloc p d s) with (next_ptr s, (alloc p d s).2). cbv beta iota.
  unfold check_conflict. destruct (is_conflict _ _); [fr|].
  destruct (bool_decide _); [|fr].
  unfold add_to_watch. destruct (is_val _); fr.
Qed.

Lemma mframe_try_simplify_using dst src clt :
  mframe (try_simplify_using dst src clt).
Proof.
  unfold try_simplify_using. destruct (decide _); [apply mframe_ret|].
  apply mframe_bind; [apply mframe_modify; intros ?; fr|intros _].
  apply mframe_bind; [apply mframe_get|intros s].
  apply mframe_bind; [apply mframe_alg|intros r].
  destruct (decide _); [apply mframe_ret|].
  destruct (is_too_complex r).
  { apply mframe_bind; [apply mframe_modify; intros ?; fr|intros _]. apply mframe_ret. }
  apply mframe_bind; [apply mframe_modify; intros ?; fr|intros _].
  apply mframe_bind; [apply mframe_modify; intros ?; fr|intros _].
  apply mframe_bind; [apply mframe_modify; intros ?; fr|intros _].
  apply mframe_ret.
Qed.

Lemma mframe_simplify_using_pass e eqs flag :
  mframe (simplify_using_pass e eqs flag).
Proof.
  revert flag. induction eqs as [|p eqs IH]; intros flag; cbn; [apply mframe_ret|].
  apply mframe_bind; [apply mframe_try_simplify_using|intros [b c]].
  apply mframe_bind; [apply mframe_get|intros s].
  destruct (_ || _); [apply mframe_ret|apply IH].
Qed.

Lemma mframe_simplify_using_loop fuel e eqs :
  mframe (simplify_using_loop fuel e eqs).
Proof.
  induction fuel as [|fuel IH]; cbn; [apply mframe_timeout|].
  apply mframe_bind; [apply mframe_simplify_using_pass|intros b].
  apply mframe_bind; [apply mframe_get|intros s].
  destruct (_ && _); [apply IH|apply mframe_ret].
Qed.

Lemma mframe_simplify_using e eqs : mframe (simplify_using e eqs).
Proof.
  unfold simplify_using.
  apply mframe_bind; [apply mframe_get|intros s].
  apply mframe_simplify_using_loop.
Qed.

Lemma mframe_simplify_target t e : mframe (simplify_target t e).
Proof.
  unfold simplify_target.
  apply mframe_bind; [apply mframe_get|intros s].
  apply mframe_bind.
  { destruct (done s); [apply mframe_ret|apply mframe_try_simplify_using]. }
  intros [b c].
  apply mframe_bind; [apply mframe_get|intros s1].
  destruct (_ && _).
  { apply mframe_bind; [apply mframe_modify; intros ?; fr|intros _]. apply mframe_ret. }
  apply mframe_bind.
  { destruct b; [|apply mframe_ret].
    apply mframe_call. apply frame_check_conflict. }
  intros [|]; [apply mframe_ret|].
  destruct (_ && _); [|apply mframe_ret].
  apply mframe_bind; [apply mframe_modify; apply frame_push|intros _].
  apply mframe_bind; [apply mframe_get|intros s2].
  apply mframe_bind; [|intros _; apply mframe_ret].
  destruct (bool_decide _); [|apply mframe_ret].
  apply mframe_modify. intros s3.
  eapply frame_trans; [|apply frame_add_to_watch]. fr.
Qed.

Lemma frame_nextj i j s : frame s (nextj i j s).
Proof. fr. Qed.

Lemma frame_dtor n i j s : frame s (scoped_update_dtor n i j s).
Proof.
  revert i j s. induction n as [|n IH]; intros i j s; cbn; [fr|].
  eapply frame_trans; [apply (frame_nextj i j)|apply IH].
Qed.

Lemma mframe_simplify_set_loop n e i j : mframe (simplify_set_loop n e i j).
Proof.
  revert i j. induction n as [|n IH]; intros i j s; cbn [simplify_set_loop].
  - fr.
  - pose proof (mframe_simplify_target (m_processed s !!! i) e s) as Ht.
    destruct (simplify_target _ e s) as [[[]| |] s1]; cbn in Ht.
    + eapply frame_trans; [exact Ht|].
      eapply frame_trans; [apply (frame_nextj i j)|apply IH].
    + eapply frame_trans; [exact Ht|apply IH].
    + eapply frame_trans; [exact Ht|apply frame_dtor].
    + done.
Qed.

Lemma mframe_simplify_using_set e : mframe (simplify_using_set e).
Proof.
  unfold simplify_using_set.
  apply mframe_bind; [apply mframe_get|intros s].
  apply mframe_simplify_set_loop.
Qed.

Lemma mframe_superpose2 e1 e2 : mframe (superpose2 e1 e2).
Proof.
  unfold superpose2.
  apply mframe_bind; [apply mframe_get|intros s].
  apply mframe_bind; [apply mframe_alg|intros [r|]]; [|apply mframe_ret].
  destruct (is_zero r); [apply mframe_ret|].
  destruct (is_too_complex r); [apply mframe_modify; intros ?; fr|].
  apply mframe_bind; [apply mframe_modify; intros ?; fr|intros _].
  apply mframe_modify. intros s'. apply frame_add.
Qed.

Lemma mframe_superpose_loop e targets : mframe (superpose_loop e targets).
Proof.
  induction targets as [|t targets IH]; cbn; [apply mframe_ret|].
  apply mframe_bind; [apply mframe_superpose2|intros _; apply IH].
Qed.

Lemma mframe_superpose e : mframe (superpose e).
Proof.
  unfold superpose. apply mframe_bind; [apply mframe_get|intros s].
  apply mframe_superpose_loop.
Qed.

Lemma mframe_simplify_watch_loop n e v i j :
  mframe (simplify_watch_loop n e v i j).
Proof.
  revert i j. induction n as [|n IH]; intros i j; cbn [simplify_watch_loop].
  { apply mframe_modify; intros ?; fr. }
  apply mframe_bind; [apply mframe_get|intros s].
  apply mframe_bind.
  { destruct (done s); [apply mframe_ret|].
    apply mframe_bind; [apply mframe_try_simplify_using|intros _; apply mframe_ret]. }
  intros _.
  apply mframe_bind; [apply mframe_get|intros s1].
  destruct (is_trivial s1 _).
  { apply mframe_bind; [apply mframe_modify; apply frame_pop|intros _].
    apply mframe_bind; [apply mframe_modify; intros ?; fr|intros _]. apply IH. }
  destruct (is_conflict s1 _).
  { apply mframe_bind; [apply mframe_modify; apply frame_pop|intros _].
    apply mframe_bind; [apply mframe_modify; intros ?; fr|intros _]. apply IH. }
  destruct (decide _).
  { apply mframe_bind; [apply mframe_modify; intros ?; fr|intros _]. apply IH. }
  apply mframe_bind; [apply mframe_modify; intros ?; fr|intros _]. apply IH.
Qed.

Lemma mframe_simplify_watch e : mframe (simplify_watch e).
Proof.
  unfold simplify_watch. apply mframe_bind; [apply mframe_get|intros s].
  apply mframe_simplify_watch_loop.
Qed.

Lemma frame_scoped_process_done e s : frame s (scoped_process_done e s).2.
Proof.
  unfold scoped_process_done. destruct (is_val _); apply frame_push.
Qed.

Lemma frame_scoped_process_dtor o s : frame s (scoped_process_dtor o s).
Proof. destruct o; [apply frame_push|fr]. Qed.

Lemma mframe_step_body e : mframe (step_body e).
Proof.
  unfold step_body.
  apply mframe_bind; [apply mframe_get|intros s].
  apply mframe_bind; [apply mframe_simplify_using|intros _].
  apply mframe_bind; [apply mframe_get|intros s1].
  destruct (is_trivial s1 e).
  { apply mframe_bind; [apply mframe_modify; intros ?; fr|intros _]. apply mframe_ret. }
  apply mframe_bind; [apply mframe_call, frame_check_conflict|intros c].
  destruct c; [apply mframe_ret|].
  apply mframe_bind; [apply mframe_modify; intros ?; fr|intros _].
  apply mframe_bind; [apply mframe_simplify_using_set|intros _].
  apply mframe_bind; [apply mframe_get|intros s2].
  destruct (done s2); [apply mframe_ret|].
  apply mframe_bind; [apply mframe_superpose|intros _].
  apply mframe_bind; [apply mframe_simplify_watch|intros _].
  apply mframe_bind; [apply mframe_get|intros s3].
  destruct (done s3); [apply mframe_ret|].
  apply mframe_bind; [|intros; apply mframe_ret].
  destruct (negb _); [|apply mframe_ret].
  apply mframe_call, frame_scoped_process_done.
Qed.

Lemma pick_next_loop_frame l s : frame s (pick_next_loop l s).2.
Proof.
  revert s. induction l as [|l IH]; intros s; cbn; [fr|].
  destruct (pick_in_watch _ _ _) as [e|].
  - cbn. eapply frame_trans; [apply (frame_pop e s)|fr].
  - eapply frame_trans; [|apply IH]. fr.
Qed.

(** A step leaves configuration and cancel flag alone and counts itself. *)
Lemma step_frame s :
  let s' := (step s).2 in
  m_config s' = m_config s ∧ m_limit s' = m_limit s
  ∧ m_compute_steps (m_stats s') = wrap32 (m_compute_steps (m_stats s) + 1).
Proof.
  unfold step.
  pose proof (pick_next_loop_frame (m_levelp1 (inc_compute_steps s))
                (inc_compute_steps s)) as Hp.
  unfold pick_next.
  destruct (pick_next_loop _ _) as [[e|] s1]; cbn in Hp.
  - pose proof (mframe_step_body e s1) as Hb.
    assert (frame (inc_compute_steps s)
              (match step_body e s1 with
               | (Val (b, sd_e), s2) => (Val b, scoped_process_dtor sd_e s2)
               | (MemOut, s2) => (MemOut, scoped_process_dtor (Some e) s2)
               | (Timeout, s2) => (Timeout, s2)
               end).2) as (?&?&?).
    { destruct (step_body e s1) as [[[b sd]| |] s2]; cbn in *.
      - eapply frame_trans; [exact Hp|].
        eapply frame_trans; [exact Hb|apply frame_scoped_process_dtor].
      - eapply frame_trans; [exact Hp|].
        eapply frame_trans; [exact Hb|fr].
      - eapply frame_trans; [exact Hp|exact Hb]. }
    done.
  - destruct Hp as (?&?&?). done.
Qed.

End FrameLemmas.

Section Step.
Context {PM : PddManager} {PL : PddLaws PM}.
Implicit Types (h : gmap nat equation) (q sv ts w W : list ptr) (e t a : ptr).
Implicit Types (x : equation) (f : equation → equation).
Implicit Types (pm tm : ptr → Prop) (wl : nat → list ptr) (s : solver).

Lemma G_qinv s wl :
  G s (.∈ m_processed s) (.∈ m_to_simplify s) wl →
  Qok (heap s) processed (m_processed s) → qinv s.
Proof. intros Hrec HQ. open_G Hrec. by constructor. Qed.

Lemma inv_qinv s : inv s → qinv s.
Proof. intros [HG HQ]. by eapply G_qinv. Qed.

Lemma mid_ok_inv s e x : mid_ok s e x → inv s.
Proof. by intros (HG & HQ & _). Qed.

(** Where the picked equation is not. *)
Lemma Det_not_in s e x pm wl st :
  G s pm (.∈ m_to_simplify s) wl → Qok (heap s) processed (m_processed s) →
  Det s e x → e ∉ queue st s.
Proof.
  intros HG HQ (Hx & Hst & Hnin). destruct st; cbn; [| done |].
  - intros Hin. pose proof (Qok_state _ _ _ _ _ (g_solved _ _ _ _ HG) Hin Hx).
    congruence.
  - intros Hin. pose proof (Qok_state _ _ _ _ _ HQ Hin Hx). congruence.
Qed.

Lemma mid_ok_retire s e x :
  mid_ok s e x → inv (retire e s) ∧ heap (retire e s) !! e = None.
Proof.
  intros (HG & HQ & HD).
  pose proof (Det_not_in s e x _ _ solved HG HQ HD) as Hsv.
  pose proof (Det_not_in s e x _ _ processed HG HQ HD) as Hpr.
  pose proof (Det_not_in s e x _ _ to_simplify HG HQ HD) as Hts.
  split; [split|].
  - by apply G_retire.
  - cbn. by apply Qok_delete.
  - cbn. by rewrite lookup_delete_eq.
Qed.

Lemma mid_ok_set_conflict s e x :
  mid_ok s e x → is_conflict s e = true →
  let s' := set_conflict e s in
  inv s' ∧ m_conflict s' = Some e ∧ e ∈ m_solved s' ∧ is_conflict s' e = true.
Proof.
  intros (HG & HQ & HD) Hc s'.
  pose proof (Det_not_in s e x _ _ solved HG HQ HD) as Hsv.
  pose proof (Det_not_in s e x _ _ processed HG HQ HD) as Hpr.
  pose proof (Det_not_in s e x _ _ to_simplify HG HQ HD) as Hts.
  pose proof HD as (Hx & _).
  pose proof Hc as Hc'.
  apply is_conflict_true in Hc as [Hv Hz].
  unfold poly in Hv, Hz. rewrite (deref_lookup _ _ _ Hx) in Hv, Hz.
  split; [split|split; [done|split]].
  - by eapply G_set_conflict.
  - cbn. by apply (Qok_push_ne _ _ solved).
  - cbn. apply elem_of_app. right. by left.
  - unfold is_conflict, is_trivial, poly, deref, s'. cbn.
    rewrite !lookup_alter_eq, Hx. cbn. by rewrite Hv, Hz.
Qed.

(** The picked equation goes to the processed queue. *)
Lemma commit_processed s e x wl :
  G s (.∈ m_processed s) (.∈ m_to_simplify s) wl →
  Qok (heap s) processed (m_processed s) → Det s e x →
  is_val (m_poly x) = false →
  let s' := push_equation processed e s in
  G s' (.∈ m_processed s') (.∈ m_to_simplify s') wl
  ∧ Qok (heap s') processed (m_processed s')
  ∧ e ∈ m_processed s' ∧ poly s' e = m_poly x.
Proof.
  intros HG HQ HD Hnv s'.
  pose proof (Det_not_in s e x _ _ solved HG HQ HD) as Hsv.
  pose proof (Det_not_in s e x _ _ processed HG HQ HD) as Hpr.
  pose proof (Det_not_in s e x _ _ to_simplify HG HQ HD) as Hts.
  pose proof HD as (Hx & _).
  assert (Hp : poly s' e = m_poly x).
  { unfold poly, deref, s'. cbn. by rewrite !lookup_alter_eq, Hx. }
  split; [|split; [|split]].
  - eapply G_pm; [|eapply G_push; [exact Hx|done..|exact HG]].
    intros a [Ha| ->%list_elem_of_singleton]%elem_of_app.
    + unfold s'. rewrite heap_push, hpoly_push.
      by apply (g_nonconst_pr _ _ _ _ HG).
    + by rewrite <- poly_hpoly, Hp.
  - unfold s'. rewrite heap_push. by eapply Qok_snoc.
  - cbn. apply elem_of_app. right. by left.
  - done.
Qed.

(** ... or, in solved form, to the solved queue. *)
Lemma commit_solved s e x wl :
  G s (.∈ m_processed s) (.∈ m_to_simplify s) wl →
  Qok (heap s) processed (m_processed s) → Det s e x →
  is_val (m_poly x) = false → is_val (hi (m_poly x)) = true →
  let s' := push_equation solved e s in
  G s' (.∈ m_processed s') (.∈ m_to_simplify s') wl
  ∧ Qok (heap s') processed (m_processed s')
  ∧ e ∈ m_solved s' ∧ poly s' e = m_poly x.
Proof.
  intros HG HQ HD Hnv Hhi s'.
  pose proof (Det_not_in s e x _ _ solved HG HQ HD) as Hsv.
  pose proof (Det_not_in s e x _ _ processed HG HQ HD) as Hpr.
  pose proof (Det_not_in s e x _ _ to_simplify HG HQ HD) as Hts.
  pose proof HD as (Hx & _).
  split; [|split; [|split]].
  - eapply G_push; [exact Hx|done..| |exact HG]. intros _. by left.
  - unfold s'. rewrite heap_push. by apply Qok_push_ne.
  - cbn. apply elem_of_app. right. by left.
  - unfold poly, deref, s'. cbn. by rewrite !lookup_alter_eq, Hx.
Qed.

(** The state after simplify_using(eq, processed). *)
Lemma mid_ok_upd_only s s' e x :
  upd_only e s s' → pdd_wf (poly s' e) → mid_ok s e x →
  mid_ok s' e (mk_equation (m_state x) (m_idx x) (poly s' e) (m_dep (deref s' e))).
Proof.
  intros Hu Hwf (HG & HQ & HD).
  pose proof (Det_not_in s e x _ _ solved HG HQ HD) as Hsv.
  pose proof (Det_not_in s e x _ _ processed HG HQ HD) as Hpr.
  pose proof (Det_not_in s e x _ _ to_simplify HG HQ HD) as Hts.
  pose proof HD as (Hx & Hst & _).
  pose proof (upd_only_struct _ _ _ Hu)
    as (E1&E2&E3&E4&E5&E6&E7&E8&E9&E10&E11&E12).
  split; [|split].
  - rewrite E5, E6, (watch_of_eq _ _ E11). by eapply (G_upd_only s s' e).
  - rewrite E5. by eapply Qok_upd_only.
  - split; [exact (upd_only_lookup _ _ _ _ Hu Hx)|]. split; [done|by rewrite E6].
Qed.

Lemma mid_ok_sources s e x : mid_ok s e x → sources_ok s e (m_processed s).
Proof.
  intros (HG & HQ & HD). split.
  - exact (Det_not_in s e x _ _ processed HG HQ HD).
  - intros p Hp. destruct (Qok_lookup _ _ _ _ HQ Hp) as (xp & Hxp & _).
    exists xp. split; [done|]. exact (g_wf _ _ _ _ HG _ _ Hxp).
Qed.

Lemma mid_ok_exc s e x : mid_ok s e x → exc_ok s e x.
Proof. intros (HG & HQ & HD). split; [eauto|done]. Qed.

Lemma step_body_spec s1 e x :
  mid_ok s1 e x → is_val (m_poly x) = false →
  body_post e s1 (step_body e s1).
Proof.
  intros Hmid Hnv. pose proof Hmid as (HG & HQ & HD).
  pose proof HD as (Hx & Hst & Hnin).
  unfold step_body. unfold bind at 1, get. unfold bind at 1.
  pose proof (simplify_using_spec e (m_processed s1) s1 x Hx
                (mid_ok_sources _ _ _ Hmid) (g_wf _ _ _ _ HG _ _ Hx) Hnv) as H1.
  destruct (simplify_using e (m_processed s1) s1) as [[[]| |] sA] eqn:EA;
    [| |done].
  2:{ destruct H1 as (Hu & Hwf & HnvA). eexists. split.
      - apply mid_ok_exc. eapply mid_ok_upd_only; eauto.
      - done. }
  destruct H1 as (Hu & Hwf).
  pose proof (mid_ok_upd_only _ _ _ _ Hu Hwf Hmid) as HmidA.
  set (xA := mk_equation _ _ _ _) in HmidA.
  unfold bind at 1. cbv beta iota.
  destruct (is_trivial sA e) eqn:Htriv.
  { unfold bind, modify, ret. cbv beta iota.
    destruct (mid_ok_retire _ _ _ HmidA) as [Hinv Hgone].
    left. split; [done|]. split; [done|]. split; [done|]. split; [done|].
    exists sA. done. }
  unfold bind at 1, call at 1, check_conflict.
  destruct (is_conflict sA e) eqn:Hconf.
  { cbv beta iota. unfold ret.
    destruct (mid_ok_set_conflict _ _ _ HmidA Hconf) as (Hinv & Hc & Hin & Hisc).
    right; left. done. }
  cbv beta iota.
  pose proof (not_trivial_not_conflict _ _ Htriv Hconf) as HnvA.
  change (is_val (m_poly xA) = false) in HnvA.
  unfold bind at 1, modify at 1. cbv beta iota.
  set (sA' := set_too_complex false sA).
  assert (HmidA' : mid_ok sA' e xA) by by apply (mid_ok_same sA).
  unfold bind at 1.
  pose proof (simplify_using_set_spec sA' e xA HmidA') as H2.
  destruct (simplify_using_set e sA') as [[[]| |] sB]; cbn [post_any] in H2;
    [| |done].
  2:{ exists xA. split; [by apply mid_ok_exc|done]. }
  unfold bind at 1. cbv beta iota.
  destruct (done sB) eqn:HdB.
  { unfold ret. right; right; left. split; [done|]. split; [done|].
    split; [done|]. by exists xA. }
  unfold bind at 1.
  pose proof (superpose_spec e sB xA H2) as H3.
  destruct (superpose e sB) as [[[]| |] sC]; cbn [post_any] in H3; [| |done].
  2:{ destruct H3 as [H3 _]. exists xA. split; [by apply mid_ok_exc|done]. }
  destruct H3 as [H3 _].
  unfold bind at 1.
  pose proof (simplify_watch_spec sC e xA H3 HnvA) as H4.
  destruct (simplify_watch e sC) as [[[]| |] sD]; [| |done].
  2:{ by exists xA. }
  unfold bind at 1. cbv beta iota.
  destruct (done sD) eqn:HdD.
  { unfold ret. right; right; left. split; [done|]. split; [done|].
    split; [done|]. by exists xA. }
  destruct H4 as (HGD & HQD & HDD). pose proof HDD as (HxD & _).
  assert (HpD : poly sD e = m_poly xA).
  { unfold poly. by rewrite (deref_lookup _ _ _ HxD). }
  destruct (m_too_complex sD) eqn:Htc; cbn [negb].
  2:{ unfold bind, call, scoped_process_done, ret. rewrite HpD.
      destruct (is_val (hi (m_poly xA))) eqn:Hhi; cbv beta iota.
      - destruct (commit_solved sD e xA _ HGD HQD HDD HnvA Hhi)
          as (HG' & HQ' & Hin & Hp').
        do 3 right. left. split; [done|]. split; [done|]. split; [done|].
        split; [by split|]. rewrite Hp'. split; [done|]. by rewrite Hhi.
      - destruct (commit_processed sD e xA _ HGD HQD HDD HnvA)
          as (HG' & HQ' & Hin & Hp').
        do 3 right. left. split; [done|]. split; [done|]. split; [done|].
        split; [by split|]. rewrite Hp'. split; [done|]. by rewrite Hhi. }
  unfold bind, ret. cbv beta iota.
  do 4 right. split; [done|]. split; [done|]. split; [done|].
  exists xA. by split.
Qed.

Lemma inv_same s s' :
  heap s' = heap s → next_ptr s' = next_ptr s →
  m_solved s' = m_solved s → m_to_simplify s' = m_to_simplify s →
  m_processed s' = m_processed s →
  m_conflict s' = m_conflict s → m_levelp1 s' = m_levelp1 s →
  m_level2var s' = m_level2var s → m_var2level s' = m_var2level s →
  m_watch s' = m_watch s →
  inv s → inv s'.
Proof.
  intros Hh Hn Hsv Hts Hpr Hcf Hl Hlv Hvl Hw (HG & HQ). split.
  - rewrite Hpr, Hts, (watch_of_eq _ _ Hw).
    eapply G_same; [..|exact HG]; try done. by rewrite Hw.
  - by rewrite Hh, Hpr.
Qed.

Lemma done_push_processed s e :
  done s = true → done (push_equation processed e s) = true.
Proof.
  unfold done, canceled. cbn. rewrite length_app. cbn.
  intros H. repeat (apply orb_true_iff in H as [H|H]); rewrite ?H, ?orb_true_r;
    try done.
  apply Z.leb_le in H. rewrite (proj2 (Z.leb_le _ _)); [done|lia].
Qed.

Lemma done_conflict s e : m_conflict s = Some e → done s = true.
Proof.
  intros H. unfold done. rewrite H.
  rewrite (bool_decide_eq_true_2 (Some e ≠ None)) by done.
  by rewrite !orb_true_r.
Qed.

(** What pick_next hands to the body of a step. *)
Lemma pick_next_mid s e s1 :
  inv s → pick_next s = (Some e, s1) →
  ∃ x, mid_ok s1 e x ∧ is_val (m_poly x) = false.
Proof.
  intros (HG & HQ) Hpick. unfold pick_next in Hpick.
  pose proof (pick_next_loop_spec (m_levelp1 s) s _ eq_refl HG) as Hp.
  rewrite Hpick in Hp.
  destruct Hp as (x & Hx & Hin & HD & Hnv & HG1 & Hpoly & HQo & Hmem
                  & E1 & E2 & _).
  exists x. split; [|done]. split; [by rewrite E2|]. split; [|done].
  rewrite E2. by apply HQo.
Qed.

Lemma pick_next_none s s1 :
  inv s → pick_next s = (None, s1) → inv s1 ∧ m_to_simplify s1 = [].
Proof.
  intros (HG & HQ) Hpick. unfold pick_next in Hpick.
  pose proof (pick_next_loop_spec (m_levelp1 s) s _ eq_refl HG) as Hp.
  rewrite Hpick in Hp. destruct Hp as [-> Hts].
  split; [|done]. split; [|done].
  apply G_set_levelp1; [|done]. intros a Ha. cbn in Ha. rewrite Hts in Ha.
  by apply elem_of_nil in Ha.
Qed.

(** A step whose pick_next returns [e]: the invariant afterwards, and
    where [e] ends up. *)
Lemma step_picked_spec s e s1 :
  inv s → pick_next (inc_compute_steps s) = (Some e, s1) →
  match step s with
  | (Val b, s') =>
      inv s' ∧ (b = false → done s' = true)
      ∧ ((b = true ∧ heap s' !! e = None
          ∧ ∃ sm, simplify_using e (m_processed s1) s1 = (Val tt, sm)
                  ∧ is_trivial sm e = true)
         ∨ (b = false ∧ m_conflict s' = Some e ∧ e ∈ m_solved s'
            ∧ is_conflict s' e = true)
         ∨ (b = true ∧ m_too_complex s' = false ∧ e ∈ m_solved s'
            ∧ is_val (poly s' e) = false ∧ is_val (hi (poly s' e)) = true)
         ∨ (e ∈ m_processed s' ∧ is_val (poly s' e) = false
            ∧ (b = true →
               m_too_complex s' = true ∨ is_val (hi (poly s' e)) = false)))
  | (MemOut, s') =>
      qinv s' ∧ e ∈ m_processed s' ∧ is_val (poly s' e) = false
  | (Timeout, _) => False
  end.
Proof.
  intros Hinv Hpick.
  assert (Hinv0 : inv (inc_compute_steps s)) by by apply (inv_same s).
  destruct (pick_next_mid _ _ _ Hinv0 Hpick) as (x & Hmid & Hnv).
  pose proof (step_body_spec s1 e x Hmid Hnv) as Hb.
  unfold step. rewrite Hpick.
  destruct (step_body e s1) as [[[b sd]| |] s2]; cbn [body_post] in Hb; [| |done].
  - destruct Hb as [Hb|[Hb|[Hb|[Hb|Hb]]]].
    + destruct Hb as (-> & -> & Hinv2 & Hgone & Hsm). cbn.
      split; [done|]. split; [done|]. left. done.
    + destruct Hb as (-> & -> & Hinv2 & Hc & Hin & Hisc). cbn.
      split; [done|]. split; [intros _; by eapply done_conflict|].
      right; left. done.
    + destruct Hb as (-> & -> & Hd & x' & (HG2 & HQ2 & HD2) & Hnv').
      cbn [scoped_process_dtor].
      destruct (commit_processed s2 e x' _ HG2 HQ2 HD2 Hnv')
        as (HG' & HQ' & Hin & Hp').
      split; [by split|]. split; [intros _; by apply done_push_processed|].
      do 3 right. rewrite Hp'. done.
    + destruct Hb as (-> & -> & Htc & Hinv2 & Hnv2 & Hplace). cbn.
      split; [done|]. split; [done|].
      destruct (is_val (hi (poly s2 e))) eqn:Hhi.
      * right; right; left. done.
      * do 3 right. split; [done|]. split; [done|]. auto.
    + destruct Hb as (-> & -> & Htc & x' & (HG2 & HQ2 & HD2) & Hnv').
      cbn [scoped_process_dtor].
      destruct (commit_processed s2 e x' _ HG2 HQ2 HD2 Hnv')
        as (HG' & HQ' & Hin & Hp').
      split; [by split|]. split; [done|].
      do 3 right. rewrite Hp'. split; [done|]. split; [done|]. intros _. by left.
  - destruct Hb as (x' & ([wl HG2] & HQ2 & HD2) & Hnv').
    cbn [scoped_process_dtor].
    destruct (commit_processed s2 e x' _ HG2 HQ2 HD2 Hnv')
      as (HG' & HQ' & Hin & Hp').
    split; [by eapply G_qinv|]. split; [done|]. by rewrite Hp'.
Qed.

(** The invariant is kept by every step that returns; mem_out leaves the
    queues in order. *)
Lemma step_spec s :
  inv s →
  match step s with
  | (Val b, s') =>
      inv s' ∧ (b = false → done s' = true ∨ m_to_simplify s' = [])
  | (MemOut, s') => qinv s'
  | (Timeout, _) => False
  end.
Proof.
  intros Hinv.
  destruct (pick_next (inc_compute_steps s)) as [[e|] s1] eqn:Hpick.
  - pose proof (step_picked_spec s e s1 Hinv Hpick) as Hs.
    destruct (step s) as [[b| |] s']; [| |done].
    + destruct Hs as (? & Hd & _). split; [done|]. auto.
    + by destruct Hs.
  - unfold step. rewrite Hpick.
    assert (Hinv0 : inv (inc_compute_steps s)) by by apply (inv_same s).
    destruct (pick_next_none _ _ Hinv0 Hpick). auto.
Qed.

End Step.

Section InitSaturate.
Context {PM : PddManager} {PL : PddLaws PM}.
Implicit Types (h : gmap nat equation) (q sv ts w W : list ptr) (e t a : ptr).
Implicit Types (x : equation) (f : equation → equation).
Implicit Types (pm tm : ptr → Prop) (wl : nat → list ptr) (s : solver).

Lemma level_fold_spec k s1 :
  let n := length get_level2var in
  k ≤ n → length (m_level2var s1) = n → length (m_var2level s1) = n →
  let s' := foldl level_step s1 (seq 0 k) in
  length (m_level2var s') = n ∧ length (m_var2level s') = n
  ∧ (∀ i, i < k → m_level2var s' !! i = get_level2var !! i)
  ∧ (∀ i, i < k → m_var2level s' !! (get_level2var !!! i) = Some i)
  ∧ heap s' = heap s1 ∧ next_ptr s' = next_ptr s1
  ∧ m_solved s' = m_solved s1 ∧ m_to_simplify s' = m_to_simplify s1
  ∧ m_processed s' = m_processed s1 ∧ m_conflict s' = m_conflict s1
  ∧ m_stats s' = m_stats s1 ∧ m_config s' = m_config s1
  ∧ m_limit s' = m_limit s1.
Proof.
  intros n. induction k as [|k IH]; intros Hk Hl1 Hl2 s'.
  { subst s'. cbn. repeat split; try done; intros; lia. }
  subst s'. rewrite seq_S, foldl_app. cbn [foldl Nat.add].
  destruct (IH ltac:(lia) Hl1 Hl2)
    as (L1 & L2 & A & B & E1 & E2 & E3 & E4 & E5 & E6 & E7 & E8 & E9).
  set (s2 := foldl level_step s1 (seq 0 k)) in *.
  assert (Hkl : get_level2var !! k = Some (get_level2var !!! k)).
  { apply list_lookup_lookup_total_lt. fold n. lia. }
  assert (Hb : get_level2var !!! k < n).
  { apply level2var_bound. by eapply list_elem_of_lookup_2. }
  unfold level_step. cbn.
  split; [by rewrite length_insert|]. split; [by rewrite length_insert|].
  split; [|split; [|done]].
  - intros i Hi. destruct (decide (i = k)) as [->|Hne].
    + rewrite list_lookup_insert_eq by lia. done.
    + rewrite list_lookup_insert_ne by done. apply A. lia.
  - intros i Hi. destruct (decide (i = k)) as [->|Hne].
    + rewrite list_lookup_insert_eq by lia. done.
    + rewrite list_lookup_insert_ne; [apply B; lia|].
      intros Heq.
      assert (Hil : get_level2var !! i = Some (get_level2var !!! i)).
      { apply list_lookup_lookup_total_lt. fold n. lia. }
      rewrite <- Heq in Hil.
      pose proof (level2var_inj _ _ _ Hkl Hil). lia.
Qed.

Lemma foldl_add_to_watch_fields l s :
  let s' := foldl (λ s e, add_to_watch e s) s l in
  heap s' = heap s ∧ m_to_simplify s' = m_to_simplify s
  ∧ m_processed s' = m_processed s ∧ m_solved s' = m_solved s
  ∧ m_conflict s' = m_conflict s ∧ m_levelp1 s' = m_levelp1 s
  ∧ next_ptr s' = next_ptr s ∧ m_stats s' = m_stats s
  ∧ m_config s' = m_config s ∧ m_limit s' = m_limit s.
Proof.
  revert s. induction l as [|e l IH]; intros s; cbn; [done|].
  destruct (IH (add_to_watch e s)) as (E1&E2&E3&E4&E5&E6&E7&E8&E9&E10).
  destruct (add_to_watch_fields s e) as (F1&F2&F3&F4&F5&F6&F7&F8&F9&F10).
  cbv zeta in *.
  repeat split; etrans; eassumption.
Qed.

(** Filling the watch index from the to-simplify queue. *)
Lemma watch_fold_spec l s pm donel :
  NoDup (donel ++ l) →
  (∀ a, a ∈ l → a ∈ m_to_simplify s ∧ is_val (poly s a) = false
              ∧ ∃ i, i < m_levelp1 s
                     ∧ get_level2var !! i = Some (var (poly s a))) →
  G s pm (.∈ donel) (watch_of s) →
  let s' := foldl (λ s e, add_to_watch e s) s l in
  G s' pm (.∈ donel ++ l) (watch_of s').
Proof.
  revert s donel. induction l as [|e l IH]; intros s donel Hnd Hl HG s'.
  { subst s'. cbn. by rewrite app_nil_r. }
  subst s'. cbn [foldl].
  destruct (Hl e ltac:(by left)) as (Hin & Hnv & Hlev).
  destruct (add_to_watch_fields s e) as (F1&F2&F3&F4&F5&F6&F7&F8&F9&F10).
  cbv zeta in *.
  assert (Hnd' : NoDup ((donel ++ [e]) ++ l)) by by rewrite <- app_assoc.
  assert (He : e ∉ donel).
  { apply NoDup_app in Hnd as (_ & Hd & _). intros Hin'. apply (Hd e Hin'). by left. }
  pose proof (g_wf _ _ _ _ HG) as Hwf.
  destruct (Qok_lookup _ _ _ _ (g_to_simplify _ _ _ _ HG) Hin) as (xe & Hxe & _).
  assert (Hvr : var (poly s e) < length (m_watch s)).
  { eapply LVok_var_range; [apply HG| |done].
    unfold poly. rewrite (deref_lookup _ _ _ Hxe). by eapply Hwf. }
  specialize (IH (add_to_watch e s) (donel ++ [e]) Hnd').
  rewrite <- app_assoc in IH. apply IH.
  - intros a Ha. destruct (Hl a ltac:(by right)) as (? & ? & ?).
    unfold poly, deref. rewrite F1, F2, F6. done.
  - unfold add_to_watch at 1 2. rewrite Hnv.
    eapply G_equiv; [| | |eapply (G_tm_add _ e);
                           [| | | |eapply (G_set_watch_of s), HG]].
    + done.
    + intros a. cbn. rewrite elem_of_app, list_elem_of_singleton. done.
    + intros v'. cbn beta. rewrite watch_of_set by done.
      change (hpoly (heap (set_watch_of ?v ?w s)) e) with (poly s e).
      by destruct (decide (v' = var (poly s e))) as [->|].
    + done.
    + done.
    + done.
    + done.
Qed.

Lemma replicate_lookup_total_nil (n v : nat) :
  (replicate n ([] : list ptr)) !!! v = [].
Proof.
  destruct (decide (v < n)).
  - apply list_lookup_total_correct. by apply lookup_replicate_2.
  - rewrite list_lookup_total_alt, lookup_ge_None_2; [done|].
    rewrite length_replicate. lia.
Qed.

(** init_saturate puts the watch index in place. *)
Lemma init_saturate_inv s : qinv s → inv (init_saturate s).
Proof.
  intros Hrec. open_qinv Hrec.
  unfold init_saturate.
  set (n := length get_level2var).
  set (s1 := set_var2level _ (set_level2var _ s)).
  destruct (level_fold_spec n s1 (le_n _))
    as (L1 & L2 & A & B & E1 & E2 & E3 & E4 & E5 & E6 & E7 & E8 & E9).
  { cbn. by rewrite length_resize. }
  { cbn. by rewrite length_resize. }
  set (s2 := foldl level_step s1 (seq 0 n)) in *.
  assert (Hl2v : m_level2var s2 = get_level2var).
  { apply list_eq_same_length with n; [done..|].
    intros i y z Hi Hy Hz. rewrite A in Hy by done. congruence. }
  set (s4 := set_levelp1 _ (set_watch _ s2)).
  assert (HLV : LVok s4).
  { split; [exact Hl2v|]. split.
    - intros i v Hi. pose proof (lookup_lt_Some _ _ _ Hi) as Hlt. fold n in Hlt.
      rewrite <- (list_lookup_total_correct _ _ _ Hi). by apply B.
    - cbn. by rewrite length_replicate, Hl2v. }
  assert (Hw4 : ∀ v, watch_of s4 v = []).
  { intros v. unfold watch_of. cbn. apply replicate_lookup_total_nil. }
  assert (HG4 : G s4 (.∈ m_processed s) (.∈ []) (watch_of s4)).
  { constructor; cbn; rewrite ?E1, ?E2, ?E3, ?E4, ?E6; try done.
    - intros a Ha. by apply elem_of_nil in Ha.
    - intros a Ha. by apply elem_of_nil in Ha.
    - split; [|split].
      + intros v a. rewrite Hw4. by intros ?%elem_of_nil.
      + intros v. rewrite Hw4. constructor.
      + intros a Ha. by apply elem_of_nil in Ha.
    - intros a Ha. by apply elem_of_nil in Ha. }
  pose proof (watch_fold_spec (m_to_simplify s4) s4 (.∈ m_processed s) [])
    as Hf.
  cbn [app] in Hf.
  destruct (foldl_add_to_watch_fields (m_to_simplify s4) s4)
    as (F1&F2&F3&F4&F5&F6&F7&F8&F9&F10). cbv zeta in *.
  assert (Hts4 : m_to_simplify s4 = m_to_simplify s) by exact E4.
  split.
  - rewrite F3, F2. change (m_processed s4) with (m_processed s2). rewrite E5.
    apply Hf; [| |exact HG4].
    + rewrite Hts4. by eapply Qok_NoDup.
    + intros a Ha. split; [done|]. rewrite Hts4 in Ha.
      change (poly s4 a) with (hpoly (heap s2) a). rewrite E1.
      split; [by apply qi_nonconst_ts|].
      destruct (Qok_lookup _ _ _ _ qi_to_simplify Ha) as (xa & Hxa & _).
      destruct (level_of_wf (hpoly (heap s) a)) as [i Hi].
      * rewrite (hpoly_lookup _ _ _ Hxa). by eapply qi_wf.
      * by apply qi_nonconst_ts.
      * exists i. split; [|done]. cbn. rewrite Hl2v.
        by eapply lookup_lt_Some.
  - rewrite F1, F3. change (heap s4) with (heap s2).
    change (m_processed s4) with (m_processed s2). by rewrite E1, E5.
Qed.

Lemma init_saturate_fields s :
  let s' := init_saturate s in
  heap s' = heap s ∧ m_to_simplify s' = m_to_simplify s
  ∧ m_processed s' = m_processed s ∧ m_solved s' = m_solved s
  ∧ m_conflict s' = m_conflict s ∧ next_ptr s' = next_ptr s
  ∧ m_stats s' = m_stats s ∧ m_config s' = m_config s
  ∧ m_limit s' = m_limit s.
Proof.
  unfold init_saturate.
  set (n := length get_level2var).
  set (s1 := set_var2level _ (set_level2var _ s)).
  destruct (level_fold_spec n s1 (le_n _))
    as (L1 & L2 & A & B & E1 & E2 & E3 & E4 & E5 & E6 & E7 & E8 & E9).
  { cbn. by rewrite length_resize. }
  { cbn. by rewrite length_resize. }
  set (s2 := foldl level_step s1 (seq 0 n)) in *.
  set (s4 := set_levelp1 _ (set_watch _ s2)).
  destruct (foldl_add_to_watch_fields (m_to_simplify s4) s4)
    as (F1&F2&F3&F4&F5&F6&F7&F8&F9&F10). cbv zeta in *.
  rewrite F1, F2, F3, F4, F5, F7, F8, F9, F10. done.
Qed.

End InitSaturate.

Section Saturate.
Context {PM : PddManager} {PL : PddLaws PM}.
Implicit Types (h : gmap nat equation) (q sv ts w W : list ptr) (e t a : ptr).
Implicit Types (x : equation) (s : solver).

(** Whatever the fuel, a loop that returns has kept the invariant and
    has stopped for a reason; one left by mem_out has kept the queues. *)
Lemma saturate_loop_spec fuel s :
  inv s →
  match saturate_loop fuel s with
  | (Val _, s') => inv s' ∧ (done s' = true ∨ m_to_simplify s' = [])
  | (MemOut, s') => qinv s'
  | (Timeout, _) => True
  end.
Proof.
  revert s. induction fuel as [|fuel IH]; intros s Hinv; cbn; [done|].
  unfold bind at 1, get.
  destruct (done s) eqn:Hd; [cbn; auto|].
  unfold bind.
  pose proof (step_spec s Hinv) as Hs.
  destruct (step s) as [[[]| |] s1]; [| |done|done].
  - destruct Hs as [Hinv1 _]. by apply IH.
  - destruct Hs as [Hinv1 Hstop]. cbn. auto.
Qed.

(** With fuel beyond the step cap the loop does not run out of it. *)
Lemma saturate_loop_terminates fuel s :
  inv s →
  (0 ≤ m_max_steps (m_config s) < 2 ^ 32 - 1)%Z →
  (0 ≤ m_compute_steps (m_stats s))%Z →
  Z.to_nat (m_max_steps (m_config s) + 1 - m_compute_steps (m_stats s)) < fuel →
  (saturate_loop fuel s).1 ≠ Timeout.
Proof.
  revert s. induction fuel as [|fuel IH]; intros s Hinv Hmax Hsteps Hfuel; [lia|].
  cbn. unfold bind at 1, get.
  destruct (done s) eqn:Hd; [done|].
  unfold bind.
  pose proof (step_spec s Hinv) as Hs.
  pose proof (step_frame s) as Hf. cbv zeta in Hf.
  destruct (step s) as [[[]| |] s1]; [|done|done|done].
  destruct Hs as [Hinv1 _]. destruct Hf as (Hc & _ & Hst). cbn in Hc, Hst.
  assert (Hle : (m_compute_steps (m_stats s) ≤ m_max_steps (m_config s))%Z).
  { unfold done in Hd. repeat (apply orb_false_iff in Hd as [Hd ?]).
    apply Z.ltb_ge. done. }
  assert (Hst' : m_compute_steps (m_stats s1) = (m_compute_steps (m_stats s) + 1)%Z).
  { rewrite Hst. unfold wrap32. apply Z.mod_small. lia. }
  apply IH; [done|by rewrite Hc|lia|]. rewrite Hc, Hst'. lia.
Qed.

Lemma saturate_loop_terminates' fuel s :
  inv s →
  (0 ≤ m_max_steps (m_config s) < 2 ^ 32 - 1)%Z →
  Z.to_nat (m_max_steps (m_config s)) + 3 ≤ fuel →
  (saturate_loop fuel s).1 ≠ Timeout.
Proof.
  intros Hinv Hmax Hfuel. destruct fuel as [|fuel]; [lia|].
  cbn. unfold bind at 1, get.
  destruct (done s) eqn:Hd; [done|].
  unfold bind.
  pose proof (step_spec s Hinv) as Hs.
  pose proof (step_frame s) as Hf. cbv zeta in Hf.
  destruct (step s) as [[[]| |] s1]; [|done|done|done].
  destruct Hs as [Hinv1 _]. destruct Hf as (Hc & _ & Hst). cbn in Hc, Hst.
  assert (Hr : (0 ≤ m_compute_steps (m_stats s1) < 2 ^ 32)%Z).
  { rewrite Hst. unfold wrap32. apply Z.mod_pos_bound. lia. }
  apply saturate_loop_terminates; [done|by rewrite Hc|lia|]. rewrite Hc. lia.
Qed.

(** The states between steps satisfy the invariant. *)
Lemma between_steps_inv s0 s : qinv s0 → between_steps s0 s → inv s.
Proof.
  intros Hq Hb. induction Hb as [|s b s' Hb IH Hstep].
  - by apply init_saturate_inv.
  - pose proof (step_spec s IH) as Hs. rewrite Hstep in Hs. by destruct Hs.
Qed.

Lemma qinv_placed s st e : qinv s → e ∈ queue st s → placed s st e.
Proof.
  intros Hrec Hin. open_qinv Hrec.
  assert (HQ : ∀ st', Qok (heap s) st' (queue st' s)) by by intros [].
  destruct (Qok_lookup _ _ _ _ (HQ st) Hin) as (x & Hx & Hst & _).
  split; [|split].
  - apply NoDup_count_occ'; [|by apply list_elem_of_In].
    apply NoDup_ListNoDup. by eapply Qok_NoDup.
  - by rewrite (deref_lookup _ _ _ Hx).
  - intros st' Hne Hin'. pose proof (Qok_state _ _ _ _ _ (HQ st') Hin' Hx).
    congruence.
Qed.

Lemma qinv_gone s e : qinv s → heap s !! e = None → in_no_queue s e.
Proof.
  intros Hrec Hgone st Hin. open_qinv Hrec.
  assert (HQ : ∀ st', Qok (heap s) st' (queue st' s)) by by intros [].
  apply (Qok_in_heap _ _ _ _ (HQ st)) in Hin. rewrite Hgone in Hin.
  by destruct Hin.
Qed.

Lemma inv_watch_entries s : inv s → watch_entries_ok s.
Proof.
  intros [Hrec HQ] v e He. open_G Hrec.
  destruct g_watch as (W1 & _). destruct (W1 v e He) as [Hin Hv].
  destruct (Qok_lookup _ _ _ _ g_to_simplify Hin) as (x & Hx & Hst & _).
  split; [by rewrite (deref_lookup _ _ _ Hx)|]. done.
Qed.

Lemma inv_watched_once s : inv s → watched_once s.
Proof.
  intros [Hrec HQ] e He. open_G Hrec. destruct g_watch as (_ & W2 & W3).
  apply NoDup_count_occ'; [apply NoDup_ListNoDup, W2|].
  apply list_elem_of_In. by apply W3.
Qed.

Lemma inv_processed_unwatched s : inv s → processed_unwatched s.
Proof.
  intros [Hrec HQ] e v Hp Hw. open_G Hrec. destruct g_watch as (W1 & _).
  destruct (W1 v e Hw) as [Hin _].
  by eapply (Qok_disjoint _ processed to_simplify).
Qed.

End Saturate.

(** ** The concrete algebra satisfies the contract *)

Section Lin2Laws.
Local Open Scope N_scope.

Lemma pow2_bound_lxor (a b k : N) : a < 2 ^ k → b < 2 ^ k → N.lxor a b < 2 ^ k.
Proof.
  intros Ha Hb.
  destruct (N.eq_dec (N.lxor a b) 0) as [->|Hne]; [lia|].
  apply N.log2_lt_pow2; [lia|].
  eapply N.le_lt_trans; [apply N.log2_lxor|].
  apply N.max_lub_lt.
  - destruct (N.eq_dec a 0) as [->|]; [|apply N.log2_lt_pow2; lia].
    cbn. destruct (N.eq_dec k 0) as [->|]; [|lia].
    cbn in Hb. assert (b = 0) as -> by lia. done.
  - destruct (N.eq_dec b 0) as [->|]; [|apply N.log2_lt_pow2; lia].
    cbn. destruct (N.eq_dec k 0) as [->|]; [|lia].
    cbn in Ha. assert (a = 0) as -> by lia. done.
Qed.

Lemma testbit_log2_le (p k : N) : N.testbit p k = true → k ≤ N.log2 p.
Proof.
  intros Hb. destruct (N.le_gt_cases k (N.log2 p)) as [|Hlt]; [done|].
  rewrite N.bits_above_log2 in Hb by done. done.
Qed.

Lemma log2_lxor_le (p q : N) :
  q ≠ 0 → N.testbit p (N.log2 q) = true → N.log2 (N.lxor p q) ≤ N.log2 p.
Proof.
  intros Hq Hb. eapply N.le_trans; [apply N.log2_lxor|].
  apply N.max_lub; [lia|]. by apply testbit_log2_le.
Qed.

Lemma mod_pow2_succ (a k : N) :
  a mod 2 ^ N.succ k = a mod 2 ^ k + 2 ^ k * N.b2n (N.testbit a k).
Proof.
  rewrite N.pow_succ_r', (N.mul_comm 2).
  rewrite N.Div0.mod_mul_r. by rewrite N.testbit_spec'.
Qed.

(** Adding [q] to a polynomial that contains its leading variable lowers
    the polynomial in the order of the masks. *)
Lemma lxor_decreases (p q : N) :
  q ≠ 0 → N.testbit p (N.log2 q) = true → N.lxor p q < p.
Proof.
  intros Hq Hb. set (k := N.log2 q) in *. set (r := N.lxor p q).
  assert (Hrk : N.testbit r k = false).
  { unfold r. rewrite N.lxor_spec, Hb. unfold k. by rewrite N.bit_log2. }
  assert (Hhi : r / 2 ^ N.succ k = p / 2 ^ N.succ k).
  { rewrite <- !N.shiftr_div_pow2. unfold r. rewrite N.shiftr_lxor.
    rewrite (N.shiftr_eq_0 q) by (unfold k; lia). apply N.lxor_0_r. }
  rewrite (N.div_mod r (2 ^ N.succ k)), (N.div_mod p (2 ^ N.succ k))
    by (apply N.pow_nonzero; lia).
  rewrite Hhi, !mod_pow2_succ, Hrk, Hb. cbn [N.b2n].
  assert (H : r mod 2 ^ k < 2 ^ k) by (apply N.mod_lt, N.pow_nonzero; lia).
  revert H.
  generalize (2 ^ N.succ k * (p / 2 ^ N.succ k)).
  generalize (r mod 2 ^ k). generalize (p mod 2 ^ k). generalize (2 ^ k).
  clear. intros; lia.
Qed.

End Lin2Laws.

Global Instance lin2_laws (nvars budget limit : nat) :
  PddLaws (Lin2.manager nvars budget limit).
Proof.
  split; cbn.
  - intros p q r Hp Hq. unfold Lin2.lin_reduce.
    destruct (_ <? _); [done|]. destruct (Lin2.lin_is_val q); [by intros [= <-]|].
    destruct (N.testbit _ _); intros [= <-]; [|done].
    by apply pow2_bound_lxor.
  - intros p q r Hp Hq. unfold Lin2.lin_spoly.
    destruct (_ <? _); [done|]. destruct (_ || _); [done|].
    destruct (_ =? _)%N; [|done]. intros [= <-]. by apply pow2_bound_lxor.
  - intros p Hp Hv. rewrite length_seq. unfold Lin2.lin_var, Lin2.lin_is_val in *.
    apply N.ltb_ge in Hv.
    assert (N.log2 p < N.of_nat (S nvars))%N by (apply N.log2_lt_pow2; lia).
    assert (1 ≤ N.log2 p)%N by (apply (N.log2_le_mono 2 p); lia).
    lia.
  - intros p q r i j Hred Hvp Hvr Hi Hj.
    apply lookup_seq in Hi as [Hi _], Hj as [Hj _]. cbn in Hi, Hj. subst i j.
    unfold Lin2.lin_reduce in Hred.
    destruct (_ <? _); [done|].
    destruct (Lin2.lin_is_val q) eqn:Hq; [by injection Hred as <-|].
    destruct (N.testbit _ _) eqn:Hb; injection Hred as <-; [|done].
    unfold Lin2.lin_is_val in Hq. apply N.ltb_ge in Hq.
    pose proof (log2_lxor_le p q ltac:(lia) Hb). unfold Lin2.lin_var. lia.
  - intros p q r Hred Hne. unfold Lin2.lin_reduce in Hred.
    destruct (_ <? _); [done|].
    destruct (Lin2.lin_is_val q) eqn:Hq; [by injection Hred as <-|].
    destruct (N.testbit _ _) eqn:Hb; injection Hred as <-; [|done].
    unfold Lin2.lin_is_val in Hq. apply N.ltb_ge in Hq.
    pose proof (lxor_decreases p q ltac:(lia) Hb). lia.
  - apply NoDup_seq.
  - intros v Hv%elem_of_seq. rewrite length_seq. lia.
Qed.

(** ** The queue invariant holds of every engine built by [add] *)

Section AddQinv.
Context {PM : PddManager}.
Implicit Types (h : gmap nat equation) (q sv ts w W : list ptr) (e t a : ptr).
Implicit Types (x : equation) (s : solver).

Lemma qinv_same s s' :
  heap s' = heap s → next_ptr s' = next_ptr s →
  m_solved s' = m_solved s → m_to_simplify s' = m_to_simplify s →
  m_processed s' = m_processed s → m_conflict s' = m_conflict s →
  qinv s → qinv s'.
Proof.
  intros Hh Hn Hsv Hts Hpr Hcf Hrec. open_qinv Hrec. constructor;
    rewrite ?Hh, ?Hn, ?Hsv, ?Hts, ?Hpr, ?Hcf; done.
Qed.

Lemma qinv_fresh_ptr s st : qinv s → next_ptr s ∉ queue st s.
Proof.
  intros Hrec Hin. open_qinv Hrec.
  assert (HQ : ∀ st', Qok (heap s) st' (queue st' s)) by by intros [].
  apply (Qok_in_heap _ _ _ _ (HQ st)) in Hin.
  rewrite (FRok_fresh _ _ qi_fresh) in Hin. by destruct Hin.
Qed.

Lemma qinv_alloc_push s p d st :
  qinv s → pdd_wf p →
  match st with
  | solved => solved_shape p
  | _ => is_val p = false
  end →
  qinv (push_equation st (next_ptr s) (alloc p d s).2).
Proof.
  intros Hq Hwf Hst. pose proof Hq as Hrec. open_qinv Hrec.
  set (e := next_ptr s).
  pose proof (FRok_fresh _ _ qi_fresh) as Hfresh. fold e in Hfresh.
  pose proof (λ st', qinv_fresh_ptr s st' Hq) as Hnin. fold e in Hnin.
  set (x := mk_equation to_simplify 0 p d).
  set (h1 := <[e := x]> (heap s)).
  assert (Hx1 : h1 !! e = Some x) by apply lookup_insert_eq.
  assert (Hp : ∀ a, a ≠ e →
            hpoly (push_heap h1 st (length (queue st s)) e) a = hpoly (heap s) a).
  { intros a Ha. rewrite hpoly_push. by apply hpoly_insert_ne. }
  assert (Hpe : hpoly (push_heap h1 st (length (queue st s)) e) e = p).
  { rewrite hpoly_push. apply hpoly_insert_eq. }
  assert (Hne : ∀ st' a, a ∈ queue st' s → a ≠ e).
  { intros st' a Ha ->. by apply (Hnin st'). }
  assert (HQ : ∀ st', Qok (heap s) st' (queue st' s)) by by intros [].
  assert (HQ' : ∀ st', Qok (push_heap h1 st (length (queue st s)) e) st'
                         (queue st' (push_equation st e (alloc p d s).2))).
  { intros st'. destruct (decide (st = st')) as [<-|Hd].
    - rewrite queue_push. change (queue st (alloc p d s).2) with (queue st s).
      eapply Qok_snoc; [exact Hx1|apply Hnin|].
      apply Qok_insert_ne; [apply Hnin|apply HQ].
    - rewrite queue_push_ne by done.
      change (queue st' (alloc p d s).2) with (queue st' s).
      apply Qok_push_ne; [apply Hnin|].
      apply Qok_insert_ne; [apply Hnin|apply HQ]. }
  assert (Hh : heap (push_equation st e (alloc p d s).2)
               = push_heap h1 st (length (queue st s)) e).
  { rewrite heap_push. by destruct st. }
  constructor; rewrite ?Hh.
  - apply (HQ' solved).
  - apply (HQ' to_simplify).
  - apply (HQ' processed).
  - intros a Ha. destruct st; cbn in Ha;
      try (rewrite Hp; [by apply qi_nonconst_ts|by apply (Hne to_simplify)]).
    apply elem_of_app in Ha as [Ha| ->%list_elem_of_singleton].
    + rewrite Hp; [by apply qi_nonconst_ts|by apply (Hne to_simplify)].
    + by rewrite Hpe.
  - intros a Ha. destruct st; cbn in Ha;
      try (rewrite Hp; [by apply qi_nonconst_pr|by apply (Hne processed)]).
    apply elem_of_app in Ha as [Ha| ->%list_elem_of_singleton].
    + rewrite Hp; [by apply qi_nonconst_pr|by apply (Hne processed)].
    + by rewrite Hpe.
  - unfold push_heap. apply WFok_alter_keep; [done|].
    apply WFok_alter_keep; [done|]. by apply WFok_insert.
  - intros a Ha. destruct st; cbn in Ha;
      try (rewrite Hp; [by apply qi_shape|by apply (Hne solved)]).
    apply elem_of_app in Ha as [Ha| ->%list_elem_of_singleton].
    + rewrite Hp; [by apply qi_shape|by apply (Hne solved)].
    + by rewrite Hpe.
  - assert (next_ptr (push_equation st e (alloc p d s).2) = S e) as ->
      by by destruct st.
    unfold push_heap. do 2 apply FRok_alter. by apply FRok_insert.
  - assert (m_conflict (push_equation st e (alloc p d s).2) = m_conflict s) as ->
      by by destruct st.
    intros c Hc. destruct (qi_conflict c Hc) as (Hin & Hv & Hz).
    rewrite Hp by by apply (Hne solved).
    split; [|done]. destruct st; cbn; try done. apply elem_of_app. by left.
Qed.

Lemma add_qinv s p d : qinv s → pdd_wf p → qinv (add p d s).
Proof.
  intros Hq Hwf.
  destruct (is_zero p) eqn:Hz; [by rewrite add_zero|].
  destruct (is_val p) eqn:Hv.
  - rewrite add_const by done. unfold set_conflict.
    pose proof (qinv_alloc_push s p d solved Hq Hwf ltac:(by right)) as Hrec.
    open_qinv Hrec.
    constructor; try done.
    intros c [= <-]. split; [|split].
    + cbn. apply elem_of_app. right. by left.
    + cbn. rewrite !hpoly_alter_keep by done. by rewrite hpoly_insert_eq.
    + cbn. rewrite !hpoly_alter_keep by done. by rewrite hpoly_insert_eq.
  - rewrite add_nonconst by done. cbv zeta.
    pose proof (qinv_alloc_push s p d to_simplify Hq Hwf Hv) as Hq3.
    set (s3 := push_equation to_simplify _ _) in *.
    eapply (qinv_same s3); [..|exact Hq3];
      destruct (bool_decide _); try done;
      by destruct (add_to_watch_fields (raise_level (var p) s3) (next_ptr s))
        as (?&?&?&?&?&?&?&?).
Qed.

Lemma qinv_empty (st : stats) (cfg : config) (lim : bool) :
  qinv (mk_solver ∅ 0 lim st cfg [] [] [] None false 0 [] [] []).
Proof.
  constructor; cbn; try done.
  - intros a Ha. by apply elem_of_nil in Ha.
  - intros a Ha. by apply elem_of_nil in Ha.
  - intros a Ha. by apply elem_of_nil in Ha.
  - intros a [y Hy]. by rewrite lookup_empty in Hy.
Qed.

End AddQinv.

(** ** pick_next *)

Section PickNextSpec.
Context {PM : PddManager}.
Implicit Types (h : gmap nat equation) (sv ts w W : list ptr) (e t a : ptr).
Implicit Types (x : equation) (s : solver).

Hypothesis lt_irrefl : ∀ p, pdd_lt p p = false.
Hypothesis lt_trans :
  ∀ p1 p2 p3, pdd_lt p1 p2 = true → pdd_lt p2 p3 = true → pdd_lt p1 p3 = true.

(** The scan keeps a candidate that nothing seen so far is simpler than. *)
Lemma pick_fold_minimal s v w best (seen : ptr → Prop) e :
  match best with
  | None => ∀ a, ¬ seen a
  | Some b => ∀ a, seen a → is_simpler s a b = false
  end →
  foldl (pick_step s v) best w = Some e →
  ∀ a, seen a ∨ (a ∈ w ∧ eligible s v a) → is_simpler s a e = false.
Proof.
  revert best seen. induction w as [|c w IH]; intros best seen Hb Hf; cbn in Hf.
  { subst best. intros a [Ha|[Ha _]]; [by apply Hb|by apply elem_of_nil in Ha]. }
  set (seen' := λ a, seen a ∨ (a = c ∧ eligible s v c)).
  assert (Hb' : match pick_step s v best c with
                | None => ∀ a, ¬ seen' a
                | Some b => ∀ a, seen' a → is_simpler s a b = false
                end).
  { unfold pick_step.
    destruct (bool_decide _ && bool_decide _) eqn:Hc.
    - destruct best as [b|].
      + destruct (is_simpler s c b) eqn:Hcb.
        * intros a [Ha|[-> _]]; [|apply lt_irrefl].
          destruct (is_simpler s a c) eqn:Hac; [|done].
          rewrite <- (Hb a Ha). symmetry. by eapply lt_trans.
        * intros a [Ha|[-> _]]; [by apply Hb|done].
      + intros a [Ha|[-> _]]; [by destruct (Hb a)|apply lt_irrefl].
    - assert (Hne : ¬ eligible s v c).
      { intros [H1 H2]. apply andb_false_iff in Hc as [Hc|Hc];
          apply bool_decide_eq_false in Hc; done. }
      destruct best as [b|].
      + intros a [Ha|[_ ?]]; [by apply Hb|done].
      + intros a [Ha|[_ ?]]; [by apply (Hb a)|done]. }
  intros a Ha. apply (IH _ seen' Hb' Hf).
  destruct Ha as [Ha|[[->|Ha]%elem_of_cons He]].
  - left. by left.
  - left. right. done.
  - right. done.
Qed.

Lemma pick_in_watch_minimal s v w e :
  pick_in_watch s v w = Some e →
  ∀ a, a ∈ w → eligible s v a → is_simpler s a e = false.
Proof.
  intros Hf a Ha He.
  apply (pick_fold_minimal s v w None (λ _, False) e); [intros ? []|exact Hf|].
  right. by split.
Qed.

Lemma set_levelp1_self s : set_levelp1 (m_levelp1 s) s = s.
Proof. by destruct s. Qed.

Lemma pick_next_loop_found s0 l :
  match pick_next_loop l (set_levelp1 l s0) with
  | (Some e, s') =>
      ∃ l0, l0 < l
        ∧ let v := m_level2var s0 !!! l0 in
          pick_in_watch s0 v (watch_of s0 v) = Some e
          ∧ (∀ l', l0 < l' < l →
               pick_in_watch s0 (m_level2var s0 !!! l')
                 (watch_of s0 (m_level2var s0 !!! l')) = None)
          ∧ s' = (let s1 := pop_equation e (set_levelp1 (S l0) s0) in
                  set_watch_of (var (poly s1 e))
                    (erase e (watch_of s1 (var (poly s1 e)))) s1)
  | (None, s') =>
      s' = set_levelp1 0 s0
      ∧ ∀ l', l' < l →
          pick_in_watch s0 (m_level2var s0 !!! l')
            (watch_of s0 (m_level2var s0 !!! l')) = None
  end.
Proof.
  induction l as [|l IH]; cbn [pick_next_loop].
  { split; [done|]. intros; lia. }
  change (m_level2var (set_levelp1 (S l) s0)) with (m_level2var s0).
  set (v := m_level2var s0 !!! l).
  change (pick_in_watch (set_levelp1 (S l) s0) v
            (watch_of (set_levelp1 (S l) s0) v))
    with (pick_in_watch s0 v (watch_of s0 v)).
  destruct (pick_in_watch s0 v (watch_of s0 v)) as [e|] eqn:Hpick.
  - exists l. split; [lia|]. cbv zeta. fold v. split; [done|].
    split; [intros; lia|done].
  - change (set_levelp1 l (set_levelp1 (S l) s0)) with (set_levelp1 l s0).
    destruct (pick_next_loop l (set_levelp1 l s0)) as [[e|] s'].
    + destruct IH as (l0 & Hl0 & Hp & Hab & Hs').
      exists l0. split; [lia|]. split; [done|]. split; [|done].
      intros l' Hl'. destruct (decide (l' = l)) as [->|]; [done|].
      apply Hab. lia.
    + destruct IH as [-> Hab]. split; [done|].
      intros l' Hl'. destruct (decide (l' = l)) as [->|]; [done|].
      apply Hab. lia.
Qed.

(** vector::erase takes out the first occurrence and keeps the rest in
    order. *)
Lemma erase_split e w :
  e ∈ w → ∃ w1 w2, w = w1 ++ e :: w2 ∧ (e ∉ w1) ∧ erase e w = w1 ++ w2.
Proof.
  induction w as [|b w IH]; [by intros ?%elem_of_nil|].
  intros Hin. cbn. destruct (decide (b = e)) as [->|Hne].
  - exists [], w. split; [done|]. split; [apply not_elem_of_nil|done].
  - apply elem_of_cons in Hin as [->|Hin]; [done|].
    destruct (IH Hin) as (w1 & w2 & -> & Hn1 & ->).
    exists (b :: w1), w2. split; [done|]. split; [|done].
    intros [->|?]%elem_of_cons; done.
Qed.

(** C5: pick_next descends the levels from [m_levelp1]: at the highest
    level whose watch list holds an entry that is still to_simplify and
    still led by the variable of that level, it returns such an entry that
    no other such entry is simpler than, with the entry removed from the
    to-simplify queue and from that watch list (its first occurrence is
    taken out, every other entry stays, in order; the other watch lists
    are untouched) and [m_levelp1] left at that level plus one; when no level below [m_levelp1] holds such an entry it
    returns none, with [m_levelp1] at 0 and nothing else changed.  The
    order [pdd_lt] behind is_simpler is taken to be strict. *)
Theorem pick_next_spec s :
  Qok (heap s) to_simplify (m_to_simplify s) →
  (∀ v a, a ∈ watch_of s v → eligible s v a → a ∈ m_to_simplify s) →
  let level_var l := m_level2var s !!! l in
  match pick_next s with
  | (Some e, s') =>
      ∃ l, l < m_levelp1 s ∧ m_levelp1 s' = S l
        ∧ e ∈ watch_of s (level_var l) ∧ eligible s (level_var l) e
        ∧ (∀ l' a, l < l' < m_levelp1 s →
             a ∈ watch_of s (level_var l') → ¬ eligible s (level_var l') a)
        ∧ (∀ a, a ∈ watch_of s (level_var l) → eligible s (level_var l) a →
             is_simpler s a e = false)
        ∧ (∀ a, a ∈ m_to_simplify s' ↔ a ∈ m_to_simplify s ∧ a ≠ e)
        ∧ length (m_to_simplify s') = length (m_to_simplify s) - 1
        ∧ watch_of s' (level_var l) = erase e (watch_of s (level_var l))
        ∧ (∃ w1 w2, watch_of s (level_var l) = w1 ++ e :: w2
                    ∧ (e ∉ w1) ∧ watch_of s' (level_var l) = w1 ++ w2)
        ∧ (NoDup (watch_of s (level_var l)) → e ∉ watch_of s' (level_var l))
        ∧ (∀ v', v' ≠ level_var l → watch_of s' v' = watch_of s v')
        ∧ (∀ a, poly s' a = poly s a)
  | (None, s') =>
      m_levelp1 s' = 0 ∧ s' = set_levelp1 0 s
      ∧ ∀ l' a, l' < m_levelp1 s →
          a ∈ watch_of s (level_var l') → ¬ eligible s (level_var l') a
  end.
Proof.
  intros HQ Hmem level_var. unfold pick_next.
  pose proof (pick_next_loop_found s (m_levelp1 s)) as Hp.
  rewrite set_levelp1_self in Hp.
  destruct (pick_next_loop (m_levelp1 s) s) as [[e|] s'].
  - destruct Hp as (l & Hl & Hpick & Hab & Hs'). exists l.
    cbv zeta in Hs'. fold (level_var l) in Hpick, Hs'. set (v := level_var l) in *.
    pose proof (pick_in_watch_minimal _ _ _ _ Hpick) as Hmin.
    pose proof (pick_in_watch_Some _ _ _ _ Hpick) as [Hin Hel].
    pose proof (Hmem _ _ Hin Hel) as Hts.
    destruct (Qok_lookup _ _ _ _ HQ Hts) as (x & Hx & Hst & Hqe).
    set (s0 := set_levelp1 (S l) s) in *.
    assert (Hx0 : heap s0 !! e = Some x) by done.
    pose proof (heap_pop_ts s0 e x Hx0 Hst) as Eh.
    pose proof (queue_pop_ts s0 e x Hx0 Hst) as Eq.
    destruct (pop_ts_others s0 e x Hx0 Hst)
      as (_ & _ & _ & _ & E5 & _ & _ & E8 & _).
    set (s1 := pop_equation e s0) in *.
    assert (Hp1 : ∀ a, hpoly (heap s1) a = hpoly (heap s) a).
    { intros a. rewrite Eh. apply hpoly_pop. }
    assert (Hw : var (poly s1 e) = v).
    { rewrite poly_hpoly, Hp1. apply Hel. }
    rewrite Hw in Hs'.
    assert (Hrange : v < length (m_watch s1)).
    { rewrite E8. by eapply watch_of_in_range. }
    assert (Hwo : ∀ v', watch_of s1 v' = watch_of s v').
    { intros v'. unfold watch_of. by rewrite E8. }
    assert (Hwv : ∀ v', watch_of s' v'
                        = if decide (v' = v) then erase e (watch_of s v)
                          else watch_of s v').
    { intros v'. rewrite Hs', watch_of_set by done. by rewrite !Hwo. }
    assert (Ets : m_to_simplify s' = pop_list (m_to_simplify s) (m_idx x)).
    { rewrite Hs'. exact Eq. }
    split; [done|]. split; [by rewrite Hs'|].
    split; [done|]. split; [done|]. split.
    { intros l' a Hl' Ha.
      exact (pick_in_watch_None _ _ _ a (Hab l' Hl') Ha). }
    split; [done|]. split.
    { intros a. rewrite Ets. by eapply pop_list_elem. }
    split; [rewrite Ets; apply pop_list_length|].
    split; [by rewrite Hwv, decide_True|]. split.
    { destruct (erase_split e _ Hin) as (w1 & w2 & Hw12 & Hn1 & Her).
      exists w1, w2. split; [done|]. split; [done|].
      by rewrite Hwv, decide_True. }
    split.
    { intros Hnd. rewrite Hwv, decide_True by done.
      intros [_ ?]%elem_of_erase; done. }
    split; [intros v' Hne; by rewrite Hwv, decide_False|].
    intros a. rewrite Hs'. apply Hp1.
  - destruct Hp as [-> Hab]. split; [done|]. split; [done|].
    intros l' a Hl' Ha. exact (pick_in_watch_None _ _ _ a (Hab l' Hl') Ha).
Qed.

End PickNextSpec.

(** ** The saturation loop as callers see it *)

Section Saturation.
Context {PM : PddManager} {PL : PddLaws PM}.
Implicit Types (e : ptr) (s : solver).

(** C2: when pick_next has returned [e], the step ends with [e] accounted
    for in one of four ways that exclude one another: retired, having
    reduced to zero, and then in no queue; made the conflict, a non-zero
    constant, and filed once under solved; filed once under solved, the
    step having completed with too_complex unset and the polynomial
    non-constant with a constant [hi]; filed once under processed on every
    other normal exit (a completed step only if too_complex is set or [hi]
    is not constant, else the early returns on done) and when mem_out
    unwinds through the step. *)
Theorem step_places_picked s e s1 :
  inv s → pick_next (inc_compute_steps s) = (Some e, s1) →
  match step s with
  | (Val b, s') =>
      (b = true ∧ heap s' !! e = None ∧ in_no_queue s' e
       ∧ ∃ sm, simplify_using e (m_processed s1) s1 = (Val tt, sm)
               ∧ is_trivial sm e = true)
      ∨ (b = false ∧ m_conflict s' = Some e ∧ placed s' solved e
         ∧ is_conflict s' e = true)
      ∨ (b = true ∧ m_too_complex s' = false ∧ placed s' solved e
         ∧ is_val (poly s' e) = false ∧ is_val (hi (poly s' e)) = true)
      ∨ (placed s' processed e ∧ is_val (poly s' e) = false
         ∧ (b = true →
            m_too_complex s' = true ∨ is_val (hi (poly s' e)) = false)
         ∧ (b = false → done s' = true))
  | (MemOut, s') => placed s' processed e ∧ is_val (poly s' e) = false
  | (Timeout, _) => False
  end.
Proof.
  intros Hinv Hpick.
  pose proof (step_picked_spec s e s1 Hinv Hpick) as Hs.
  destruct (step s) as [[b| |] s']; [| |done].
  - destruct Hs as (Hinv' & Hd & Hs). pose proof (inv_qinv _ Hinv') as Hq.
    destruct Hs as [(-> & Hgone & Hsm)|[(-> & Hc & Hin & Hisc)|
                    [(-> & Htc & Hin & Hnv & Hhi)|(Hin & Hnv & Hb)]]].
    + left. split; [done|]. split; [done|]. split; [|done].
      by apply qinv_gone.
    + right; left. split; [done|]. split; [done|]. split; [|done].
      by apply (qinv_placed s' solved).
    + do 2 right; left. split; [done|]. split; [done|]. split; [|done].
      by apply (qinv_placed s' solved).
    + do 3 right. split; [|done]. by apply (qinv_placed s' processed).
  - destruct Hs as (Hq & Hin & Hnv). split; [|done].
    by apply (qinv_placed s' processed).
Qed.

(** C3: on every state between the steps of a saturation, from
    init_saturate on, each entry of a watch list is a to_simplify
    equation led by the watched variable and present in the to-simplify
    queue, each to-simplify equation occurs exactly once in the watch list
    of its leading variable, and no processed equation is watched. *)
Theorem watch_invariant s0 s :
  qinv s0 → between_steps s0 s →
  watch_entries_ok s ∧ watched_once s ∧ processed_unwatched s.
Proof.
  intros Hq Hb. pose proof (between_steps_inv s0 s Hq Hb) as Hinv.
  split; [by apply inv_watch_entries|].
  split; [by apply inv_watched_once|by apply inv_processed_unwatched].
Qed.

(** C4: on every state between the steps of a saturation no to-simplify
    or processed equation has a constant polynomial, and every solved
    equation, a conflict included, has a polynomial with a constant [hi].
    For the conflicts this rests on the algebra giving constants a
    constant [hi]. *)
Theorem queue_shape_invariant s0 s :
  (∀ p, is_val p = true → is_val (hi p) = true) →
  qinv s0 → between_steps s0 s →
  nonconstant_queues s ∧ solved_hi_constant s.
Proof.
  intros Hhi Hq Hb.
  pose proof (between_steps_inv s0 s Hq Hb) as [Hrec HQ]. open_G Hrec.
  split.
  - intros e [He|He]; [by apply g_nonconst_ts|by apply g_nonconst_pr].
  - intros e He. destruct (g_shape e He) as [[_ H]|[H _]]; [done|].
    by apply Hhi.
Qed.

Variable simplifier : solver → solver.
Hypothesis Hsimp : simplifier_ok simplifier.

(** C1, amended: whatever the bounds, when the loop of saturate ends
    without mem_out the engine is done or the to-simplify queue is empty,
    and when mem_out ends it saturate returns the state the loop was left
    in with the watch index cleared, where neither need hold.  Under the
    step bound (0 <= max_steps < 2^32 - 1) the loop does end: saturate
    returns on every path. *)
Theorem saturate_returns fuel s :
  qinv s →
  match saturate_try simplifier fuel s with
  | (Val _, s') =>
      saturate simplifier fuel s = (Val tt, s')
      ∧ (done s' = true ∨ m_to_simplify s' = [])
  | (MemOut, s') => saturate simplifier fuel s = (Val tt, set_watch [] s')
  | (Timeout, _) =>
      (0 ≤ m_max_steps (m_config s) < 2 ^ 32 - 1)%Z →
      Z.to_nat (m_max_steps (m_config s)) + 3 ≤ fuel → False
  end.
Proof.
  intros Hq. destruct Hsimp as [Hsq Hsc].
  pose proof (init_saturate_inv _ (Hsq s Hq)) as Hinv.
  destruct (init_saturate_fields (simplifier s))
    as (_ & _ & _ & _ & _ & _ & _ & Hcfg & _).
  pose proof (saturate_loop_spec fuel _ Hinv) as Hs.
  pose proof (saturate_loop_terminates' fuel _ Hinv) as Ht.
  rewrite Hcfg, Hsc in Ht.
  unfold saturate, saturate_try in *.
  destruct (saturate_loop fuel _) as [[[]| |] s']; cbn in Ht.
  - by destruct Hs.
  - done.
  - intros Hmax Hfuel. by apply (Ht Hmax Hfuel).
Qed.

(** The step that mem_out ended: the signal left the body of the step
    in [s2], and the guard filed the picked equation. *)
Lemma saturate_loop_mem_out fuel s s1 :
  inv s → saturate_loop fuel s = (MemOut, s1) →
  ∃ sk e sp s2,
    inv sk
    ∧ pick_next (inc_compute_steps sk) = (Some e, sp)
    ∧ step_body e sp = (MemOut, s2)
    ∧ s1 = scoped_process_dtor (Some e) s2.
Proof.
  revert s. induction fuel as [|fuel IH]; intros s Hinv; cbn; [done|].
  unfold bind at 1, get.
  destruct (done s) eqn:Hd; [done|].
  unfold bind.
  pose proof (step_spec s Hinv) as Hs.
  destruct (step s) as [[b| |] s'] eqn:Hstep; [| |done].
  - destruct b; [|done]. apply IH. by destruct Hs.
  - intros [= <-]. unfold step in Hstep.
    destruct (pick_next (inc_compute_steps s)) as [[e|] sp] eqn:Hpick; [|done].
    destruct (step_body e sp) as [[[b sd]| |] s2] eqn:Hbody; [done| |done].
    injection Hstep as <-. by exists s, e, sp, s2.
Qed.

(** C8, amended: when mem_out ends the loop, saturate returns normally
    with the watch index cleared and the queues well formed.  The queues
    are not those of the point of the failure: there the picked equation
    is in no queue, and the guard of the step files it under processed
    while the signal unwinds.  With [s2] the state in which the signal
    leaves the body of the step, saturate returns the solved and
    to-simplify queues, the polynomials and the conflict of [s2], and its
    processed queue with the picked equation appended. *)
Theorem saturate_mem_out fuel s s1 :
  qinv s →
  saturate_try simplifier fuel s = (MemOut, s1) →
  ∃ sk e sp s2 s',
    pick_next (inc_compute_steps sk) = (Some e, sp)
    ∧ step_body e sp = (MemOut, s2)
    ∧ in_no_queue s2 e
    ∧ saturate simplifier fuel s = (Val tt, s')
    ∧ m_watch s' = []
    ∧ m_solved s' = m_solved s2
    ∧ m_to_simplify s' = m_to_simplify s2
    ∧ m_processed s' = m_processed s2 ++ [e]
    ∧ m_conflict s' = m_conflict s2
    ∧ (∀ a, poly s' a = poly s2 a)
    ∧ qinv s'.
Proof.
  intros Hq Htry. destruct Hsimp as [Hsq Hsc].
  pose proof (init_saturate_inv _ (Hsq s Hq)) as Hinv.
  pose proof (saturate_loop_spec fuel _ Hinv) as Hs.
  unfold saturate. unfold saturate_try in *. rewrite Htry in *.
  destruct (saturate_loop_mem_out fuel _ s1 Hinv Htry)
    as (sk & e & sp & s2 & Hinvk & Hpick & Hbody & ->).
  assert (Hinvk' : inv (inc_compute_steps sk)) by by apply (inv_same sk).
  destruct (pick_next_mid _ _ _ Hinvk' Hpick) as (x & Hmid & Hnv).
  pose proof (step_body_spec sp e x Hmid Hnv) as Hb.
  rewrite Hbody in Hb. destruct Hb as (x' & ((wl & HG) & HQ & HD) & _).
  exists sk, e, sp, s2, (set_watch [] (scoped_process_dtor (Some e) s2)).
  split; [done|]. split; [done|]. split.
  { destruct HD as (Hx & Hst & Hnts). intros [] Hin; cbn in Hin.
    - pose proof (Qok_state _ _ _ _ _ (g_solved _ _ _ _ HG) Hin Hx).
      congruence.
    - done.
    - pose proof (Qok_state _ _ _ _ _ HQ Hin Hx). congruence. }
  split; [done|]. split; [done|]. split; [done|]. split; [done|].
  split; [done|]. split; [done|]. split.
  { intros a. cbn [scoped_process_dtor]. rewrite !poly_hpoly. cbn.
    apply (hpoly_push _ processed). }
  by apply (qinv_same (scoped_process_dtor (Some e) s2)).
Qed.

Hypothesis Hidle : simplifier_idle simplifier.

(** C9, amended: when a call of saturate has ended without mem_out, and
    the pre-pass leaves alone an engine that is done or has nothing to
    simplify, a second call returns with the store, the three queues, the
    conflict and every statistic but the step counter as the first call
    left them. *)
Theorem saturate_twice fuel1 fuel2 s s1 :
  qinv s →
  saturate_try simplifier fuel1 s = (Val tt, s1) →
  0 < fuel2 →
  ∃ s2, saturate simplifier fuel2 s1 = (Val tt, s2)
        ∧ same_queues_and_stats s1 s2.
Proof.
  intros Hq Htry Hfuel. destruct Hsimp as [Hsq Hsc].
  pose proof (init_saturate_inv _ (Hsq s Hq)) as Hinv.
  pose proof (saturate_loop_spec fuel1 _ Hinv) as Hs.
  unfold saturate_try in Htry. rewrite Htry in Hs. destruct Hs as [Hinv1 Hend].
  unfold saturate, saturate_try. rewrite (Hidle s1 Hend).
  pose proof (init_saturate_inv _ (inv_qinv _ Hinv1)) as Hinv2.
  destruct (init_saturate_fields s1)
    as (F1 & F2 & F3 & F4 & F5 & F6 & F7 & F8 & F9).
  set (t := init_saturate s1) in *. clearbody t.
  destruct fuel2 as [|fuel2]; [lia|]. cbn [saturate_loop].
  unfold bind at 1, get.
  destruct (done t) eqn:Hd.
  { exists t. split; [done|]. unfold same_queues_and_stats.
    rewrite F1, F2, F3, F4, F5, F7. done. }
  assert (Hts : m_to_simplify s1 = []).
  { destruct Hend as [Hd1|]; [|done].
    unfold done, canceled in Hd, Hd1.
    rewrite F2, F3, F5, F7, F8, F9, Hd1 in Hd. done. }
  assert (Hinv3 : inv (inc_compute_steps t)) by by apply (inv_same t).
  unfold bind, step. unfold pick_next.
  pose proof (pick_next_loop_spec _ (inc_compute_steps t) _ eq_refl
                (proj1 Hinv3)) as Hp.
  destruct (pick_next_loop _ (inc_compute_steps t)) as [[e|] t1].
  - exfalso. destruct Hp as (_ & _ & Hin & _).
    change (m_to_simplify (inc_compute_steps t)) with (m_to_simplify t) in Hin.
    rewrite F2, Hts in Hin. by apply elem_of_nil in Hin.
  - destruct Hp as [-> _]. cbn.
    eexists. split; [done|]. unfold same_queues_and_stats; cbn.
    rewrite F1, F2, F3, F4, F5, F7. done.
Qed.

End Saturation.

(** ** Concrete engines *)

Section ExampleEngines.
Import Examples.

Lemma no_simplifier_ok {PM : PddManager} : simplifier_ok no_simplifier.
Proof. by split. Qed.

Lemma no_simplifier_idle {PM : PddManager} : simplifier_idle no_simplifier.
Proof. by intros s _. Qed.

Lemma foldl_add_qinv {PM : PddManager} (d : dep) (ps : list pdd) s :
  Forall pdd_wf ps → qinv s → qinv (foldl (λ s p, add p d s) s ps).
Proof.
  intros Hps. revert s. induction Hps as [|p ps Hp _ IH]; intros s Hq; [done|].
  cbn. apply IH. by apply add_qinv.
Qed.

Lemma engine_qinv budget limit ps :
  Forall (λ p, (p < 16)%N) ps → qinv (engine budget limit ps).
Proof.
  intros Hps. unfold engine.
  apply (foldl_add_qinv (PM := Lin2.manager 3 budget limit)); [done|].
  apply qinv_empty.
Qed.

Lemma engine_inv budget limit ps :
  Forall (λ p, (p < 16)%N) ps → inv (init_saturate (engine budget limit ps)).
Proof. intros Hps. apply init_saturate_inv. by apply engine_qinv. Qed.

Lemma small_polys_2 (p q : N) : (p < 16)%N → (q < 16)%N → Forall (λ p, (p < 16)%N) [p; q].
Proof. by repeat constructor. Qed.

Lemma ltb_strict_irrefl (p : N) : (p <? p)%N = false.
Proof. apply N.ltb_irrefl. Qed.

Lemma ltb_strict_trans (p q r : N) :
  (p <? q)%N = true → (q <? r)%N = true → (p <? r)%N = true.
Proof. rewrite !N.ltb_lt. apply N.lt_trans. Qed.

Lemma inv_eligible_queued {PM : PddManager} (s : solver) v a :
  inv s → a ∈ watch_of s v → eligible s v a → a ∈ m_to_simplify s.
Proof.
  intros [Hrec _] Ha _. open_G Hrec. destruct g_watch as (W1 & _).
  by destruct (W1 v a Ha).
Qed.

End ExampleEngines.

Import Examples.

(** The engine with [x2+x1 = 0] and [x2+x0 = 0] saturates within the
    step bound and ends with nothing left to simplify. *)
Lemma saturate_returns_witness :
  let s := engine 100 100 [12%N; 10%N] in
  (0 ≤ m_max_steps (m_config s) < 2 ^ 32 - 1)%Z
  ∧ Z.to_nat (m_max_steps (m_config s)) + 3 ≤ 1003
  ∧ ∃ s', saturate no_simplifier 1003 s = (Val tt, s')
          ∧ (done s' = true ∨ m_to_simplify s' = []).
Proof.
  intros s.
  assert (Hq : qinv s) by (apply engine_qinv, small_polys_2; reflexivity).
  assert (Hmax : (0 ≤ m_max_steps (m_config s) < 2 ^ 32 - 1)%Z)
    by (vm_compute; split; [discriminate|reflexivity]).
  assert (Hfuel : Z.to_nat (m_max_steps (m_config s)) + 3 ≤ 1003)
    by (vm_compute; lia).
  assert (Hrun : saturate_try no_simplifier 1003 s
                 = (Val tt, (saturate_try no_simplifier 1003 s).2))
    by (vm_compute; reflexivity).
  clearbody s.
  split; [exact Hmax|]. split; [exact Hfuel|].
  pose proof (saturate_returns no_simplifier no_simplifier_ok 1003 s Hq) as H.
  rewrite Hrun in H.
  exists (saturate_try no_simplifier 1003 s).2. exact H.
Defined.

(** With a node budget of 4, [x2+x1+x0 = 0] and [x2+x1 = 0]: the first
    step picks the second equation and the reduction of the first by it
    raises mem_out.  saturate returns with the first equation still to
    simplify and the engine not done. *)
Lemma mem_out_leaves_work :
  let s := engine 4 100 [14%N; 12%N] in
  ∃ s', saturate no_simplifier 1003 s = (Val tt, s')
        ∧ done s' = false ∧ m_to_simplify s' ≠ [].
Proof.
  intros s. exists (saturate no_simplifier 1003 s).2.
  split; [vm_compute; reflexivity|]. split; [vm_compute; reflexivity|].
  vm_compute. discriminate.
Qed.

Lemma step_places_picked_witness :
  let s := init_saturate (engine 100 100 [12%N; 10%N]) in
  ∃ e s', (step s).2 = s'
          ∧ (placed s' solved e ∨ placed s' processed e ∨ in_no_queue s' e).
Proof.
  intros s.
  assert (Hinv : inv s) by (apply engine_inv, small_polys_2; reflexivity).
  assert (Hpick : pick_next (inc_compute_steps s)
                  = (Some 1, (pick_next (inc_compute_steps s)).2))
    by (vm_compute; reflexivity).
  pose proof (step_places_picked s 1 _ Hinv Hpick) as H.
  exists 1, (step s).2. split; [reflexivity|].
  destruct (step s) as [[b| |] s']; cbn [snd].
  - destruct H as [(_ & _ & H & _)|[(_ & _ & H & _)|[(_ & _ & H & _)|(H & _)]]];
      auto.
  - destruct H as [H _]. auto.
  - destruct H.
Defined.

Lemma watch_invariant_witness :
  let s := (step (init_saturate (engine 100 100 [12%N; 10%N]))).2 in
  watch_entries_ok s ∧ watched_once s ∧ processed_unwatched s.
Proof.
  intros s. apply (watch_invariant (engine 100 100 [12%N; 10%N]) s).
  - apply engine_qinv, small_polys_2; reflexivity.
  - apply (bs_step _ (init_saturate (engine 100 100 [12%N; 10%N])) true s).
    + apply bs_init.
    + vm_compute. reflexivity.
Defined.

Lemma queue_shape_invariant_witness :
  let s := (step (init_saturate (engine 100 100 [12%N; 10%N]))).2 in
  nonconstant_queues s ∧ solved_hi_constant s.
Proof.
  intros s. apply (queue_shape_invariant (engine 100 100 [12%N; 10%N]) s).
  - intros p Hp. cbn in *. by rewrite Hp.
  - apply engine_qinv, small_polys_2; reflexivity.
  - apply (bs_step _ (init_saturate (engine 100 100 [12%N; 10%N])) true s).
    + apply bs_init.
    + vm_compute. reflexivity.
Defined.

Lemma pick_next_spec_witness :
  let s := init_saturate (engine 100 100 [12%N; 10%N]) in
  ∃ e s', pick_next s = (Some e, s') ∧ (e ∈ m_to_simplify s)
          ∧ (e ∉ m_to_simplify s').
Proof.
  intros s.
  assert (Hinv : inv s) by (apply engine_inv, small_polys_2; reflexivity).
  pose proof (pick_next_spec (PM := Lin2.manager 3 100 100)
                ltb_strict_irrefl ltb_strict_trans s
                (g_to_simplify _ _ _ _ (proj1 Hinv))
                (λ v a, inv_eligible_queued s v a Hinv)) as H.
  cbv zeta in H.
  destruct (pick_next s) as [[e|] s'] eqn:E.
  - exists e, s'. split; [reflexivity|].
    destruct H as (l & _ & _ & Hin & Hel & _ & _ & Hmem & _).
    split; [by eapply inv_eligible_queued|].
    intros [_ Hne]%Hmem. by apply Hne.
  - vm_compute in E. discriminate E.
Defined.

Lemma add_spec_witness :
  let s := init_saturate (engine 100 100 [12%N]) in
  let s' := add (PM := Lin2.manager 3 100 100) 10%N [] s in
  m_to_simplify s' = m_to_simplify s ++ [next_ptr s]
  ∧ watch_of s' 2 = watch_of s 2 ++ [next_ptr s].
Proof.
  intros s s'.
  destruct (add_spec (PM := Lin2.manager 3 100 100) 10%N [] s) as (_ & _ & H).
  destruct (H eq_refl eq_refl) as (H1 & _ & _ & _ & H2 & _).
  destruct H2 as (H2 & _).
  - vm_compute. discriminate.
  - vm_compute. lia.
  - split; [exact H1|exact H2].
Defined.

Lemma try_simplify_using_too_complex_witness :
  let s := engine 100 0 [14%N; 12%N] in
  ∃ s', try_simplify_using 0 1 false s = (Val (false, false), s')
        ∧ m_too_complex s' = true
        ∧ heap s' = heap s
        ∧ poly s' 0 = poly s 0
        ∧ m_dep (deref s' 0) = m_dep (deref s 0).
Proof.
  intros s. apply (try_simplify_using_too_complex 0 1 false s 2%N).
  - discriminate.
  - vm_compute. reflexivity.
  - vm_compute. discriminate.
  - vm_compute. reflexivity.
Defined.

Lemma simplified_counts_attempts_witness :
  let s := engine 100 100 [14%N; 12%N] in
  m_simplified (m_stats (try_simplify_using 0 1 false s).2) = 1%Z.
Proof.
  intros s.
  assert (Hne : 1 ≠ 0) by discriminate.
  destruct (simplified_counts_attempts 0 1 false s Hne) as [H _].
  rewrite H. vm_compute. reflexivity.
Defined.

Lemma saturate_mem_out_witness :
  let s := engine 4 100 [14%N; 12%N] in
  ∃ e (s2 s' : @solver (Lin2.manager 3 4 100)),
    saturate no_simplifier 50 s = (Val tt, s')
             ∧ in_no_queue s2 e
             ∧ m_watch s' = []
             ∧ m_processed s' = m_processed s2 ++ [e]
             ∧ m_to_simplify s' = m_to_simplify s2
             ∧ qinv s'.
Proof.
  intros s.
  assert (Hq : qinv s) by (apply engine_qinv, small_polys_2; reflexivity).
  assert (Htry : saturate_try no_simplifier 50 s
                 = (MemOut, (saturate_try no_simplifier 50 s).2))
    by (vm_compute; reflexivity).
  clearbody s.
  destruct (saturate_mem_out no_simplifier no_simplifier_ok 50 s _ Hq Htry)
    as (sk & e & sp & s2 & s' & _ & _ & H1 & H2 & H3 & _ & H4 & H5 & _ & _ & H6).
  exists e, s2, s'.
  split; [exact H2|]. split; [exact H1|]. split; [exact H3|].
  split; [exact H5|]. split; [exact H4|exact H6].
Defined.

(** With a node budget of 4, [x2+x1+x0 = 0] and [x2+x1 = 0]: the first
    step picks the second equation (address 1); mem_out is raised in
    simplify_watch, with the processed queue empty and the picked
    equation in no queue.  When saturate has returned, the processed
    queue holds the picked equation. *)
Lemma mem_out_files_picked_equation :
  let s := engine 4 100 [14%N; 12%N] in
  let s0 := init_saturate s in
  let sp := (pick_next (inc_compute_steps s0)).2 in
  let sw := (superpose 1
               (simplify_using_set 1
                  (set_too_complex false (simplify_using 1 [] sp).2)).2).2 in
  let s2 := (step_body 1 sp).2 in
  pick_next (inc_compute_steps s0) = (Some 1, sp)
  ∧ simplify_watch 1 sw = (MemOut, s2)
  ∧ step_body 1 sp = (MemOut, s2)
  ∧ m_processed s2 = [] ∧ m_to_simplify s2 = [0] ∧ m_solved s2 = []
  ∧ ∃ s', saturate no_simplifier 50 s = (Val tt, s')
          ∧ m_processed s' = [1].
Proof.
  intros s s0 sp sw s2.
  split; [vm_compute; reflexivity|]. split; [vm_compute; reflexivity|].
  split; [vm_compute; reflexivity|]. split; [vm_compute; reflexivity|].
  split; [vm_compute; reflexivity|]. split; [vm_compute; reflexivity|].
  exists (saturate no_simplifier 50 s).2.
  split; vm_compute; reflexivity.
Qed.

Lemma saturate_twice_witness :
  let s := engine 100 100 [12%N; 10%N] in
  let s1 := (saturate no_simplifier 50 s).2 in
  ∃ s2, saturate no_simplifier 50 s1 = (Val tt, s2)
        ∧ same_queues_and_stats s1 s2.
Proof.
  intros s s1.
  assert (Hq : qinv s) by (apply engine_qinv, small_polys_2; reflexivity).
  assert (Htry : saturate_try no_simplifier 50 s = (Val tt, s1))
    by (vm_compute; reflexivity).
  assert (Hfuel : 0 < 50) by lia.
  exact (saturate_twice no_simplifier no_simplifier_ok no_simplifier_idle
           50 50 s s1 Hq Htry Hfuel).
Defined.

(** With a node budget of 4, [x2+x1+x0 = 0] and [x2+x1 = 0]: the first
    call ends on mem_out with the first equation still to simplify; the
    second call, with no add in between, picks it and moves it to the
    processed queue. *)
Lemma second_call_after_mem_out :
  let s := engine 4 100 [14%N; 12%N] in
  ∃ s1 s2, saturate no_simplifier 50 s = (Val tt, s1)
           ∧ saturate no_simplifier 50 s1 = (Val tt, s2)
           ∧ m_to_simplify s1 = [0] ∧ m_to_simplify s2 = []
           ∧ m_processed s1 = [1] ∧ m_processed s2 = [1; 0].
Proof.
  intros s. exists (saturate no_simplifier 50 s).2.
  exists (saturate no_simplifier 50 (saturate no_simplifier 50 s).2).2.
  split; [vm_compute; reflexivity|]. split; [vm_compute; reflexivity|].
  split; [vm_compute; reflexivity|]. split; [vm_compute; reflexivity|].
  split; vm_compute; reflexivity.
Qed.

(** ** The queue primitives on their own *)

Section QueuePrimitives.
Context {PM : PddManager}.
Implicit Types (h : gmap nat equation) (q : list ptr) (e t a : ptr).
Implicit Types (x : equation) (s : solver) (st : eq_state).

Lemma heap_pop s e x :
  heap s !! e = Some x →
  heap (pop_equation e s) = pop_heap (heap s) (queue (m_state x) s) (m_idx x).
Proof.
  intros Hx. unfold pop_equation, pop_heap.
  rewrite (deref_lookup _ _ _ Hx).
  destruct (m_state x); cbn; by destruct (decide _).
Qed.

Lemma queue_pop s e x :
  heap s !! e = Some x →
  queue (m_state x) (pop_equation e s)
  = pop_list (queue (m_state x) s) (m_idx x).
Proof.
  intros Hx. unfold pop_equation, pop_list.
  rewrite (deref_lookup _ _ _ Hx).
  destruct (m_state x); cbn; destruct (decide _); cbn;
    by rewrite ?length_insert.
Qed.

Lemma queue_pop_ne s e x st :
  heap s !! e = Some x → st ≠ m_state x →
  queue st (pop_equation e s) = queue st s.
Proof.
  intros Hx Hne. unfold pop_equation.
  rewrite (deref_lookup _ _ _ Hx).
  destruct (m_state x), st; try done; cbn; by destruct (decide _).
Qed.

(** X1: pop_equation takes exactly the given equation out of its queue: the
    queue is one shorter, holds the others, and the indices recorded in
    the equations still are their positions; the other queues, and the
    equation that was removed, are not touched. *)
Theorem pop_equation_removes s e st :
  Qok (heap s) st (queue st s) → e ∈ queue st s →
  let s' := pop_equation e s in
  Qok (heap s') st (queue st s')
  ∧ (∀ a, a ∈ queue st s' ↔ a ∈ queue st s ∧ a ≠ e)
  ∧ length (queue st s') = length (queue st s) - 1
  ∧ (∀ st', st' ≠ st → queue st' s' = queue st' s)
  ∧ (∀ st' q', st' ≠ st → Qok (heap s) st' q' → Qok (heap s') st' q')
  ∧ (∀ a, poly s' a = poly s a)
  ∧ heap s' !! e = heap s !! e.
Proof.
  intros HQ He s'.
  destruct (Qok_lookup _ _ _ _ HQ He) as (x & Hx & Hst & Hqe).
  pose proof (heap_pop s e x Hx) as Eh.
  pose proof (queue_pop s e x Hx) as Eq.
  rewrite Hst in Eh, Eq. fold s' in Eh, Eq.
  split; [rewrite Eh, Eq; by eapply Qok_pop|].
  split; [intros a; rewrite Eq; by eapply pop_list_elem|].
  split; [rewrite Eq; apply pop_list_length|].
  split; [intros st' Hne; apply (queue_pop_ne s e x); congruence|].
  split.
  { intros st' q' Hne HQ'. rewrite Eh.
    eapply Qok_pop_other; [| |exact HQ|exact HQ']; [done|].
    by eapply lookup_lt_Some. }
  split; [intros a; rewrite !poly_hpoly, Eh; apply hpoly_pop|].
  rewrite Eh, Hx. by eapply pop_heap_lookup_self.
Qed.

(** X2: push_equation appends an equation that is not in the queue: it gets
    the state of the queue and the last position as its index, keeps its
    polynomial and dependency, and the indices of the queue stay right;
    no other equation and no other queue changes. *)
Theorem push_equation_appends s st e x :
  heap s !! e = Some x → e ∉ queue st s →
  Qok (heap s) st (queue st s) →
  let s' := push_equation st e s in
  queue st s' = queue st s ++ [e]
  ∧ heap s' !! e
    = Some (mk_equation st (length (queue st s)) (m_poly x) (m_dep x))
  ∧ Qok (heap s') st (queue st s')
  ∧ (∀ st', st' ≠ st → queue st' s' = queue st' s)
  ∧ (∀ a, a ≠ e → heap s' !! a = heap s !! a).
Proof.
  intros Hx Hnin HQ s'. unfold s'.
  rewrite queue_push, heap_push.
  split; [done|]. split; [by apply push_heap_lookup|].
  split; [by eapply Qok_snoc|].
  split; [intros st' Hne; by apply queue_push_ne|].
  intros a Hne. by apply push_heap_lookup_ne.
Qed.

(** X3: A push undone by a pop: every queue is as before, and of the store
    only the pushed equation differs, in state and index. *)
Theorem push_pop_round_trip s st e x :
  heap s !! e = Some x →
  let s' := pop_equation e (push_equation st e s) in
  (∀ st', queue st' s' = queue st' s)
  ∧ (∀ a, a ≠ e → heap s' !! a = heap s !! a)
  ∧ heap s' !! e
    = Some (mk_equation st (length (queue st s)) (m_poly x) (m_dep x)).
Proof.
  intros Hx. cbv zeta.
  set (s1 := push_equation st e s). set (s' := pop_equation e s1).
  set (y := mk_equation st (length (queue st s)) (m_poly x) (m_dep x)).
  assert (Hy : heap s1 !! e = Some y).
  { unfold s1. rewrite heap_push. by apply push_heap_lookup. }
  assert (Hq1 : queue st s1 = queue st s ++ [e]) by apply queue_push.
  pose proof (heap_pop s1 e y Hy) as Eh.
  pose proof (queue_pop s1 e y Hy) as Eq.
  change (m_state y) with st in Eh, Eq.
  change (m_idx y) with (length (queue st s)) in Eh, Eq.
  fold s' in Eh, Eq. rewrite Hq1 in Eh, Eq.
  assert (Hlen : length (queue st s ++ [e]) - 1 = length (queue st s)).
  { rewrite length_app. cbn. lia. }
  assert (Eh' : heap s' = heap s1).
  { rewrite Eh. unfold pop_heap. rewrite Hlen. by rewrite decide_False by auto. }
  assert (Eq' : queue st s' = queue st s).
  { rewrite Eq. unfold pop_list. rewrite Hlen.
    rewrite decide_False by auto. by rewrite take_app_length. }
  split; [|split].
  - intros st'. destruct (decide (st' = st)) as [->|Hne]; [done|].
    unfold s'. rewrite (queue_pop_ne s1 e y) by done.
    by apply queue_push_ne.
  - intros a Hne. rewrite Eh'. unfold s1. rewrite heap_push.
    by apply push_heap_lookup_ne.
  - by rewrite Eh'.
Qed.

(** X4: del_equation takes the equation out of its queue and out of the
    store; the queue keeps the others, with the right indices. *)
Theorem del_equation_removes s e st :
  Qok (heap s) st (queue st s) → e ∈ queue st s →
  let s' := del_equation e s in
  heap s' !! e = None
  ∧ (∀ a, a ∈ queue st s' ↔ a ∈ queue st s ∧ a ≠ e)
  ∧ Qok (heap s') st (queue st s')
  ∧ (∀ st', st' ≠ st → queue st' s' = queue st' s)
  ∧ (∀ a, a ≠ e → poly s' a = poly s a).
Proof.
  intros HQ He s'.
  destruct (pop_equation_removes s e st HQ He)
    as (HQ1 & Hmem & _ & Hother & _ & Hpoly & _).
  unfold s', del_equation, retire.
  split; [cbn; apply lookup_delete_eq|].
  split; [intros a; by destruct st|].
  split.
  { assert (Hnin : e ∉ queue st (pop_equation e s)).
    { intros [_ ?]%Hmem. done. }
    destruct st; cbn; by apply Qok_delete. }
  split; [intros st' Hne; specialize (Hother st' Hne); by destruct st'|].
  intros a Hne. rewrite <- Hpoly. unfold poly, deref. cbn.
  by rewrite lookup_delete_ne.
Qed.

End QueuePrimitives.

(** ** The reducer and simplify_using on their own *)

Section ReducerExtra.
Context {PM : PddManager}.
Implicit Types (e dst src p : ptr) (s : solver) (x xd : equation).

(** X5: try_simplify_using returns true exactly when it has changed the
    polynomial of the target.  Then the new polynomial is the result of
    reduce, the dependency is the join of the two dependencies, and state
    and index are as before; when it returns false, or reduce raises
    mem_out, the store is untouched. *)
Theorem try_simplify_using_reports_change dst src clt s xd :
  src ≠ dst → heap s !! dst = Some xd →
  match try_simplify_using dst src clt s with
  | (Val (b, c), s') =>
      (b = true ↔ poly s' dst ≠ poly s dst)
      ∧ (b = false → heap s' = heap s ∧ c = clt)
      ∧ (b = true →
           reduce (poly s dst) (poly s src) = Some (poly s' dst)
           ∧ heap s' !! dst
             = Some (mk_equation (m_state xd) (m_idx xd) (poly s' dst)
                       (mk_join (m_dep xd) (m_dep (deref s src))))
           ∧ m_too_complex s' = m_too_complex s)
  | (MemOut, s') =>
      heap s' = heap s ∧ reduce (poly s dst) (poly s src) = None
  | (Timeout, _) => False
  end.
Proof.
  intros Hne Hd. unfold try_simplify_using.
  destruct (decide (src = dst)) as [|_]; [done|].
  unfold bind, modify, get, alg, ret.
  change (poly (inc_simplified s) ?a) with (poly s a).
  change (deref (inc_simplified s) ?a) with (deref s a).
  assert (Hpd : poly s dst = m_poly xd).
  { unfold poly. by rewrite (deref_lookup _ _ _ Hd). }
  rewrite (deref_lookup _ _ _ Hd).
  destruct (reduce _ _) as [r|] eqn:Hred; cbn; [|done].
  destruct (decide (r = _)) as [Heq|Hr]; cbn.
  { split; [|split; [done|done]]. split; [done|]. intros H. by destruct H. }
  destruct (is_too_complex r); cbn.
  { split; [|split; [done|done]]. split; [done|]. intros H. by destruct H. }
  assert (Hp' : ∀ s0, heap s0 = heap s →
            poly (update_stats_max_degree_and_size dst
                    (upd dst (set_dep (mk_join (m_dep xd) (m_dep (deref s src))))
                       (upd dst (set_poly r) (inc_simplified s0)))) dst = r).
  { intros s0 Hs0. unfold poly, deref. cbn.
    by rewrite !lookup_alter_eq, Hs0, Hd. }
  rewrite (Hp' s eq_refl).
  split; [split; [by intros _|done]|]. split; [done|]. intros _.
  split; [done|]. split; [|done].
  rewrite !lookup_alter_eq, Hd. cbn. by destruct xd.
Qed.

(** X6: The three-argument simplify_using stores the result of reduce
    whatever its size: it never consults the complexity heuristic and
    never sets the too_complex flag. *)
Theorem simplify_using_force_commits dst src clt s xd r :
  src ≠ dst → heap s !! dst = Some xd →
  reduce (poly s dst) (poly s src) = Some r →
  ∃ s', simplify_using_force dst src clt s
        = (Val (bool_decide (m_state xd = processed)
                && different_leading_term r (poly s dst)), s')
        ∧ poly s' dst = r
        ∧ m_too_complex s' = m_too_complex s
        ∧ m_simplified (m_stats s') = wrap32 (m_simplified (m_stats s) + 1)
        ∧ (∀ a, a ≠ dst → heap s' !! a = heap s !! a).
Proof.
  intros Hne Hd Hred. unfold simplify_using_force.
  destruct (decide (src = dst)) as [|_]; [done|].
  unfold bind, modify, get, alg, ret.
  change (poly (inc_simplified s) ?a) with (poly s a).
  change (deref (inc_simplified s) ?a) with (deref s a).
  rewrite Hred, (deref_lookup _ _ _ Hd). cbn.
  destruct (decide (r = _)) as [Heq|Hr]; cbn.
  - eexists. split; [done|]. by repeat split.
  - eexists. split; [done|]. split.
    + unfold poly, deref. cbn. by rewrite !lookup_alter_eq, Hd.
    + split; [done|]. split; [done|].
      intros a Ha. cbn. by rewrite !lookup_alter_ne.
Qed.

(** [p] cannot take [e] further: reduction by it changes nothing, or
    gives a polynomial that is too complex. *)
Lemma try_simplify_using_false dst src clt s c s' :
  try_simplify_using dst src clt s = (Val (false, c), s') →
  heap s' = heap s ∧ m_limit s' = m_limit s
  ∧ (src ≠ dst →
     ∃ r, reduce (poly s dst) (poly s src) = Some r
          ∧ (r = poly s dst ∨ is_too_complex r = true)).
Proof.
  unfold try_simplify_using.
  destruct (decide (src = dst)) as [|_]; [by intros [= _ <-]|].
  unfold bind, modify, get, alg, ret.
  change (poly (inc_simplified s) ?a) with (poly s a).
  destruct (reduce _ _) as [r|] eqn:Hred; cbn; [|done].
  destruct (decide (r = _)) as [Heq|Hr]; cbn.
  { intros [= _ <-]. split; [done|]. split; [done|]. eauto. }
  destruct (is_too_complex r) eqn:Htc; cbn; [|done].
  intros [= _ <-]. split; [done|]. split; [done|]. eauto.
Qed.

Lemma simplify_using_pass_true e eqs s s' :
  simplify_using_pass e eqs true s = (Val false, s') → False.
Proof.
  revert s. induction eqs as [|p eqs IH]; intros s; cbn; [done|].
  unfold bind at 1.
  destruct (try_simplify_using e p false s) as [[[b c]| |] s1]; [|done|done].
  unfold bind, get. replace (if b then true else true) with true by by destruct b.
  destruct (canceled s1 || is_val (poly s1 e)); [done|]. apply IH.
Qed.

Lemma simplify_using_pass_false e eqs s s' :
  simplify_using_pass e eqs false s = (Val false, s') →
  heap s' = heap s ∧ m_limit s' = m_limit s
  ∧ (canceled s' = true ∨ is_val (poly s' e) = true
     ∨ ∀ p, p ∈ eqs → p ≠ e →
         ∃ r, reduce (poly s e) (poly s p) = Some r
              ∧ (r = poly s e ∨ is_too_complex r = true)).
Proof.
  revert s. induction eqs as [|p eqs IH]; intros s; cbn.
  { intros [= <-]. split; [done|]. split; [done|]. do 2 right.
    by intros p ?%elem_of_nil. }
  unfold bind at 1.
  destruct (try_simplify_using e p false s) as [[[b c]| |] s1] eqn:Htry;
    [|done|done].
  unfold bind, get. destruct b.
  { destruct (canceled s1 || is_val (poly s1 e)); [done|].
    by intros ?%simplify_using_pass_true. }
  destruct (try_simplify_using_false _ _ _ _ _ _ Htry) as (Hh & Hl & Hirr).
  destruct (canceled s1 || is_val (poly s1 e)) eqn:Hbrk.
  - intros [= <-]. split; [done|]. split; [done|].
    apply orb_true_iff in Hbrk as [?|?]; [by left|by right; left].
  - intros Hpass. destruct (IH _ Hpass) as (Hh' & Hl' & Hend).
    split; [congruence|]. split; [congruence|].
    destruct Hend as [?|[?|Hall]]; [by left|by right; left|]. do 2 right.
    assert (Hpoly : ∀ a, poly s1 a = poly s a).
    { intros a. unfold poly, deref. by rewrite Hh. }
    intros q [->|Hq]%elem_of_cons Hne; [by apply Hirr|].
    destruct (Hall q Hq Hne) as (r & Hr & Hor).
    rewrite (Hpoly e), (Hpoly q) in Hr. rewrite (Hpoly e) in Hor. by exists r.
Qed.

Lemma simplify_using_loop_normal fuel e eqs s s' :
  simplify_using_loop fuel e eqs s = (Val tt, s') →
  is_val (poly s' e) = true ∨ canceled s' = true
  ∨ ∀ p, p ∈ eqs → p ≠ e →
      ∃ r, reduce (poly s' e) (poly s' p) = Some r
           ∧ (r = poly s' e ∨ is_too_complex r = true).
Proof.
  revert s. induction fuel as [|fuel IH]; intros s; cbn; [done|].
  unfold bind at 1.
  destruct (simplify_using_pass e eqs false s) as [[b| |] s1] eqn:Hpass;
    [|done|done].
  unfold bind, get.
  destruct (is_val (poly s1 e)) eqn:Hv.
  { rewrite andb_false_r. intros [= <-]. by left. }
  rewrite andb_true_r. destruct b; [apply IH|].
  intros [= <-].
  destruct (simplify_using_pass_false _ _ _ _ Hpass) as (Hh & _ & Hend).
  destruct Hend as [?|[?|Hall]]; [by right; left|congruence|]. do 2 right.
  assert (Hpoly : ∀ a, poly s1 a = poly s a).
  { intros a. unfold poly, deref. by rewrite Hh. }
  intros p Hp Hne. rewrite (Hpoly e), (Hpoly p). by apply Hall.
Qed.

(** X7: When simplify_using(eq, eqs) returns, [eq] is in normal form by
    [eqs] as far as the engine goes: its polynomial is constant, or the
    run was cancelled, or reduction by any equation of [eqs] leaves it as
    it is or gives a polynomial that is too complex. *)
Theorem simplify_using_normal_form e eqs s s' :
  simplify_using e eqs s = (Val tt, s') →
  is_val (poly s' e) = true ∨ canceled s' = true
  ∨ ∀ p, p ∈ eqs → p ≠ e →
      ∃ r, reduce (poly s' e) (poly s' p) = Some r
           ∧ (r = poly s' e ∨ is_too_complex r = true).
Proof. unfold simplify_using, bind, get. apply simplify_using_loop_normal. Qed.

End ReducerExtra.

Section ReducerFrame.
Context {PM : PddManager} {PL : PddLaws PM}.

(** X8: simplify_using(eq, eqs) always comes to an end, by return or by
    mem_out, and changes nothing but the polynomial and the dependency of
    [eq], the counters and the too_complex flag: the queues, the watch
    index, every other equation, and state and index of [eq] stay. *)
Theorem simplify_using_changes_target_only e eqs s x :
  heap s !! e = Some x → sources_ok s e eqs →
  pdd_wf (m_poly x) → is_val (m_poly x) = false →
  match simplify_using e eqs s with
  | (Timeout, _) => False
  | (_, s') => upd_only e s s' ∧ pdd_wf (poly s' e)
  end.
Proof.
  intros Hx Hsrc Hwf Hnv.
  pose proof (simplify_using_spec e eqs s x Hx Hsrc Hwf Hnv) as H.
  destruct (simplify_using e eqs s) as [[[]| |] s']; [done| |done].
  by destruct H as (? & ? & _).
Qed.

End ReducerFrame.

(** ** The parts of a step on their own *)

Section StepParts.
Context {PM : PddManager} {PL : PddLaws PM}.
Implicit Types (e : ptr) (s : solver) (x : equation).

(** X9: superpose(eq) only adds: no equation that exists is changed, the
    processed queue is as before, and what is new in the to-simplify
    queue are freshly allocated equations; the invariant of a step in
    progress is kept, also when try_spoly raises mem_out. *)
Theorem superpose_only_adds e s x :
  mid_ok s e x →
  match superpose e s with
  | (Timeout, _) => False
  | (_, s') =>
      mid_ok s' e x
      ∧ (∀ a y, heap s !! a = Some y → heap s' !! a = Some y)
      ∧ m_processed s' = m_processed s
      ∧ (∀ a, a ∈ m_to_simplify s' →
           a ∈ m_to_simplify s ∨ heap s !! a = None)
  end.
Proof.
  intros Hmid. pose proof (superpose_spec e s x Hmid) as H.
  destruct (superpose e s) as [[[]| |] s']; cbn in H; [| |done].
  - destruct H as (? & H1 & H2 & H3 & _). done.
  - destruct H as (? & H1 & H2 & H3 & _). done.
Qed.

(** X10: simplify_using(m_processed, eq) leaves the engine consistent on
    every exit: on return and when mem_out unwinds through the compacting
    guard alike, the three queues have the right states and indices, the
    processed queue holds no gap and no constant, and the watch index is
    that of the to-simplify queue. *)
Theorem simplify_using_set_exception_safe e s x :
  mid_ok s e x →
  match simplify_using_set e s with
  | (Timeout, _) => False
  | (_, s') =>
      mid_ok s' e x ∧ qinv s'
      ∧ watch_entries_ok s' ∧ watched_once s'
  end.
Proof.
  intros Hmid. pose proof (simplify_using_set_spec s e x Hmid) as H.
  assert (Hall : ∀ s', mid_ok s' e x →
            mid_ok s' e x ∧ qinv s' ∧ watch_entries_ok s' ∧ watched_once s').
  { intros s' Hm. pose proof (mid_ok_inv _ _ _ Hm) as Hinv.
    split; [done|]. split; [by apply inv_qinv|].
    split; [by apply inv_watch_entries|by apply inv_watched_once]. }
  destruct (simplify_using_set e s) as [[[]| |] s']; cbn in H; [| |done];
    by apply Hall.
Qed.

(** X11: simplify_watch(eq), when it returns, has the watch index right
    again: the targets it reduced to zero are retired, a target reduced
    to a constant is the conflict, a target with a new leading variable
    has moved to the list of that variable, the others stay. *)
Theorem simplify_watch_keeps_index e s x :
  mid_ok s e x → is_val (m_poly x) = false →
  ∀ s', simplify_watch e s = (Val tt, s') →
    mid_ok s' e x ∧ watch_entries_ok s' ∧ watched_once s'
    ∧ processed_unwatched s'.
Proof.
  intros Hmid Hnv s' Hret.
  pose proof (simplify_watch_spec s e x Hmid Hnv) as H. rewrite Hret in H.
  pose proof (mid_ok_inv _ _ _ H) as Hinv.
  split; [done|]. split; [by apply inv_watch_entries|].
  split; [by apply inv_watched_once|by apply inv_processed_unwatched].
Qed.

(** X12: A step on an engine with nothing to simplify returns false at once:
    the step is counted, [m_levelp1] is left at 0, and nothing else
    changes. *)
Theorem step_nothing_to_pick s :
  inv s → m_to_simplify s = [] →
  step s = (Val false, set_levelp1 0 (inc_compute_steps s)).
Proof.
  intros Hinv Hts.
  assert (Hinv' : inv (inc_compute_steps s)) by by apply (inv_same s).
  unfold step, pick_next.
  pose proof (pick_next_loop_spec _ (inc_compute_steps s) _ eq_refl
                (proj1 Hinv')) as Hp.
  destruct (pick_next_loop _ (inc_compute_steps s)) as [[e|] s1].
  - exfalso. destruct Hp as (_ & _ & Hin & _).
    change (m_to_simplify (inc_compute_steps s)) with (m_to_simplify s) in Hin.
    rewrite Hts in Hin. by apply elem_of_nil in Hin.
  - by destruct Hp as [-> _].
Qed.

(** X13: pick_next hands over the equation it returns detached: it is in the
    store, still labelled to_simplify, non-constant, in no queue and in
    no watch list, and the invariant holds of what is left. *)
Theorem pick_next_detaches s e s' :
  inv s → pick_next s = (Some e, s') →
  ∃ x, mid_ok s' e x ∧ is_val (m_poly x) = false
       ∧ in_no_queue s' e ∧ (∀ v, e ∉ watch_of s' v)
       ∧ m_solved s' = m_solved s ∧ m_processed s' = m_processed s.
Proof.
  intros Hinv Hpick.
  destruct (pick_next_mid s e s' Hinv Hpick) as (x & Hmid & Hnv).
  exists x. split; [done|]. split; [done|].
  pose proof Hmid as (HG & HQ & Hx & Hst & Hnts).
  pose proof HG as Hrec. open_G Hrec.
  assert (Hno : in_no_queue s' e).
  { intros [] Hin; cbn in Hin.
    - pose proof (Qok_state _ _ _ _ _ g_solved Hin Hx). congruence.
    - done.
    - pose proof (Qok_state _ _ _ _ _ HQ Hin Hx). congruence. }
  split; [done|]. split.
  { intros v Hin. destruct g_watch as (W1 & _).
    destruct (W1 v e Hin) as [? _]. done. }
  unfold pick_next in Hpick.
  pose proof (pick_next_loop_spec _ s _ eq_refl (proj1 Hinv)) as Hp.
  rewrite Hpick in Hp.
  destruct Hp as (y & _ & _ & _ & _ & _ & _ & _ & _ & E1 & E2 & _). done.
Qed.

Lemma init_saturate_levelp1 s :
  m_levelp1 (init_saturate s) = length get_level2var.
Proof.
  unfold init_saturate.
  set (n := length get_level2var).
  set (s1 := set_var2level _ (set_level2var _ s)).
  destruct (level_fold_spec n s1 (le_n _)) as (L1 & _).
  { cbn. by rewrite length_resize. }
  { cbn. by rewrite length_resize. }
  set (s2 := foldl level_step s1 (seq 0 n)) in *.
  set (s4 := set_levelp1 _ (set_watch _ s2)).
  destruct (foldl_add_to_watch_fields (m_to_simplify s4) s4)
    as (_&_&_&_&_&F6&_). cbv zeta in F6. rewrite F6. exact L1.
Qed.

(** X14: init_saturate builds the level maps and the watch index from any
    well-formed queue state: afterwards the invariant of the loop holds,
    the level maps are those of the algebra, there is one watch list per
    variable, [m_levelp1] is the number of levels; store, queues, conflict
    and statistics are not touched. *)
Theorem init_saturate_establishes s :
  qinv s →
  let s' := init_saturate s in
  inv s'
  ∧ m_level2var s' = get_level2var
  ∧ (∀ i v, get_level2var !! i = Some v → m_var2level s' !! v = Some i)
  ∧ length (m_watch s') = length get_level2var
  ∧ m_levelp1 s' = length get_level2var
  ∧ heap s' = heap s ∧ m_to_simplify s' = m_to_simplify s
  ∧ m_processed s' = m_processed s ∧ m_solved s' = m_solved s
  ∧ m_conflict s' = m_conflict s ∧ m_stats s' = m_stats s.
Proof.
  intros Hq s'. pose proof (init_saturate_inv s Hq) as Hinv. fold s' in Hinv.
  destruct (g_levels _ _ _ _ (proj1 Hinv)) as (L1 & L2 & L3).
  destruct (init_saturate_fields s) as (F1 & F2 & F3 & F4 & F5 & _ & F7 & _).
  split; [done|]. split; [done|]. split; [done|]. split; [done|].
  split; [apply init_saturate_levelp1|]. done.
Qed.

(** X15: add keeps the engine consistent at any time: on a well-formed queue
    state the queues stay well formed, and once the watch index is in
    place the full invariant of the loop is kept. *)
Theorem add_keeps_invariants (p : pdd) (d : dep) s :
  pdd_wf p →
  (qinv s → qinv (add p d s)) ∧ (inv s → inv (add p d s)).
Proof.
  intros Hwf. split; [intros Hq; by apply add_qinv|].
  intros (HG & HQ).
  pose proof (add_extends s p d _ _ _ HG) as Hext.
  assert (Hpr : m_processed (add p d s) = m_processed s) by apply Hext.
  split.
  - rewrite Hpr. apply G_add; [done| |done].
    intros a Ha. by eapply Qok_in_heap.
  - rewrite Hpr. by eapply extends_Qok.
Qed.

End StepParts.

Section StepCounter.
Context {PM : PddManager}.

(** X16: Every call of step adds exactly one (modulo 2^32) to the step
    counter, whether it finds nothing to pick, completes, returns early
    or is left by mem_out; it never changes the configuration or the
    cancellation flag. *)
Theorem step_counts_once (s : solver) :
  m_compute_steps (m_stats (step s).2)
  = wrap32 (m_compute_steps (m_stats s) + 1)
  ∧ m_config (step s).2 = m_config s
  ∧ m_limit (step s).2 = m_limit s.
Proof. destruct (step_frame s) as (H1 & H2 & H3). done. Qed.

End StepCounter.

(** ** equations and reset *)

Section EquationsReset.
Context {PM : PddManager}.
Implicit Types (e a : ptr) (s : solver) (q : list ptr).

(** X17: equations() lists every queued equation exactly once, the solved
    ones first, then those to simplify, then the processed ones; each is
    live in the store. *)
Theorem equations_lists_each_once s :
  qinv s →
  NoDup (equations s)
  ∧ (∀ e, e ∈ equations s ↔ ∃ st, e ∈ queue st s)
  ∧ (∀ e, e ∈ equations s → is_Some (heap s !! e))
  ∧ length (equations s)
    = length (m_solved s) + length (m_to_simplify s)
      + length (m_processed s).
Proof.
  intros Hrec. open_qinv Hrec. unfold equations.
  assert (Hmem : ∀ e, e ∈ m_solved s ++ m_to_simplify s ++ m_processed s
                      ↔ ∃ st, e ∈ queue st s).
  { intros e. rewrite !elem_of_app. split.
    - intros [H|[H|H]]; [by exists solved|by exists to_simplify|
                         by exists processed].
    - intros [[] H]; cbn in H; auto. }
  split; [|split; [done|split]].
  - apply NoDup_app. split; [by eapply Qok_NoDup|]. split.
    + intros e He [Hin|Hin]%elem_of_app.
      * by eapply (Qok_disjoint _ solved to_simplify).
      * by eapply (Qok_disjoint _ solved processed).
    + apply NoDup_app. split; [by eapply Qok_NoDup|].
      split; [|by eapply Qok_NoDup].
      intros e He Hin. by eapply (Qok_disjoint _ to_simplify processed).
  - intros e He. apply elem_of_app in He as [Hin|Hin];
      [|apply elem_of_app in Hin as [Hin|Hin]].
    + exact (Qok_in_heap _ _ _ _ qi_solved Hin).
    + exact (Qok_in_heap _ _ _ _ qi_to_simplify Hin).
    + exact (Qok_in_heap _ _ _ _ qi_processed Hin).
  - rewrite !length_app. lia.
Qed.

Lemma dealloc_all_fields q s :
  let s' := dealloc_all q s in
  (∀ e, heap s' !! e = if decide (e ∈ q) then None else heap s !! e)
  ∧ next_ptr s' = next_ptr s ∧ m_limit s' = m_limit s
  ∧ m_config s' = m_config s ∧ m_too_complex s' = m_too_complex s
  ∧ m_levelp1 s' = m_levelp1 s.
Proof.
  revert s. induction q as [|a q IH]; intros s; cbn.
  { split; [|done]. intros e. rewrite decide_False; [done|].
    by intros ?%elem_of_nil. }
  destruct (IH (retire a s)) as (Hh & E1 & E2 & E3 & E4 & E5).
  split; [|done]. intros e. rewrite Hh.
  destruct (decide (e ∈ q)) as [Hin|Hnin].
  - rewrite decide_True; [done|by right].
  - cbn. destruct (decide (e = a)) as [->|Hne].
    + rewrite decide_True; [|by left]. apply lookup_delete_eq.
    + rewrite decide_False; [by rewrite lookup_delete_ne|].
      by intros [->|?]%elem_of_cons.
Qed.

(** X18: reset() empties the three queues and the watch index, forgets the
    conflict and the level maps, zeroes the statistics and deallocates
    every queued equation.  It leaves [m_levelp1], the too_complex flag,
    the configuration and the cancellation flag as they are; the result
    is a well-formed engine. *)
Theorem reset_clears s :
  let s' := reset s in
  equations s' = []
  ∧ (∀ e, e ∈ equations s → heap s' !! e = None)
  ∧ (∀ e, e ∉ equations s → heap s' !! e = heap s !! e)
  ∧ m_conflict s' = None ∧ m_watch s' = []
  ∧ m_level2var s' = [] ∧ m_var2level s' = []
  ∧ m_stats s' = stats_reset
  ∧ m_levelp1 s' = m_levelp1 s ∧ m_too_complex s' = m_too_complex s
  ∧ m_config s' = m_config s ∧ m_limit s' = m_limit s
  ∧ (qinv s → qinv s').
Proof.
  intros s'. unfold s', reset.
  set (s1 := dealloc_all (m_solved s) s).
  set (s2 := dealloc_all (m_to_simplify s) s1).
  set (s3 := dealloc_all (m_processed s) s2).
  destruct (dealloc_all_fields (m_solved s) s) as (H1 & A1 & B1 & C1 & D1 & E1).
  destruct (dealloc_all_fields (m_to_simplify s) s1)
    as (H2 & A2 & B2 & C2 & D2 & E2).
  destruct (dealloc_all_fields (m_processed s) s2)
    as (H3 & A3 & B3 & C3 & D3 & E3).
  fold s1 in H1, A1, B1, C1, D1, E1. fold s2 in H2, A2, B2, C2, D2, E2.
  fold s3 in H3, A3, B3, C3, D3, E3.
  assert (Hh : ∀ e, heap s3 !! e
                    = if decide (e ∈ equations s) then None else heap s !! e).
  { intros e. rewrite H3, H2, H1. unfold equations.
    destruct (decide (e ∈ m_processed s)) as [Hp|Hp].
    { rewrite decide_True; [done|]. rewrite !elem_of_app. auto. }
    destruct (decide (e ∈ m_to_simplify s)) as [Ht|Ht].
    { rewrite decide_True; [done|]. rewrite !elem_of_app. auto. }
    destruct (decide (e ∈ m_solved s)) as [Hs|Hs].
    { rewrite decide_True; [done|]. rewrite !elem_of_app. auto. }
    rewrite decide_False; [done|]. rewrite !elem_of_app. tauto. }
  cbn.
  split; [done|]. split; [intros e He; by rewrite Hh, decide_True|].
  split; [intros e He; by rewrite Hh, decide_False|].
  do 5 (split; [done|]).
  split; [by rewrite E3, E2, E1|]. split; [by rewrite D3, D2, D1|].
  split; [by rewrite C3, C2, C1|]. split; [by rewrite B3, B2, B1|].
  intros Hrec. open_qinv Hrec.
  assert (Hsub : ∀ e y, heap s3 !! e = Some y → heap s !! e = Some y).
  { intros e y. rewrite Hh. by destruct (decide _). }
  constructor; cbn.
  - intros i e Hi. by rewrite lookup_nil in Hi.
  - intros i e Hi. by rewrite lookup_nil in Hi.
  - intros i e Hi. by rewrite lookup_nil in Hi.
  - by intros e ?%elem_of_nil.
  - by intros e ?%elem_of_nil.
  - intros e y Hy. eapply qi_wf. by apply Hsub.
  - by intros e ?%elem_of_nil.
  - intros e [y Hy]. rewrite A3, A2, A1. apply qi_fresh. exists y. by apply Hsub.
  - by intros c ?.
Qed.

End EquationsReset.

(** ** The debug-mode checker *)

Section Checker.
Context {PM : PddManager}.
Variable free_vars : pdd → list nat.
Implicit Types (e a t : ptr) (s : solver) (q : list ptr) (hv : gset nat).

Lemma forallb_elem {A} (f : A → bool) (l : list A) :
  forallb f l = true ↔ ∀ y, y ∈ l → f y = true.
Proof.
  induction l as [|b l IH]; cbn.
  - split; [|done]. by intros _ y ?%elem_of_nil.
  - rewrite andb_true_iff, IH. split.
    + intros [Hb Hl] y [->|Hy]%elem_of_cons; auto.
    + intros H. split; [apply H; by left|]. intros y Hy. apply H. by right.
Qed.

Lemma solved_form_test (p : pdd) :
  negb (is_val p) && is_val (hi p) = true ↔ solved_form p.
Proof.
  unfold solved_form. rewrite andb_true_iff, negb_true_iff. done.
Qed.

Lemma check_processed_spec s q i :
  check_processed s i q = true ↔
  ∀ k e, q !! k = Some e →
    m_state (deref s e) = processed ∧ m_idx (deref s e) = i + k
    ∧ is_val (poly s e) = false.
Proof.
  revert i. induction q as [|a q IH]; intros i; cbn.
  { split; [|done]. intros _ k e Hk. by rewrite lookup_nil in Hk. }
  rewrite !andb_true_iff, !bool_decide_eq_true, negb_true_iff, IH. split.
  - intros [[[H1 H2] H3] H4] [|k] e Hk; cbn in Hk.
    + injection Hk as <-. rewrite Nat.add_0_r. done.
    + replace (i + S k) with (S i + k) by lia. by apply H4.
  - intros H. destruct (H 0 a eq_refl) as (H1 & H2 & H3).
    rewrite Nat.add_0_r in H2. split; [done|].
    intros k e Hk. replace (S i + k) with (i + S k) by lia. by apply H.
Qed.

Lemma check_to_simplify_spec s q i :
  check_to_simplify s i q = true ↔
  ∀ k e, q !! k = Some e →
    m_state (deref s e) = to_simplify ∧ m_idx (deref s e) = i + k
    ∧ is_val (poly s e) = false
    ∧ (m_watch s = [] ∨ e ∈ watch_of s (var (poly s e))).
Proof.
  revert i. induction q as [|a q IH]; intros i; cbn.
  { split; [|done]. intros _ k e Hk. by rewrite lookup_nil in Hk. }
  rewrite !andb_true_iff, orb_true_iff, !bool_decide_eq_true,
    negb_true_iff, IH.
  split.
  - intros [[[[H1 H2] H3] H5] H4] [|k] e Hk; cbn in Hk.
    + injection Hk as <-. rewrite Nat.add_0_r. done.
    + replace (i + S k) with (S i + k) by lia. by apply H4.
  - intros H. destruct (H 0 a eq_refl) as (H1 & H2 & H3 & H5).
    rewrite Nat.add_0_r in H2. split; [done|].
    intros k e Hk. replace (S i + k) with (i + S k) by lia. by apply H.
Qed.

Lemma check_watch_spec s (ws : list (list ptr)) i :
  check_watch s i ws = true ↔
  ∀ k w e, ws !! k = Some w → e ∈ w →
    is_val (poly s e) = false ∧ var (poly s e) = i + k
    ∧ m_state (deref s e) = to_simplify ∧ e ∈ m_to_simplify s.
Proof.
  revert i. induction ws as [|w0 ws IH]; intros i; cbn.
  { split; [|done]. intros _ k w e Hk. by rewrite lookup_nil in Hk. }
  rewrite andb_true_iff, forallb_elem, IH. split.
  - intros [H0 H4] [|k] w e Hk He; cbn in Hk.
    + injection Hk as <-. specialize (H0 e He).
      rewrite !andb_true_iff, !bool_decide_eq_true, negb_true_iff in H0.
      rewrite Nat.add_0_r. tauto.
    + replace (i + S k) with (S i + k) by lia. by eapply H4.
  - intros H. split.
    + intros e He. destruct (H 0 w0 e eq_refl He) as (H1 & H2 & H3 & H4).
      rewrite Nat.add_0_r in H2.
      rewrite !andb_true_iff, !bool_decide_eq_true, negb_true_iff. done.
    + intros k w e Hk He. replace (S i + k) with (i + S k) by lia.
      by eapply H.
Qed.

Lemma no_head_var_spec s hv q :
  no_head_var free_vars s hv q = true ↔
  ∀ t v, t ∈ q → v ∈ free_vars (poly s t) → v ∉ hv.
Proof.
  unfold no_head_var. rewrite forallb_elem. split.
  - intros H t v Ht Hv. specialize (H t Ht). rewrite forallb_elem in H.
    specialize (H v Hv). by apply bool_decide_eq_true in H.
  - intros H t Ht. rewrite forallb_elem. intros v Hv.
    apply bool_decide_eq_true. exact (H t v Ht Hv).
Qed.

Lemma check_solved_spec s q : ∀ i hv,
  (∀ v, v ∈ (check_solved s i hv q).2 ↔
        v ∈ hv ∨ ∃ e, e ∈ q ∧ solved_form (poly s e) ∧ var (poly s e) = v)
  ∧ ((check_solved s i hv q).1 = true ↔
       (∀ k e, q !! k = Some e →
          m_state (deref s e) = solved ∧ m_idx (deref s e) = i + k)
       ∧ (∀ e, e ∈ q → solved_form (poly s e) → var (poly s e) ∉ hv)
       ∧ (∀ k1 k2 e1 e2, q !! k1 = Some e1 → q !! k2 = Some e2 → k1 ≠ k2 →
            solved_form (poly s e1) → solved_form (poly s e2) →
            var (poly s e1) ≠ var (poly s e2))).
Proof.
  induction q as [|a q IH]; intros i hv; cbn [check_solved].
  { cbn. split.
    - intros v. split; [by left|]. intros [?|(e & ?%elem_of_nil & _)]; done.
    - split; [|done]. intros _. split; [|split].
      + intros k e Hk. by rewrite lookup_nil in Hk.
      + by intros e ?%elem_of_nil.
      + intros k1 k2 e1 e2 Hk. by rewrite lookup_nil in Hk. }
  set (ok := bool_decide (m_state (deref s a) = solved)
             && bool_decide (m_idx (deref s a) = i)).
  assert (Hok : ok = true ↔
            m_state (deref s a) = solved ∧ m_idx (deref s a) = i).
  { unfold ok. by rewrite andb_true_iff, !bool_decide_eq_true. }
  assert (Hshift : ∀ (P : nat → ptr → Prop),
            (∀ k e, (a :: q) !! k = Some e → P k e)
            ↔ P 0 a ∧ ∀ k e, q !! k = Some e → P (S k) e).
  { intros P. split.
    - intros H. split; [by apply H|]. intros k e Hk. by apply (H (S k)).
    - intros [H0 H] [|k] e Hk; cbn in Hk; [by injection Hk as <-|by apply H]. }
  destruct (negb (is_val (poly s a)) && is_val (hi (poly s a))) eqn:Hsf.
  - apply solved_form_test in Hsf.
    set (v := var (poly s a)).
    destruct (IH (S i) ({[v]} ∪ hv)) as [IHm IHo].
    destruct (check_solved s (S i) ({[v]} ∪ hv) q) as [ok' hvr].
    cbn [fst snd] in *. split.
    + intros w. rewrite IHm, elem_of_union, elem_of_singleton. split.
      * intros [[->|?]|(e & He & Hs & Hv)]; [|by left|].
        -- right. exists a. split; [by left|done].
        -- right. exists e. split; [by right|done].
      * intros [?|(e & [->|He]%elem_of_cons & Hs & Hv)].
        -- left. by right.
        -- left. by left.
        -- right. by exists e.
    + rewrite !andb_true_iff, bool_decide_eq_true, Hok, IHo. split.
      * intros [[[H1 H2] Hv] (A & B & C)]. split; [|split].
        -- apply Hshift. split; [by rewrite Nat.add_0_r|].
           intros k e Hk. replace (i + S k) with (S i + k) by lia. by apply A.
        -- intros e [->|He]%elem_of_cons Hs; [done|].
           intros Hin. apply (B e He Hs), elem_of_union. by right.
        -- intros [|k1] [|k2] e1 e2 Hk1 Hk2 Hne Hs1 Hs2; cbn in Hk1, Hk2.
           ++ done.
           ++ injection Hk1 as <-.
              assert (He2 : e2 ∈ q) by by eapply list_elem_of_lookup_2.
              intros Heq. apply (B e2 He2 Hs2), elem_of_union. left.
              by apply elem_of_singleton.
           ++ injection Hk2 as <-.
              assert (He1 : e1 ∈ q) by by eapply list_elem_of_lookup_2.
              intros Heq. apply (B e1 He1 Hs1), elem_of_union. left.
              by apply elem_of_singleton.
           ++ eapply (C k1 k2); eauto.
      * intros (A & B & C). apply Hshift in A as [[A1 A2] A].
        rewrite Nat.add_0_r in A2.
        split; [split; [done|apply B; [by left|done]]|]. split; [|split].
        -- intros k e Hk. replace (S i + k) with (i + S k) by lia. by apply A.
        -- intros e He Hs. apply not_elem_of_union. split.
           ++ apply not_elem_of_singleton.
              apply list_elem_of_lookup in He as [k Hk].
              apply (C (S k) 0 e a); done.
           ++ apply B; [by right|done].
        -- intros k1 k2 e1 e2 Hk1 Hk2 Hne.
           apply (C (S k1) (S k2)); [done|done|lia].
  - assert (Hnsf : ¬ solved_form (poly s a)).
    { intros H%solved_form_test. congruence. }
    destruct (IH (S i) hv) as [IHm IHo].
    destruct (check_solved s (S i) hv q) as [ok' hvr].
    cbn [fst snd] in *. split.
    + intros w. rewrite IHm. split.
      * intros [?|(e & He & Hs & Hv)]; [by left|].
        right. exists e. split; [by right|done].
      * intros [?|(e & [->|He]%elem_of_cons & Hs & Hv)];
          [by left|done|]. right. by exists e.
    + rewrite !andb_true_iff, Hok, IHo. split.
      * intros [[H1 H2] (A & B & C)]. split; [|split].
        -- apply Hshift. split; [by rewrite Nat.add_0_r|].
           intros k e Hk. replace (i + S k) with (S i + k) by lia. by apply A.
        -- intros e [->|He]%elem_of_cons Hs; [done|by apply B].
        -- intros [|k1] [|k2] e1 e2 Hk1 Hk2 Hne Hs1 Hs2; cbn in Hk1, Hk2.
           ++ done.
           ++ by injection Hk1 as <-.
           ++ by injection Hk2 as <-.
           ++ eapply (C k1 k2); eauto.
      * intros (A & B & C). apply Hshift in A as [[A1 A2] A].
        rewrite Nat.add_0_r in A2. split; [done|]. split; [|split].
        -- intros k e Hk. replace (S i + k) with (i + S k) by lia. by apply A.
        -- intros e He Hs. apply B; [by right|done].
        -- intros k1 k2 e1 e2 Hk1 Hk2 Hne.
           apply (C (S k1) (S k2)); [done|done|lia].
Qed.

Lemma watch_of_lookup s v e :
  e ∈ watch_of s v ↔ ∃ w, m_watch s !! v = Some w ∧ e ∈ w.
Proof.
  unfold watch_of. rewrite list_lookup_total_alt.
  destruct (m_watch s !! v) as [w|]; cbn.
  - split; [by exists w|]. by intros (w' & [= <-] & ?).
  - split; [by intros ?%elem_of_nil|]. by intros (w' & ? & _).
Qed.

Lemma invariant_reflect s :
  invariant free_vars s = true ↔
  queue_checked s processed (m_processed s) true
  ∧ queue_checked s solved (m_solved s) false
  ∧ queue_checked s to_simplify (m_to_simplify s) true
  ∧ head_vars_distinct s
  ∧ head_vars_eliminated free_vars s
  ∧ watched_when_indexed s
  ∧ watch_checked s.
Proof.
  unfold invariant.
  destruct (check_solved_spec s (m_solved s) 0 ∅) as [Hm Ho].
  destruct (check_solved s 0 ∅ (m_solved s)) as [ok hvs]. cbn [fst snd] in *.
  rewrite !andb_true_iff, check_processed_spec, check_to_simplify_spec,
    check_watch_spec, Ho.
  assert (Hhead : check_head_vars free_vars s hvs = true
                  ↔ head_vars_eliminated free_vars s).
  { unfold check_head_vars, head_vars_eliminated. case_bool_decide as Hemp.
    - split; [|done]. intros _ e t He Hs _. exfalso.
      assert (var (poly s e) ∈ hvs) as Hin.
      { apply Hm. right. by exists e. }
      rewrite Hemp in Hin. by apply elem_of_empty in Hin.
    - rewrite andb_true_iff, !no_head_var_spec. split.
      + intros [H1 H2] e t He Hs [Ht|Ht] Hv.
        * apply (H1 t _ Ht Hv). apply Hm. right. by exists e.
        * apply (H2 t _ Ht Hv). apply Hm. right. by exists e.
      + intros H. split; intros t v Ht Hv [Hin|(e & He & Hs & <-)]%Hm;
          try by apply elem_of_empty in Hin.
        * by apply (H e t He Hs (or_introl Ht)).
        * by apply (H e t He Hs (or_intror Ht)). }
  rewrite Hhead. unfold queue_checked, head_vars_distinct,
    watched_when_indexed, watch_checked.
  split.
  - intros ((((HP & (A & _ & C)) & HH) & HT) & HW).
    split; [intros i e Hi; destruct (HP i e Hi) as (?&?&?); done|].
    split; [intros i e Hi; destruct (A i e Hi); done|].
    split; [intros i e Hi; destruct (HT i e Hi) as (?&?&?&?); done|].
    split; [done|]. split; [done|]. split.
    + intros Hne e [i Hi]%list_elem_of_lookup.
      destruct (HT i e Hi) as (_&_&_&[?|?]); done.
    + intros v e (w & Hw & He)%watch_of_lookup. by apply (HW v w e).
  - intros (HP & HS & HT & HD & HH & HWI & HW).
    split; [split; [split; [split|]|]|].
    + intros i e Hi. destruct (HP i e Hi) as (?&?&?). auto.
    + split; [|split; [|done]].
      * intros i e Hi. destruct (HS i e Hi) as (?&?&?). done.
      * intros e _ _. apply not_elem_of_empty.
    + done.
    + intros i e Hi. destruct (HT i e Hi) as (?&?&?).
      split; [done|]. split; [done|]. split; [auto|].
      destruct (decide (m_watch s = [])) as [|Hne]; [by left|]. right.
      apply HWI; [done|]. by eapply list_elem_of_lookup_2.
    + intros v w e Hw He. apply HW, watch_of_lookup. by exists w.
Qed.

(** X19: invariant() runs to its end, every VERIFY and assertion passing,
    exactly when: each queue holds equations with the state of the queue
    and their position as index; the processed and to-simplify ones are
    non-constant; the solved forms in the solved queue have distinct
    leading variables, none of which is a free variable of a to-simplify
    or processed equation; once the watch index exists, each to-simplify
    equation is in the watch list of its leading variable; and each
    watch entry is a non-constant to-simplify equation of the queue, led
    by the watched variable. *)
Theorem invariant_characterised s :
  invariant free_vars s = true ↔
  queue_checked s processed (m_processed s) true
  ∧ queue_checked s solved (m_solved s) false
  ∧ queue_checked s to_simplify (m_to_simplify s) true
  ∧ head_vars_distinct s
  ∧ head_vars_eliminated free_vars s
  ∧ watched_when_indexed s
  ∧ watch_checked s.
Proof. apply invariant_reflect. Qed.

Lemma Qok_queue_checked s st q b :
  Qok (heap s) st q → (b = true → NCok (heap s) (.∈ q)) →
  queue_checked s st q b.
Proof.
  intros HQ HN i e Hi. destruct (HQ i e Hi) as (x & Hx & Hst & Hidx).
  rewrite (deref_lookup _ _ _ Hx). split; [done|]. split; [done|].
  intros Hb. apply (HN Hb). by eapply list_elem_of_lookup_2.
Qed.

(** X20: Between the steps of a saturation the checker can only fail on the
    head variables: when the solved forms have distinct leading variables
    that occur in no to-simplify or processed equation, invariant()
    passes. *)
Theorem invariant_passes_between_steps s :
  inv s → head_vars_distinct s → head_vars_eliminated free_vars s →
  invariant free_vars s = true.
Proof.
  intros [HG HQ] HD HH. pose proof HG as Hrec. open_G Hrec.
  apply invariant_reflect.
  split; [by apply Qok_queue_checked|].
  split; [by apply Qok_queue_checked|].
  split; [by apply Qok_queue_checked|].
  split; [done|]. split; [done|].
  destruct g_watch as (W1 & W2 & W3). split.
  - intros _ e He. by apply W3.
  - intros v e He. destruct (W1 v e He) as [Hts Hv].
    split; [by apply g_nonconst_ts|]. split; [done|]. split; [|done].
    destruct (Qok_lookup _ _ _ _ g_to_simplify Hts) as (x & Hx & Hst & _).
    by rewrite (deref_lookup _ _ _ Hx).
Qed.

End Checker.

(** ** The parts of the engine on concrete engines *)

Import Examples.

Lemma qinv_queue {PM : PddManager} (s : solver) st :
  qinv s → Qok (heap s) st (queue st s).
Proof. intros Hrec. open_qinv Hrec. by destruct st. Qed.

Lemma engine_two_store :
  let s := engine 100 100 [14%N; 12%N] in
  heap s !! 0 = Some (mk_equation (PM := Lin2.manager 3 100 100) to_simplify 0 14%N [])
  ∧ heap s !! 1 = Some (mk_equation (PM := Lin2.manager 3 100 100) to_simplify 1 12%N []).
Proof. intros s. split; vm_compute; reflexivity. Qed.

Lemma engine_picked :
  let s := init_saturate (engine 100 100 [12%N; 10%N]) in
  ∃ x, pick_next s = (Some 1, (pick_next s).2)
       ∧ mid_ok (pick_next s).2 1 x ∧ is_val (m_poly x) = false.
Proof.
  intros s.
  assert (Hinv : inv s) by (apply engine_inv, small_polys_2; reflexivity).
  assert (Hpick : pick_next s = (Some 1, (pick_next s).2))
    by (vm_compute; reflexivity).
  clearbody s.
  destruct (pick_next_mid s 1 _ Hinv Hpick) as (x & Hmid & Hnv).
  exists x. split; [exact Hpick|]. split; [exact Hmid|exact Hnv].
Qed.

Lemma pop_equation_removes_witness :
  let s := engine 100 100 [14%N; 12%N] in
  let s' := pop_equation 0 s in
  Qok (heap s') to_simplify (queue to_simplify s')
  ∧ length (queue to_simplify s') = length (queue to_simplify s) - 1
  ∧ heap s' !! 0 = heap s !! 0.
Proof.
  intros s.
  assert (Hq : qinv s) by (apply engine_qinv, small_polys_2; reflexivity).
  assert (Hin : 0 ∈ queue to_simplify s) by (vm_compute; left).
  clearbody s. intros s'.
  destruct (pop_equation_removes s 0 to_simplify
              (qinv_queue s to_simplify Hq) Hin)
    as (H1 & _ & H3 & _ & _ & _ & H7).
  split; [exact H1|]. split; [exact H3|exact H7].
Defined.

Lemma push_equation_appends_witness :
  let s := pop_equation 0 (engine 100 100 [14%N; 12%N]) in
  queue processed (push_equation processed 0 s) = queue processed s ++ [0].
Proof.
  intros s.
  assert (Hx : heap s !! 0 = Some (mk_equation (PM := Lin2.manager 3 100 100) to_simplify 0 14%N []))
    by (vm_compute; reflexivity).
  assert (Hnin : 0 ∉ queue processed s) by (vm_compute; apply not_elem_of_nil).
  assert (HQ : Qok (heap s) processed (queue processed s)).
  { intros i e Hi. vm_compute in Hi. discriminate Hi. }
  clearbody s.
  destruct (push_equation_appends s processed 0 _ Hx Hnin HQ) as (H1 & _).
  exact H1.
Defined.

Lemma push_pop_round_trip_witness :
  let s := engine 100 100 [14%N; 12%N] in
  let s' := pop_equation 0 (push_equation solved 0 s) in
  queue solved s' = queue solved s
  ∧ queue to_simplify s' = queue to_simplify s
  ∧ queue processed s' = queue processed s.
Proof.
  intros s. pose proof (proj1 engine_two_store) as Hx. fold s in Hx.
  clearbody s. intros s'.
  destruct (push_pop_round_trip s solved 0 _ Hx) as (H1 & _).
  split; [exact (H1 solved)|].
  split; [exact (H1 to_simplify)|exact (H1 processed)].
Defined.

Lemma del_equation_removes_witness :
  let s := engine 100 100 [14%N; 12%N] in
  heap (del_equation 0 s) !! 0 = None
  ∧ Qok (heap (del_equation 0 s)) to_simplify
      (queue to_simplify (del_equation 0 s)).
Proof.
  intros s.
  assert (Hq : qinv s) by (apply engine_qinv, small_polys_2; reflexivity).
  assert (Hin : 0 ∈ queue to_simplify s) by (vm_compute; left).
  clearbody s.
  destruct (del_equation_removes s 0 to_simplify
              (qinv_queue s to_simplify Hq) Hin)
    as (H1 & _ & H3 & _).
  split; [exact H1|exact H3].
Defined.

Lemma try_simplify_using_reports_change_witness :
  let s := engine 100 100 [14%N; 12%N] in
  match try_simplify_using 0 1 false s with
  | (Val (b, _), s') => b = true ↔ poly s' 0 ≠ poly s 0
  | (MemOut, s') => heap s' = heap s
  | (Timeout, _) => False
  end.
Proof.
  intros s. pose proof (proj1 engine_two_store) as Hx. fold s in Hx.
  clearbody s.
  assert (Hne : 1 ≠ 0) by discriminate.
  pose proof (try_simplify_using_reports_change 0 1 false s _ Hne Hx) as H.
  destruct (try_simplify_using 0 1 false s) as [[[b c]| |] s'].
  - exact (proj1 H).
  - exact (proj1 H).
  - exact H.
Defined.

Lemma simplify_using_force_commits_witness :
  let s := engine 100 0 [14%N; 12%N] in
  ∃ s' : @solver (Lin2.manager 3 100 0),
    (simplify_using_force 0 1 false s).2 = s'
    ∧ poly s' 0 = 2%N ∧ m_too_complex s' = m_too_complex s
    ∧ is_too_complex (PddManager := Lin2.manager 3 100 0) 2%N = true.
Proof.
  intros s.
  assert (Hne : 1 ≠ 0) by discriminate.
  assert (Hx : heap s !! 0
               = Some (mk_equation (PM := Lin2.manager 3 100 0)
                         to_simplify 0 14%N []))
    by (vm_compute; reflexivity).
  assert (Hred : reduce (poly s 0) (poly s 1) = Some 2%N)
    by (vm_compute; reflexivity).
  clearbody s.
  destruct (simplify_using_force_commits 0 1 false s _ 2%N Hne Hx Hred)
    as (s' & Hrun & Hp & Htc & _).
  exists s'. split; [rewrite Hrun; reflexivity|].
  split; [exact Hp|]. split; [exact Htc|reflexivity].
Defined.

Lemma simplify_using_normal_form_witness :
  let s := engine 100 100 [14%N; 12%N] in
  let s' := (simplify_using 0 [1] s).2 in
  is_val (poly s' 0) = true ∨ canceled s' = true
  ∨ ∀ p, p ∈ [1] → p ≠ 0 →
      ∃ r, reduce (poly s' 0) (poly s' p) = Some r
           ∧ (r = poly s' 0 ∨ is_too_complex r = true).
Proof.
  intros s.
  assert (Hrun : simplify_using 0 [1] s
                 = (Val tt, (simplify_using 0 [1] s).2))
    by (vm_compute; reflexivity).
  clearbody s. intros s'.
  exact (simplify_using_normal_form 0 [1] s s' Hrun).
Defined.

Lemma simplify_using_changes_target_only_witness :
  let s := engine 100 100 [14%N; 12%N] in
  upd_only 0 s (simplify_using 0 [1] s).2.
Proof.
  intros s. pose proof engine_two_store as [Hx0 Hx1]. fold s in Hx0, Hx1.
  clearbody s.
  assert (Hsrc : sources_ok s 0 [1]).
  { split.
    - intros Hin. apply list_elem_of_singleton in Hin. discriminate Hin.
    - intros p Hp. apply list_elem_of_singleton in Hp. subst p.
      exists (mk_equation (PM := Lin2.manager 3 100 100) to_simplify 1 12%N []).
      split; [exact Hx1|reflexivity]. }
  assert (Hwf : pdd_wf (PddManager := Lin2.manager 3 100 100) 14%N) by reflexivity.
  assert (Hnv : is_val (PddManager := Lin2.manager 3 100 100) 14%N = false) by reflexivity.
  pose proof (simplify_using_changes_target_only 0 [1] s _ Hx0 Hsrc Hwf Hnv)
    as H.
  destruct (simplify_using 0 [1] s) as [[[]| |] s']; cbn [snd].
  - exact (proj1 H).
  - exact (proj1 H).
  - destruct H.
Defined.

Lemma superpose_only_adds_witness :
  let s := (pick_next (init_saturate (engine 100 100 [12%N; 10%N]))).2 in
  match superpose 1 s with
  | (Timeout, _) => False
  | (_, s') => m_processed s' = m_processed s
  end.
Proof.
  intros s. destruct engine_picked as (x & _ & Hmid & _). fold s in Hmid.
  clearbody s.
  pose proof (superpose_only_adds 1 s x Hmid) as H.
  destruct (superpose 1 s) as [[[]| |] s'].
  - exact (proj1 (proj2 (proj2 H))).
  - exact (proj1 (proj2 (proj2 H))).
  - exact H.
Defined.

Lemma simplify_using_set_exception_safe_witness :
  let s := (pick_next (init_saturate (engine 100 100 [12%N; 10%N]))).2 in
  match simplify_using_set 1 s with
  | (Timeout, _) => False
  | (_, s') => qinv s'
  end.
Proof.
  intros s. destruct engine_picked as (x & _ & Hmid & _). fold s in Hmid.
  clearbody s.
  pose proof (simplify_using_set_exception_safe 1 s x Hmid) as H.
  destruct (simplify_using_set 1 s) as [[[]| |] s'].
  - exact (proj1 (proj2 H)).
  - exact (proj1 (proj2 H)).
  - exact H.
Defined.

Lemma simplify_watch_keeps_index_witness :
  let s := (pick_next (init_saturate (engine 100 100 [12%N; 10%N]))).2 in
  watch_entries_ok (simplify_watch 1 s).2
  ∧ watched_once (simplify_watch 1 s).2.
Proof.
  intros s. destruct engine_picked as (x & _ & Hmid & Hnv). fold s in Hmid.
  assert (Hrun : simplify_watch 1 s = (Val tt, (simplify_watch 1 s).2))
    by (vm_compute; reflexivity).
  clearbody s.
  destruct (simplify_watch_keeps_index 1 s x Hmid Hnv _ Hrun)
    as (_ & H1 & H2 & _).
  split; [exact H1|exact H2].
Defined.

Lemma step_nothing_to_pick_witness :
  let s := init_saturate (engine 100 100 []) in
  step s = (Val false, set_levelp1 0 (inc_compute_steps s)).
Proof.
  intros s.
  assert (Hinv : inv s) by (apply engine_inv; constructor).
  assert (Hts : m_to_simplify s = []) by (vm_compute; reflexivity).
  clearbody s.
  exact (step_nothing_to_pick s Hinv Hts).
Defined.

Lemma pick_next_detaches_witness :
  let s := init_saturate (engine 100 100 [12%N; 10%N]) in
  in_no_queue (pick_next s).2 1 ∧ (∀ v, 1 ∉ watch_of (pick_next s).2 v).
Proof.
  intros s.
  assert (Hinv : inv s) by (apply engine_inv, small_polys_2; reflexivity).
  assert (Hpick : pick_next s = (Some 1, (pick_next s).2))
    by (vm_compute; reflexivity).
  clearbody s.
  destruct (pick_next_detaches s 1 _ Hinv Hpick) as (x & _ & _ & H1 & H2 & _).
  split; [exact H1|exact H2].
Defined.

Lemma init_saturate_establishes_witness :
  let s := engine 100 100 [12%N; 10%N] in
  inv (init_saturate s)
  ∧ m_levelp1 (init_saturate s) = length (get_level2var (PddManager := Lin2.manager 3 100 100)).
Proof.
  intros s.
  assert (Hq : qinv s) by (apply engine_qinv, small_polys_2; reflexivity).
  clearbody s.
  destruct (init_saturate_establishes s Hq) as (H1 & _ & _ & _ & H5 & _).
  split; [exact H1|exact H5].
Defined.

Lemma add_keeps_invariants_witness :
  let s := init_saturate (engine 100 100 [12%N; 10%N]) in
  inv (add (PM := Lin2.manager 3 100 100) 6%N [] s).
Proof.
  intros s.
  assert (Hinv : inv s) by (apply engine_inv, small_polys_2; reflexivity).
  clearbody s.
  assert (Hwf : pdd_wf (PddManager := Lin2.manager 3 100 100) 6%N) by reflexivity.
  exact (proj2 (add_keeps_invariants (PM := Lin2.manager 3 100 100) 6%N [] s Hwf) Hinv).
Defined.

Lemma equations_lists_each_once_witness :
  let s := engine 100 100 [12%N; 10%N] in
  NoDup (equations s)
  ∧ length (equations s)
    = length (m_solved s) + length (m_to_simplify s) + length (m_processed s).
Proof.
  intros s.
  assert (Hq : qinv s) by (apply engine_qinv, small_polys_2; reflexivity).
  clearbody s.
  destruct (equations_lists_each_once s Hq) as (H1 & _ & _ & H4).
  split; [exact H1|exact H4].
Defined.

Lemma invariant_passes_between_steps_witness :
  let s := (saturate_loop 50 (init_saturate (engine 100 100 [12%N; 10%N]))).2 in
  m_solved s = [1; 0] ∧ invariant (PM := Lin2.manager 3 100 100) free_vars3 s = true.
Proof.
  intros s. split; [vm_compute; reflexivity|].
  assert (Hinv0 : inv (init_saturate (engine 100 100 [12%N; 10%N])))
    by (apply engine_inv, small_polys_2; reflexivity).
  assert (Hrun : saturate_loop 50 (init_saturate (engine 100 100 [12%N; 10%N]))
                 = (Val tt, s)) by (vm_compute; reflexivity).
  assert (Hchk : invariant (PM := Lin2.manager 3 100 100) free_vars3 s = true) by (vm_compute; reflexivity).
  clearbody s.
  pose proof (saturate_loop_spec 50 _ Hinv0) as Hs. rewrite Hrun in Hs.
  destruct (proj1 (invariant_reflect (PM := Lin2.manager 3 100 100) free_vars3 s) Hchk)
    as (_ & _ & _ & HD & HH & _).
  exact (invariant_passes_between_steps (PM := Lin2.manager 3 100 100) free_vars3 s
           (proj1 Hs) HD HH).
Defined.
